(** * tdp-lib: the operations DAG ([tdp/core/dag.py])

    A shallow embedding of the [Dag] class: the merge of the operations
    declared by an ordered mapping of collections, the validation rules, the
    construction of the dependency graph, the ordering queries and the cached
    properties with their invalidation chain.

    The first half of the file holds the model, the second half the lemmas
    and theorems about it. *)

From Stdlib Require Import String Ascii ZArith List Lia Permutation DecimalString
  OrdersEx.
From stdpp Require Import gmap strings list fin_maps.

Local Open Scope string_scope.
Local Open Scope Z_scope.
Local Open Scope list_scope.

#[local] Set Warnings "-clear-no-such-hyp".

(** ** Exceptions and results *)

(** The exceptions that [dag.py] and the graph library can raise.  The
    argument of [ValueError] is the message built by the f-string at the
    [raise]; the argument of [KeyError] is the missing key.  [OutOfFuel] is
    not a Python exception: it marks the exhaustion of the fuel that bounds a
    loop of the model. *)
Inductive exn : Type :=
  | ValueError (msg : string)
  | KeyError (key : string)
  | NetworkXError (msg : string)
  | NetworkXUnfeasible
  | RuntimeError
  | OutOfFuel.

Inductive result (A : Type) : Type :=
  | Ok (a : A)
  | Raise (e : exn).
Arguments Ok {A} a.
Arguments Raise {A} e.

Definition is_Ok {A} (r : result A) : bool :=
  match r with Ok _ => true | Raise _ => false end.

(** ** Strings *)

(** The double quote, which the messages of [dag.py] put around names. *)
Definition dquote : string := String "034"%char EmptyString.

(** [s.endswith(suffix)] *)
Definition endswith (s suffix : string) : bool :=
  let n := String.length s in
  let m := String.length suffix in
  (m <=? n)%nat && String.eqb (substring (n - m) m s) suffix.

(** [f"{n:02d}"]: decimal digits, padded with a zero on the left to width 2. *)
Definition format_02d (n : Z) : string :=
  let s := NilZero.string_of_int (Z.to_int n) in
  if (String.length s <? 2)%nat then "0" +:+ s else s.

(** Insertion of a string in a list sorted by code points. *)
Fixpoint insert_sorted (x : string) (l : list string) : list string :=
  match l with
  | [] => [x]
  | y :: l' => if String.leb x y then x :: y :: l' else y :: insert_sorted x l'
  end.

(** [sorted(l)] on strings. *)
Definition sorted (l : list string) : list string :=
  foldr insert_sorted [] l.

(** [l.index(x)] *)
Fixpoint list_index (x : string) (l : list string) : option nat :=
  match l with
  | [] => None
  | y :: l' => if String.eqb x y then Some 0%nat else S <$> list_index x l'
  end.

(** [x in l] *)
Definition list_contains (x : string) (l : list string) : bool :=
  existsb (String.eqb x) l.

(** [l[i]], with Python's negative indices. *)
Definition list_getitem {A} (l : list A) (i : Z) : option A :=
  if i <? 0 then
    (if Z.of_nat (length l) + i <? 0 then None
     else l !! Z.to_nat (Z.of_nat (length l) + i))
  else l !! Z.to_nat i.

(** ** Python dictionaries

    A [dict] keeps its keys in insertion order, and [validate] walks
    [items()] in that order, so a dictionary is an association list whose
    keys are distinct. *)
Definition dict (V : Type) : Type := list (string * V).

Fixpoint dict_get {V} (k : string) (d : dict V) : option V :=
  match d with
  | [] => None
  | (k', v) :: d' => if String.eqb k k' then Some v else dict_get k d'
  end.

(** [k in d] *)
Definition dict_contains {V} (k : string) (d : dict V) : bool :=
  match dict_get k d with Some _ => true | None => false end.

(** [d[k] = v]: an existing key keeps its place. *)
Fixpoint dict_set {V} (k : string) (v : V) (d : dict V) : dict V :=
  match d with
  | [] => [(k, v)]
  | (k', v') :: d' =>
      if String.eqb k k' then (k, v) :: d' else (k', v') :: dict_set k v d'
  end.

Definition dict_keys {V} (d : dict V) : list string := map fst d.
Definition dict_values {V} (d : dict V) : list V := map snd d.

(** [d.get(k, default)] *)
Definition dict_get_default {V} (k : string) (default : V) (d : dict V) : V :=
  match dict_get k d with Some v => v | None => default end.

(** ** Operations and collections

    [tdp.core.operation.Operation] and [tdp.core.collection.Collection] are
    imported by [dag.py]; the records below list the attributes that
    [dag.py] reads. *)

(** One entry of a collection's dag file, as [yaml.load] returns it and as
    [Operation(collection_name=..., **operation)] receives it.  [service],
    [action] and the result of [is_service()] are derived from the name by
    the constructor of [Operation]; an entry carries them so that the model
    does not fix the naming scheme. *)
Record declaration : Type := {
  decl_name : string;
  decl_depends_on : list string;
  decl_noop : bool;
  decl_service : string;
  decl_action : string;
  decl_is_service : bool
}.

Record Operation : Type := {
  name : string;
  collection_name : string;
  depends_on : list string;
  noop : bool;
  service : string;
  action : string;
  is_service : bool
}.

(** [Operation(collection_name=collection_name, **operation)] *)
Definition Operation_init (cname : string) (operation : declaration) : Operation :=
  {| name := decl_name operation;
     collection_name := cname;
     depends_on := decl_depends_on operation;
     noop := decl_noop operation;
     service := decl_service operation;
     action := decl_action operation;
     is_service := decl_is_service operation |}.

(** A collection: each element of [dag_yamls] is the content of one file
    ([None] for an empty document); [operations] holds the keys of the
    collection's mapping of playbooks (the operations that have one). *)
Module Collection.
Record t : Type := {
  name : string;
  dag_yamls : list (option (list declaration));
  operations : list string
}.
End Collection.
Abbreviation Collection := Collection.t.

(** ** Service priorities *)

Definition SERVICE_PRIORITY : dict Z :=
  [ ("exporter", 1); ("zookeeper", 2); ("hadoop", 3); ("ranger", 4);
    ("hdfs", 5); ("yarn", 6); ("hive", 7); ("hbase", 8); ("spark", 9);
    ("spark3", 10); ("knox", 11) ].

Definition DEFAULT_SERVICE_PRIORITY : Z := 99.

(** ** Merging the collections ([Dag.operations], lines 113-136) *)

Definition duplicate_message (name first second : string) : string :=
  dquote +:+ name +:+ dquote +:+ " is declared at least twice," +:+
  " first in " +:+ first +:+ ", " +:+ " second in " +:+ second.

(** [yaml.load(operation_file, Loader=Loader) or []] over the files of one
    collection, accumulated with [extend]. *)
Definition operations_list (collection : Collection) : list declaration :=
  concat (map (fun doc => default [] doc) (Collection.dag_yamls collection)).

(** The inner loop: the entries of one collection. *)
Fixpoint merge_operations_list (cname : string) (l : list declaration)
    (operations : dict Operation) : result (dict Operation) :=
  match l with
  | [] => Ok operations
  | operation :: l' =>
      let name := decl_name operation in
      match dict_get name operations with
      | Some first =>
          Raise (ValueError (duplicate_message name (collection_name first) cname))
      | None =>
          merge_operations_list cname l'
            (dict_set name (Operation_init cname operation) operations)
      end
  end.

(** The outer loop: [self._collections.items()] in order. *)
Fixpoint merge_collections (items : dict Collection)
    (operations : dict Operation) : result (dict Operation) :=
  match items with
  | [] => Ok operations
  | (cname, collection) :: items' =>
      match merge_operations_list cname (operations_list collection) operations with
      | Raise e => Raise e
      | Ok operations' => merge_collections items' operations'
      end
  end.

(** ** Validation ([Dag.validate])

    [validate] only logs: each call of [logger.warning] is recorded as one
    [warning], in the order of the calls.  The constructors carry the values
    that the message interpolates; the collection is the one appended by the
    local helper [warning(collection_name, message)]. *)
Inductive warning : Type :=
  (** ["Operation '{operation_name}' is in service '{service}', depends on
      '{dependency}' which is a start action in service '{dependency_service}'
      and should only depends on start action within its own service"] *)
  | StartOutsideService (operation_name service dependency dependency_service
                         collection : string)
  (** ["Operation '{operation_name}' is an install action, depends on
      '{dependency}' which is not an install action and should only depends on
      other install action"] *)
  | InstallDependsOnOther (operation_name dependency collection : string)
  (** ["Operation '{operation_name}' is a service action and has to depend on
      '{service}_{previous_action}'"] *)
  | MissingPreviousAction (operation_name service previous_action
                           collection : string)
  (** ["Operation '{operation_name}' is noop and the playbook should not exist"] *)
  | NoopWithPlaybook (operation_name collection : string)
  (** ["Operation '{operation_name}' should have a playbook"] *)
  | MissingPlaybook (operation_name collection : string)
  (** ["Service '{service}' have these actions {actions} and at least one
      action is missing from {actions_for_service}"] *)
  | MissingActions (service : string) (actions : gset string).

(** A computation that logs and may raise: the warnings logged before the
    exception stay logged. *)
Definition logged (A : Type) : Type := list warning * result A.

Definition actions_order : list string := ["install"; "config"; "start"; "init"].

Definition actions_for_service : gset string :=
  {["install"; "config"; "start"; "init"]}.

(** Lines 273-293: the loop over [operation.depends_on]. *)
Fixpoint validate_dependencies (operations : dict Operation)
    (operation_name : string) (operation : Operation)
    (dependencies : list string) : logged unit :=
  match dependencies with
  | [] => ([], Ok tt)
  | dependency :: dependencies' =>
      match dict_get dependency operations with
      | None => ([], Raise (KeyError dependency))
      | Some dependency_operation =>
          let dependency_service := service dependency_operation in
          let w1 :=
            if endswith dependency "_start"
               && negb (String.eqb dependency_service (service operation))
            then [StartOutsideService operation_name (service operation)
                    dependency dependency_service (collection_name operation)]
            else [] in
          let w2 :=
            if endswith operation_name "_install"
               && negb (endswith dependency "_install")
            then [InstallDependsOnOther operation_name dependency
                    (collection_name operation)]
            else [] in
          let '(ws, r) :=
            validate_dependencies operations operation_name operation
              dependencies' in
          (w1 ++ w2 ++ ws, r)
      end
  end.

(** Lines 314-318: the loop that looks for the previous service action. *)
Definition previous_service_action_found (previous_service_action : string)
    (dependencies : list string) : bool :=
  fold_left
    (fun found dependency =>
       if String.eqb dependency previous_service_action then true else found)
    dependencies false.

(** Lines 304-323, under the guard [operation.is_service()]. *)
Definition validate_previous_action (operation_name : string)
    (operation : Operation) : list warning :=
  if list_contains (action operation) actions_order
     && negb (String.eqb (action operation) "install")
  then
    match list_index (action operation) actions_order with
    | None => []
    | Some i =>
        match list_getitem actions_order (Z.of_nat i - 1) with
        | None => []
        | Some previous_action =>
            let previous_service_action :=
              service operation +:+ "_" +:+ previous_action in
            if previous_service_action_found previous_service_action
                 (depends_on operation)
            then []
            else [MissingPreviousAction operation_name (service operation)
                    previous_action (collection_name operation)]
        end
    end
  else [].

(** Lines 327-337: noop operations and playbooks. *)
Definition validate_playbook (collections : dict Collection)
    (operation_name : string) (operation : Operation) : logged unit :=
  match dict_get (collection_name operation) collections with
  | None => ([], Raise (KeyError (collection_name operation)))
  | Some collection =>
      if list_contains operation_name (Collection.operations collection)
      then (if noop operation
            then [NoopWithPlaybook operation_name (collection_name operation)]
            else [], Ok tt)
      else (if noop operation
            then []
            else [MissingPlaybook operation_name (collection_name operation)],
            Ok tt)
  end.

(** One turn of the loop of line 271.  [services_actions.setdefault] returns
    the set stored in the dictionary and [add] mutates it in place, so the
    dictionary is updated at that key. *)
Definition validate_operation (collections : dict Collection)
    (operations : dict Operation) (services_actions : dict (gset string))
    (operation_name : string) (operation : Operation)
    : logged (dict (gset string)) :=
  match validate_dependencies operations operation_name operation
          (depends_on operation) with
  | (ws1, Raise e) => (ws1, Raise e)
  | (ws1, Ok _) =>
      let service_actions :=
        dict_get_default (service operation) ∅ services_actions in
      let service_actions' :=
        if is_service operation
        then service_actions ∪ {[action operation]}
        else service_actions in
      let services_actions' :=
        dict_set (service operation) service_actions' services_actions in
      let ws2 :=
        if is_service operation
        then validate_previous_action operation_name operation
        else [] in
      match validate_playbook collections operation_name operation with
      | (ws3, Raise e) => (ws1 ++ ws2 ++ ws3, Raise e)
      | (ws3, Ok _) => (ws1 ++ ws2 ++ ws3, Ok services_actions')
      end
  end.

(** The loop of line 271 over [self.operations.items()]. *)
Fixpoint validate_operations (collections : dict Collection)
    (operations : dict Operation) (services_actions : dict (gset string))
    (items : dict Operation) : logged (dict (gset string)) :=
  match items with
  | [] => ([], Ok services_actions)
  | (operation_name, operation) :: items' =>
      match validate_operation collections operations services_actions
              operation_name operation with
      | (ws, Raise e) => (ws, Raise e)
      | (ws, Ok services_actions') =>
          let '(ws', r) :=
            validate_operations collections operations services_actions'
              items' in
          (ws ++ ws', r)
      end
  end.

(** Lines 342-348: the services that lack one of the four actions. *)
Definition validate_services (services_actions : dict (gset string))
    : list warning :=
  flat_map
    (fun '(service, actions) =>
       if bool_decide (actions_for_service ⊆ actions) then []
       else [MissingActions service actions])
    services_actions.

(** The body of [validate], once [self.operations] is known. *)
Definition validate_operations_dict (collections : dict Collection)
    (operations : dict Operation) : logged unit :=
  match validate_operations collections operations [] operations with
  | (ws, Raise e) => (ws, Raise e)
  | (ws, Ok services_actions) => (ws ++ validate_services services_actions, Ok tt)
  end.

(** ** The graph library

    [dag.py] builds an [nx.DiGraph] and calls [nx.is_directed_acyclic_graph],
    [nx.lexicographical_topological_sort], [nx.ancestors], [nx.descendants]
    and [DiGraph.subgraph].  The library is not part of the repository; this
    section models the part of it that [dag.py] uses.

    A directed graph without parallel edges: the nodes and the edges in
    insertion order, each listed once. *)
Record DiGraph : Type := {
  nodes : list string;
  edges : list (string * string)
}.

(** [nx.DiGraph()] *)
Definition empty_graph : DiGraph := {| nodes := []; edges := [] |}.

(** [G.add_node(n)] *)
Definition add_node (n : string) (G : DiGraph) : DiGraph :=
  if list_contains n (nodes G) then G
  else {| nodes := nodes G ++ [n]; edges := edges G |}.

(** [G.add_nodes_from(l)] *)
Definition add_nodes_from (l : list string) (G : DiGraph) : DiGraph :=
  fold_left (fun G n => add_node n G) l G.

(** [G.has_edge(u, v)] *)
Definition has_edge (u v : string) (G : DiGraph) : bool :=
  existsb (fun e => String.eqb (fst e) u && String.eqb (snd e) v) (edges G).

(** [G.add_edge(u, v)]: missing end points become nodes, an edge that is
    already there is not added again. *)
Definition add_edge (u v : string) (G : DiGraph) : DiGraph :=
  let G' := add_node v (add_node u G) in
  if has_edge u v G' then G'
  else {| nodes := nodes G'; edges := edges G' ++ [(u, v)] |}.

(** [G.successors(u)], also the targets of [G.edges(u)] *)
Definition successors (G : DiGraph) (u : string) : list string :=
  map snd (filter (fun e => fst e = u) (edges G)).

(** [G.predecessors(v)] *)
Definition predecessors (G : DiGraph) (v : string) : list string :=
  map fst (filter (fun e => snd e = v) (edges G)).

(** [G.in_degree(v)] *)
Definition in_degree (G : DiGraph) (v : string) : Z :=
  Z.of_nat (length (predecessors G v)).

(** [G.subgraph(nbunch)]: the graph induced on the nodes of [G] that are in
    [nbunch]. *)
Definition subgraph (G : DiGraph) (nbunch : gset string) : DiGraph :=
  {| nodes := filter (fun n => n ∈ nbunch) (nodes G);
     edges := filter (fun e => fst e ∈ nbunch ∧ snd e ∈ nbunch) (edges G) |}.

(** *** Kahn's algorithm

    [nx.topological_generations] (which decides
    [nx.is_directed_acyclic_graph]) and [nx.lexicographical_topological_sort]
    are the same loop over a map of the remaining in-degrees and a container
    of the nodes whose in-degree reached zero; they differ in the container:
    a list visited in order for the first, a heap ordered by the key for the
    second.  The loop is written once, over the operations of the container. *)
Section kahn.
Context {Q : Type}.
Variable push : string -> Q -> result Q.
Variable pop : Q -> option (string * Q).
Variable G : DiGraph.

Fixpoint push_all (l : list string) (q : Q) : result Q :=
  match l with
  | [] => Ok q
  | v :: l' =>
      match push v q with
      | Raise e => Raise e
      | Ok q' => push_all l' q'
      end
  end.

(** The loop over the children of the node that was just taken:
    [indegree_map[child] -= 1], and a child whose count reaches zero moves
    from the map to the container. *)
Fixpoint relax (children : list string) (indegree_map : gmap string Z)
    (q : Q) : result (gmap string Z * Q) :=
  match children with
  | [] => Ok (indegree_map, q)
  | child :: children' =>
      match indegree_map !! child with
      | None => Raise RuntimeError
      | Some d =>
          if d - 1 =? 0 then
            match push child q with
            | Raise e => Raise e
            | Ok q' => relax children' (delete child indegree_map) q'
            end
          else relax children' (<[child := d - 1]> indegree_map) q
      end
  end.

(** The [while zero_indegree] loop; [fuel] bounds the number of turns. *)
Fixpoint kahn_loop (fuel : nat) (indegree_map : gmap string Z) (q : Q)
    : result (list string) :=
  match fuel with
  | O => Raise OutOfFuel
  | S fuel' =>
      match pop q with
      | None =>
          if decide (indegree_map = ∅) then Ok []
          else Raise NetworkXUnfeasible
      | Some (node, q') =>
          if list_contains node (nodes G) then
            match relax (successors G node) indegree_map q' with
            | Raise e => Raise e
            | Ok (indegree_map', q'') =>
                match kahn_loop fuel' indegree_map' q'' with
                | Ok l => Ok (node :: l)
                | Raise e => Raise e
                end
            end
          else Raise RuntimeError
      end
  end.

(** [{v: d for v, d in G.in_degree() if d > 0}] *)
Definition initial_indegree_map : gmap string Z :=
  list_to_map
    (map (fun v => (v, in_degree G v))
         (filter (fun v => 0 < in_degree G v) (nodes G))).

(** [[v for v, d in G.in_degree() if d == 0]] *)
Definition initial_zero_indegree : list string :=
  filter (fun v => in_degree G v = 0) (nodes G).

(** One turn for each node, and the last one that finds the container
    empty. *)
Definition kahn (empty : Q) : result (list string) :=
  match push_all initial_zero_indegree empty with
  | Raise e => Raise e
  | Ok q => kahn_loop (S (length (nodes G))) initial_indegree_map q
  end.
End kahn.

(** The container of [topological_generations]: the nodes of a generation
    are visited in order and the nodes they release are appended to the next
    generation, which is visited after them. *)
Definition fifo_push (v : string) (q : list string) : result (list string) :=
  Ok (q ++ [v]).

Definition fifo_pop (q : list string) : option (string * list string) :=
  match q with
  | [] => None
  | v :: q' => Some (v, q')
  end.

(** [nx.is_directed_acyclic_graph(G)]: the unkeyed sort runs to its end, and
    [NetworkXUnfeasible] is the only exception that is caught. *)
Definition is_directed_acyclic_graph (G : DiGraph) : result bool :=
  match kahn fifo_push fifo_pop G [] with
  | Ok _ => Ok true
  | Raise NetworkXUnfeasible => Ok false
  | Raise e => Raise e
  end.

(** The heap of [lexicographical_topological_sort] holds the tuples
    [(key(node), nodeid_map[node], node)].  The keys that [dag.py] passes are
    distinct for distinct nodes ([custom_key_inj]), so the second and third
    components never decide a comparison, and an entry is modelled as the
    pair of the key and the node.  [heappop] takes an entry with the least
    key. *)
Definition heap : Type := list (string * string).

Fixpoint heap_min (e : string * string) (h : heap) : string * string :=
  match h with
  | [] => e
  | e' :: h' =>
      if String.ltb (fst e') (fst e) then heap_min e' h' else heap_min e h'
  end.

Fixpoint heap_remove (node : string) (h : heap) : heap :=
  match h with
  | [] => []
  | e :: h' => if String.eqb (snd e) node then h' else e :: heap_remove node h'
  end.

Definition heappop (h : heap) : option (string * heap) :=
  match h with
  | [] => None
  | e :: h' =>
      let m := heap_min e h' in
      Some (snd m, heap_remove (snd m) h)
  end.

(** [heapq.heappush(zero_indegree, create_tuple(child))]: the key function
    may raise. *)
Definition heappush (key : string -> result string) (v : string) (h : heap)
    : result heap :=
  match key v with
  | Raise e => Raise e
  | Ok k => Ok ((k, v) :: h)
  end.

(** [list(nx.lexicographical_topological_sort(G, key))] *)
Definition lexicographical_topological_sort (G : DiGraph)
    (key : string -> result string) : result (list string) :=
  kahn (heappush key) heappop G [].

(** *** Ancestors and descendants

    The breadth-first search by levels behind [nx.ancestors] and
    [nx.descendants]: the nodes of the next level that were not seen yet are
    added to [seen], and their neighbours form the level after. *)
Fixpoint bfs_levels (adj : string -> list string) (fuel : nat)
    (nextlevel seen : gset string) : result (gset string) :=
  match fuel with
  | O => Raise OutOfFuel
  | S fuel' =>
      let found := nextlevel ∖ seen in
      if decide (found = ∅) then Ok seen
      else bfs_levels adj fuel'
             (list_to_set (flat_map adj (elements found))) (seen ∪ found)
  end.

Definition node_not_in_graph_message (source : string) : string :=
  "The node " +:+ source +:+ " is not in the graph.".

(** [nx.ancestors(G, source)] *)
Definition ancestors (G : DiGraph) (source : string)
    : result (gset string) :=
  if list_contains source (nodes G) then
    match bfs_levels (predecessors G) (S (length (nodes G))) {[source]} ∅ with
    | Raise e => Raise e
    | Ok seen => Ok (seen ∖ {[source]})
    end
  else Raise (NetworkXError (node_not_in_graph_message source)).

(** [nx.descendants(G, source)] *)
Definition descendants (G : DiGraph) (source : string)
    : result (gset string) :=
  if list_contains source (nodes G) then
    match bfs_levels (successors G) (S (length (nodes G))) {[source]} ∅ with
    | Raise e => Raise e
    | Ok seen => Ok (seen ∖ {[source]})
    end
  else Raise (NetworkXError (node_not_in_graph_message source)).

(** ** The [Dag] object and its cached properties *)

Record Dag : Type := {
  _collections : dict Collection;
  _operations : option (dict Operation);
  _graph : option DiGraph;
  _yaml_files : option (list string);
  _services : option (list string);
  _services_operations : option (dict (list Operation))
}.

(** The outcome of a method call: what it returns or raises, the object
    afterwards (an exception keeps the assignments made before it), and the
    warnings it logged. *)
Record outcome (A : Type) : Type := {
  value : result A;
  state : Dag;
  log : list warning
}.
Arguments value {A} o.
Arguments state {A} o.
Arguments log {A} o.

Definition M (A : Type) : Type := Dag -> outcome A.

Definition ret {A} (a : A) : M A :=
  fun s => {| value := Ok a; state := s; log := [] |}.

Definition raise {A} (e : exn) : M A :=
  fun s => {| value := Raise e; state := s; log := [] |}.

Definition bind {A B} (m : M A) (f : A -> M B) : M B :=
  fun s =>
    let o := m s in
    match value o with
    | Raise e => {| value := Raise e; state := state o; log := log o |}
    | Ok a =>
        let o' := f a (state o) in
        {| value := value o'; state := state o'; log := log o ++ log o' |}
    end.

#[global] Instance M_ret : MRet M := @ret.
#[global] Instance M_bind : MBind M := fun A B f m => bind m f.

Definition get : M Dag :=
  fun s => {| value := Ok s; state := s; log := [] |}.

Definition modify (f : Dag -> Dag) : M unit :=
  fun s => {| value := Ok tt; state := f s; log := [] |}.

(** A pure computation of the library, or a run of [validate]. *)
Definition lift {A} (r : result A) : M A :=
  fun s => {| value := r; state := s; log := [] |}.

Definition lift_logged {A} (r : logged A) : M A :=
  fun s => {| value := snd r; state := s; log := fst r |}.

(** The assignments to the private attributes. *)
Definition set__collections (v : dict Collection) (s : Dag) : Dag :=
  {| _collections := v; _operations := _operations s; _graph := _graph s;
     _yaml_files := _yaml_files s; _services := _services s;
     _services_operations := _services_operations s |}.

Definition set__operations (v : option (dict Operation)) (s : Dag) : Dag :=
  {| _collections := _collections s; _operations := v; _graph := _graph s;
     _yaml_files := _yaml_files s; _services := _services s;
     _services_operations := _services_operations s |}.

Definition set__graph (v : option DiGraph) (s : Dag) : Dag :=
  {| _collections := _collections s; _operations := _operations s; _graph := v;
     _yaml_files := _yaml_files s; _services := _services s;
     _services_operations := _services_operations s |}.

Definition set__services (v : option (list string)) (s : Dag) : Dag :=
  {| _collections := _collections s; _operations := _operations s;
     _graph := _graph s; _yaml_files := _yaml_files s; _services := v;
     _services_operations := _services_operations s |}.

Definition set__services_operations (v : option (dict (list Operation)))
    (s : Dag) : Dag :=
  {| _collections := _collections s; _operations := _operations s;
     _graph := _graph s; _yaml_files := _yaml_files s; _services := _services s;
     _services_operations := v |}.

(** [Dag.__init__] *)
Definition Dag_init (collections : dict Collection) : Dag :=
  {| _collections := collections; _operations := None; _graph := None;
     _yaml_files := None; _services := None; _services_operations := None |}.

(** [Dag.from_collections]: an [OrderedDict] keyed by the names. *)
Definition from_collections (collections : list Collection) : Dag :=
  Dag_init
    (fold_left (fun d c => dict_set (Collection.name c) c d) collections []).

(** *** [services], [services_operations], [graph]: setters and deleters *)

(** [del self.services] *)
Definition del_services : M unit := modify (set__services None).

(** [del self.services_operations] *)
Definition del_services_operations : M unit :=
  modify (set__services_operations None);; del_services.

(** [self.graph = value] *)
Definition set_graph (v : option DiGraph) : M unit := modify (set__graph v).

(** [del self.graph] *)
Definition del_graph : M unit := set_graph None.

(** *** [operations] *)

(** [self.operations = value] *)
Definition set_operations (v : option (dict Operation)) : M unit :=
  modify (set__operations v);;
  del_graph;;
  del_services_operations;;
  del_services.

(** [del self.operations] *)
Definition del_operations : M unit := set_operations None.

(** The getter.  [validate] runs after the assignment to [_operations];
    inside it every [self.operations] finds the dictionary that was just
    stored. *)
Definition operations : M (dict Operation) :=
  s ← get;
  match _operations s with
  | Some operations => ret operations
  | None =>
      operations ← lift (merge_collections (_collections s) []);
      modify (set__operations (Some operations));;
      lift_logged (validate_operations_dict (_collections s) operations);;
      ret operations
  end.

(** [Dag.validate] called as a method: the first [self.operations] may build
    the dictionary (and validate it a first time). *)
Definition validate : M unit :=
  operations ← operations;
  s ← get;
  lift_logged (validate_operations_dict (_collections s) operations).

(** *** [collections] *)

Definition collections : M (dict Collection) :=
  s ← get; ret (_collections s).

(** [self.collections = collections] *)
Definition set_collections (v : dict Collection) : M unit :=
  modify (set__collections v);;
  del_operations.

(** *** [services_operations] and [services] *)

(** [d.setdefault(operation.service, []).append(operation)] *)
Definition services_operations_add (d : dict (list Operation))
    (operation : Operation) : dict (list Operation) :=
  dict_set (service operation)
    (dict_get_default (service operation) [] d ++ [operation]) d.

(** The empty dictionary is stored before [self.operations] is read. *)
Definition services_operations : M (dict (list Operation)) :=
  s ← get;
  match _services_operations s with
  | Some d => ret d
  | None =>
      modify (set__services_operations (Some []));;
      operations ← operations;
      let d := fold_left services_operations_add (dict_values operations) [] in
      modify (set__services_operations (Some d));;
      ret d
  end.

Definition services : M (list string) :=
  s ← get;
  match _services s with
  | Some l => ret l
  | None =>
      d ← services_operations;
      modify (set__services (Some (dict_keys d)));;
      ret (dict_keys d)
  end.

(** *** [graph] *)

Definition unknown_dependency_message (dependency operation_name : string)
    : string :=
  "Dependency " +:+ dquote +:+ dependency +:+ dquote +:+
  " does not exist for operation " +:+ dquote +:+ operation_name +:+ dquote.

(** Lines 187-192: the edges into one operation. *)
Fixpoint add_dependencies (operations : dict Operation)
    (operation_name : string) (dependencies : list string) (DG : DiGraph)
    : result DiGraph :=
  match dependencies with
  | [] => Ok DG
  | dependency :: dependencies' =>
      if dict_contains dependency operations
      then add_dependencies operations operation_name dependencies'
             (add_edge dependency operation_name DG)
      else Raise (ValueError
                    (unknown_dependency_message dependency operation_name))
  end.

(** Lines 185-192. *)
Fixpoint add_operations (operations : dict Operation)
    (operation_names : list string) (DG : DiGraph) : result DiGraph :=
  match operation_names with
  | [] => Ok DG
  | operation_name :: operation_names' =>
      match dict_get operation_name operations with
      | None => Raise (KeyError operation_name)
      | Some operation =>
          match add_dependencies operations operation_name
                  (sorted (depends_on operation)) DG with
          | Raise e => Raise e
          | Ok DG' => add_operations operations operation_names' DG'
          end
      end
  end.

(** Lines 181-192: the graph of a dictionary of operations. *)
Definition build_graph (operations : dict Operation) : result DiGraph :=
  let operation_names := sorted (dict_keys operations) in
  add_operations operations operation_names
    (add_nodes_from operation_names empty_graph).

(** The getter: the graph is stored only when it is acyclic. *)
Definition graph : M DiGraph :=
  s ← get;
  match _graph s with
  | Some DG => ret DG
  | None =>
      operations ← operations;
      DG ← lift (build_graph operations);
      acyclic ← lift (is_directed_acyclic_graph DG);
      if acyclic : bool
      then modify (set__graph (Some DG));; ret DG
      else raise (ValueError "Not a DAG")
  end.

(** *** The ordering queries *)

(** [custom_key], over the dictionary that [self.operations] returns. *)
Definition custom_key (operations : dict Operation) (node : string)
    : result string :=
  match dict_get node operations with
  | None => Raise (KeyError node)
  | Some operation =>
      let operation_priority :=
        dict_get_default (service operation) DEFAULT_SERVICE_PRIORITY
          SERVICE_PRIORITY in
      Ok (format_02d operation_priority +:+ "_" +:+ node)
  end.

(** [topological_sort(nodes)].  [nbunch] is the argument when it is not
    [None]; a set and a graph are both true when they are not empty.  The
    sort calls [custom_key] a first time for the first node without
    predecessor, and that call is the first to read [self.operations]; a graph
    without such a node never calls it. *)
Definition topological_sort (nbunch : option (gset string))
    : M (list string) :=
  graph0 ← graph;
  graph1 ←
    match nbunch with
    | Some nodes_set =>
        if decide (nodes_set = ∅) then ret graph0
        else (DG ← graph; ret (subgraph DG nodes_set))
    | None => ret graph0
    end;
  match initial_zero_indegree graph1 with
  | [] =>
      lift (lexicographical_topological_sort graph1
              (fun node => Raise (KeyError node)))
  | _ :: _ =>
      operations ← operations;
      lift (lexicographical_topological_sort graph1 (custom_key operations))
  end.

(** The loop [for node in nodes: nodes_set.update(closure(self.graph, node))]
    of the two closure queries. *)
Fixpoint update_closure (closure : DiGraph -> string -> result (gset string))
    (nodes : list string) (nodes_set : gset string) : M (gset string) :=
  match nodes with
  | [] => ret nodes_set
  | node :: nodes' =>
      DG ← graph;
      found ← lift (closure DG node);
      update_closure closure nodes' (nodes_set ∪ found)
  end.

Definition get_operations_to_nodes (nodes : list string) : M (list string) :=
  nodes_set ← update_closure ancestors nodes (list_to_set nodes);
  topological_sort (Some nodes_set).

Definition get_operations_from_nodes (nodes : list string) : M (list string) :=
  nodes_set ← update_closure descendants nodes (list_to_set nodes);
  topological_sort (Some nodes_set).

(** [self.topological_sort(self.graph)]: iterating a graph gives its nodes. *)
Definition get_all_operations : M (list string) :=
  DG ← graph;
  topological_sort (Some (list_to_set (nodes DG))).

(** The truth value of an optional list argument. *)
Definition truthy {A} (l : option (list A)) : bool :=
  match l with
  | Some (_ :: _) => true
  | _ => false
  end.

Definition get_operations (sources targets : option (list string))
    : M (list string) :=
  if truthy sources then get_operations_from_nodes (default [] sources)
  else if truthy targets then get_operations_to_nodes (default [] targets)
  else get_all_operations.

(** ** The regular-expression filter ([Dag.filter_operations_regex])

    The module [re] belongs to Python and not to the repository.  The method
    reads two things of it: [re.compile(regex)], which returns a compiled
    pattern or raises [re.error], and the method [match] of a compiled
    pattern, which returns a match object (always true) or [None].  Both are
    parameters of the method: [Pattern_match compiled_regex s] is the truth
    value of [compiled_regex.match(s)]. *)
Definition Dag_filter_operations_regex {Pattern : Type}
    (re_compile : string -> result Pattern)
    (Pattern_match : Pattern -> string -> bool)
    (operations : list string) (regex : string) : result (list string) :=
  match re_compile regex with
  | Raise e => Raise e
  | Ok compiled_regex =>
      Ok (List.filter (Pattern_match compiled_regex) operations)
  end.

(** *** A matcher for the patterns without anchors, classes and groups

    The compiled patterns made of single characters, concatenation, [|] and
    [*], over the bytes of the names. *)
Inductive regex : Type :=
  | Eps
  | Chr (c : ascii)
  | Cat (r1 r2 : regex)
  | Alt (r1 r2 : regex)
  | Star (r : regex).



(** Whether the pattern matches the empty string. *)
Fixpoint nullable (r : regex) : bool :=
  match r with
  | Eps => true
  | Chr _ => false
  | Cat r1 r2 => nullable r1 && nullable r2
  | Alt r1 r2 => nullable r1 || nullable r2
  | Star _ => true
  end.

(** The pattern of what may follow the character [c]; [None] when nothing
    that [r] matches starts with [c]. *)
Fixpoint derivative (c : ascii) (r : regex) : option regex :=
  match r with
  | Eps => None
  | Chr c' => if Ascii.eqb c c' then Some Eps else None
  | Cat r1 r2 =>
      let left := (fun d => Cat d r2) <$> derivative c r1 in
      if nullable r1 then
        match left, derivative c r2 with
        | Some a, Some b => Some (Alt a b)
        | Some a, None => Some a
        | None, o => o
        end
      else left
  | Alt r1 r2 =>
      match derivative c r1, derivative c r2 with
      | Some a, Some b => Some (Alt a b)
      | Some a, None => Some a
      | None, o => o
      end
  | Star r1 => (fun d => Cat d (Star r1)) <$> derivative c r1
  end.

(** The truth value of [compiled_regex.match(s)]: a match object when a
    prefix of [s] matches, [None] otherwise. *)
Fixpoint regex_match (r : regex) (s : string) : bool :=
  nullable r ||
  match s with
  | EmptyString => false
  | String c s' =>
      match derivative c r with
      | Some d => regex_match d s'
      | None => false
      end
  end.

(** [list(filter(compiled_regex.match, operations))], line 254, for a
    pattern of this kind that is already compiled. *)
Definition filter_operations_regex (operations : list string) (regex : regex)
    : list string :=
  List.filter (regex_match regex) operations.

(** The pattern that matches the characters of [s] in order. *)
Fixpoint literal (s : string) : regex :=
  match s with
  | EmptyString => Eps
  | String c s' => Cat (Chr c) (literal s')
  end.

(** [re.compile] on a pattern made of letters, digits and underscores. *)
Definition compile_literal (pattern : string) : result regex :=
  Ok (literal pattern).

(** ** Vocabulary of the statements *)

(** A path of at least one edge. *)
Inductive path (G : DiGraph) : string -> string -> Prop :=
  | path_edge u v : (u, v) ∈ edges G -> path G u v
  | path_step u v w : (u, v) ∈ edges G -> path G v w -> path G u w.

Definition cyclic (G : DiGraph) : Prop := exists v, path G v v.

(** What [add_node] and [add_edge] maintain: no node and no edge is listed
    twice, and the end points of the edges are nodes. *)
Record well_formed (G : DiGraph) : Prop := {
  wf_nodes : NoDup (nodes G);
  wf_edges : NoDup (edges G);
  wf_ends : forall u v, (u, v) ∈ edges G -> u ∈ nodes G /\ v ∈ nodes G
}.

(** [u] comes before [v] in [l]: [l.index(u) < l.index(v)]. *)
Definition precedes (l : list string) (u v : string) : Prop :=
  exists i j, list_index u l = Some i /\ list_index v l = Some j /\ (i < j)%nat.

(** [l] lists the nodes of [G], each once, every edge going forward. *)
Definition topological_order (G : DiGraph) (l : list string) : Prop :=
  l ≡ₚ nodes G /\ forall u v, (u, v) ∈ edges G -> precedes l u v.

(** The cached graph is the graph of the cached operations. *)
Definition coherent (s : Dag) : Prop :=
  match _graph s with
  | None => True
  | Some DG =>
      exists operations,
        _operations s = Some operations /\
        build_graph operations = Ok DG /\
        is_directed_acyclic_graph DG = Ok true
  end.

(** The priority of the service of an operation, as [custom_key] reads it. *)
Definition service_priority (operations : dict Operation) (node : string) : Z :=
  match dict_get node operations with
  | None => DEFAULT_SERVICE_PRIORITY
  | Some operation =>
      dict_get_default (service operation) DEFAULT_SERVICE_PRIORITY
        SERVICE_PRIORITY
  end.

(** The declarations of all collections in the order of the merge, each with
    the name of its collection. *)
Definition all_declarations (items : dict Collection)
    : list (string * declaration) :=
  flat_map (fun '(cname, collection) =>
              map (pair cname) (operations_list collection)) items.

(** The name of the service action that comes before [action]. *)
Definition previous_action (action : string) : option string :=
  if String.eqb action "config" then Some "install"
  else if String.eqb action "start" then Some "config"
  else if String.eqb action "init" then Some "start"
  else None.

(** [v] can be taken next: its predecessors are all in [done]. *)
Definition ready (G : DiGraph) (done : list string) (v : string) : Prop :=
  v ∈ nodes G ∧ (v ∉ done) ∧ ∀ u, (u, v) ∈ edges G → u ∈ done.

(** [l] continues [done] by taking, at each step, a ready node that is least
    for [le] among the ready nodes. *)
Inductive greedy (G : DiGraph) (le : string -> string -> Prop)
    : list string -> list string -> Prop :=
  | greedy_nil done : greedy G le done []
  | greedy_cons done x l :
      ready G done x ->
      (forall y, ready G done y -> le x y) ->
      greedy G le (done ++ [x]) l ->
      greedy G le done (x :: l).

(** The nodes of a heap. *)
Definition heap_elems (h : heap) : list string := map snd h.

(** Every entry of the heap holds the key of its node. *)
Definition heap_inv (key : string -> result string) (h : heap) : Prop :=
  forall k v, (k, v) ∈ h -> key v = Ok k.

(** The order of the heap, on the nodes. *)
Definition key_le (key : string -> result string) (x y : string) : Prop :=
  exists kx ky, key x = Ok kx /\ key y = Ok ky /\ String.leb kx ky = true.

(** The values of [SERVICE_PRIORITY] and the default. *)
Definition priorities : list Z := [1; 2; 3; 4; 5; 6; 7; 8; 9; 10; 11; 99].

(** The graph that [topological_sort] sorts. *)
Definition sorted_graph (DG : DiGraph) (nbunch : option (gset string))
    : DiGraph :=
  match nbunch with
  | Some nodes_set => if decide (nodes_set = ∅) then DG else subgraph DG nodes_set
  | None => DG
  end.

(** The nodes that the search can reach from [source] along [adj]. *)
Inductive reaches (adj : string -> list string) (source : string)
    : string -> Prop :=
  | reaches_source : reaches adj source source
  | reaches_next v w :
      reaches adj source v -> w ∈ adj v -> reaches adj source w.

(** [S] holds the predecessors of its nodes. *)
Definition predecessor_closed (G : DiGraph) (S : gset string) : Prop :=
  forall u v, (u, v) ∈ edges G -> v ∈ S -> u ∈ S.

(** The two loops of the merge as one loop over all the declarations. *)
Fixpoint merge_declarations (l : list (string * declaration))
    (operations : dict Operation) : result (dict Operation) :=
  match l with
  | [] => Ok operations
  | (cname, operation) :: l' =>
      match dict_get (decl_name operation) operations with
      | Some first =>
          Raise (ValueError (duplicate_message (decl_name operation)
                               (collection_name first) cname))
      | None =>
          merge_declarations l'
            (dict_set (decl_name operation) (Operation_init cname operation)
               operations)
      end
  end.

(** The names of a list of declarations. *)
Definition declared_names (l : list (string * declaration)) : list string :=
  map (fun cd => decl_name (snd cd)) l.

(** The dictionary after the declarations of [pre]. *)
Definition merged (pre : list (string * declaration))
    (operations : dict Operation) : Prop :=
  operations
  = map (fun cd => (decl_name (snd cd), Operation_init (fst cd) (snd cd))) pre.

(** The kinds of warnings. *)
Definition is_missing_previous_action (w : warning) : Prop :=
  match w with MissingPreviousAction _ _ _ _ => True | _ => False end.

(** ** Inputs of the examples

    The scenarios of the specification and the inputs on which the claims are
    evaluated. *)

(** An entry of a dag file that is not noop. *)
Definition entry (name : string) (depends_on : list string)
    (service action : string) (is_service : bool) : declaration :=
  {| decl_name := name; decl_depends_on := depends_on; decl_noop := false;
     decl_service := service; decl_action := action;
     decl_is_service := is_service |}.

(** A collection whose operations all have a playbook. *)
Definition collection_of (name : string) (entries : list declaration)
    : Collection :=
  {| Collection.name := name;
     Collection.dag_yamls := [Some entries];
     Collection.operations := map decl_name entries |}.

(** Scenario 1: [a_install], [a_config] that depends on it, [b_install]. *)
Definition scenario_dag : Dag :=
  from_collections
    [collection_of "c"
       [entry "a_install" [] "a" "install" true;
        entry "a_config" ["a_install"] "a" "config" true;
        entry "b_install" [] "b" "install" true]].

Definition scenario_graph : DiGraph :=
  {| nodes := ["a_config"; "a_install"; "b_install"];
     edges := [("a_install", "a_config")] |}.

(** Scenario 2: two collections declare [x_install]. *)
Definition first_collection : Collection :=
  collection_of "first" [entry "x_install" [] "x" "install" true].

Definition second_collection : Collection :=
  collection_of "second" [entry "x_install" [] "x" "install" true].

Definition duplicate_dag : Dag :=
  from_collections [first_collection; second_collection].





(** Scenario 3: [a_config] depends on an operation that no collection
    declares. *)
Definition unknown_dependency_dag : Dag :=
  from_collections
    [collection_of "c" [entry "a_config" ["missing_op"] "a" "config" true]].

(** Scenario 4: [a_install] and [b_install] depend on each other. *)
Definition cyclic_dag : Dag :=
  from_collections
    [collection_of "c"
       [entry "a_install" ["b_install"] "a" "install" true;
        entry "b_install" ["a_install"] "b" "install" true]].

Definition cyclic_operations : dict Operation :=
  [("a_install",
    Operation_init "c" (entry "a_install" ["b_install"] "a" "install" true));
   ("b_install",
    Operation_init "c" (entry "b_install" ["a_install"] "b" "install" true))].

Definition cyclic_graph : DiGraph :=
  {| nodes := ["a_install"; "b_install"];
     edges := [("b_install", "a_install"); ("a_install", "b_install")] |}.









(** ** Vocabulary of the further properties *)

(** The warnings that one turn of the loop of [validate] logs, when no
    lookup fails. *)
Definition operation_warnings (collections : dict Collection)
    (operations : dict Operation) (operation_name : string)
    (operation : Operation) : list warning :=
  fst (validate_dependencies operations operation_name operation
         (depends_on operation))
  ++ (if is_service operation
      then validate_previous_action operation_name operation
      else [])
  ++ fst (validate_playbook collections operation_name operation).

(** [services_actions] after one turn of the loop of [validate]. *)
Definition services_actions_add (services_actions : dict (gset string))
    (operation : Operation) : dict (gset string) :=
  dict_set (service operation)
    (if is_service operation
     then dict_get_default (service operation) ∅ services_actions
          ∪ {[action operation]}
     else dict_get_default (service operation) ∅ services_actions)
    services_actions.

(** Every dependency is an operation, and every operation names a collection
    of the mapping: the lookups of [validate] succeed. *)
Definition resolved (collections : dict Collection)
    (operations : dict Operation) : Prop :=
  (forall n op d, (n, op) ∈ operations -> d ∈ depends_on op ->
     d ∈ dict_keys operations) /\
  (forall n op, (n, op) ∈ operations ->
     collection_name op ∈ dict_keys collections).

(** The index of the services, when one is cached, is the index of the
    cached operations. *)
Definition index_coherent (s : Dag) : Prop :=
  match _services_operations s with
  | None => True
  | Some d =>
      exists ops,
        _operations s = Some ops /\
        d = fold_left services_operations_add (dict_values ops) []
  end.


(** ** Inputs of the further examples *)

(** A collection that breaks every rule of [validate]: [a_install] depends
    on the start action of another service and has no playbook; [b_start] is
    noop, has a playbook and does not depend on [b_config]. *)
Definition warned_declarations : list declaration :=
  [entry "a_install" ["b_start"] "a" "install" true;
   {| decl_name := "b_start"; decl_depends_on := []; decl_noop := true;
      decl_service := "b"; decl_action := "start"; decl_is_service := true |}].

Definition warned_collections : dict Collection :=
  [("c", {| Collection.name := "c";
            Collection.dag_yamls := [Some warned_declarations];
            Collection.operations := ["b_start"] |})].

Definition warned_operations : dict Operation :=
  map (fun d => (decl_name d, Operation_init "c" d)) warned_declarations.

(** A list of strings in ascending order of code points. *)
Fixpoint ascending (l : list string) : Prop :=
  match l with
  | [] => True
  | x :: l' => (forall y, y ∈ l' -> String.leb x y = true) /\ ascending l'
  end.

(** Scenario 1 with its declarations in another order. *)
Definition scenario_dag_reordered : Dag :=
  from_collections
    [collection_of "c"
       [entry "b_install" [] "b" "install" true;
        entry "a_config" ["a_install"] "a" "config" true;
        entry "a_install" [] "a" "install" true]].

(** * Lemmas and theorems *)

(** ** Lists, strings and dictionaries *)

Lemma list_contains_true x l : list_contains x l = true <-> x ∈ l.
Proof.
  unfold list_contains. rewrite existsb_exists. split.
  - intros (y & Hy & Heq). apply String.eqb_eq in Heq. subst.
    by apply list_elem_of_In.
  - intros H. exists x. split; [by apply list_elem_of_In | apply String.eqb_refl].
Qed.

Lemma list_contains_false x l : list_contains x l = false <-> x ∉ l.
Proof.
  rewrite <- list_contains_true. destruct (list_contains x l); split; congruence.
Qed.

Lemma elem_of_successors G u v : v ∈ successors G u <-> (u, v) ∈ edges G.
Proof.
  unfold successors. rewrite list_elem_of_fmap. split.
  - intros ([a b] & -> & H). apply list_elem_of_filter in H as [H1 H2].
    simpl in *. by subst.
  - intros H. exists (u, v). split; [done |]. by apply list_elem_of_filter.
Qed.

Lemma elem_of_predecessors G u v : u ∈ predecessors G v <-> (u, v) ∈ edges G.
Proof.
  unfold predecessors. rewrite list_elem_of_fmap. split.
  - intros ([a b] & -> & H). apply list_elem_of_filter in H as [H1 H2].
    simpl in *. by subst.
  - intros H. exists (u, v). split; [done |]. by apply list_elem_of_filter.
Qed.

Lemma NoDup_successors G u : NoDup (edges G) -> NoDup (successors G u).
Proof.
  intros H. unfold successors. apply NoDup_fmap_2_strong.
  - intros [a b] [c d] H1 H2 Heq. apply list_elem_of_filter in H1 as [H1 _].
    apply list_elem_of_filter in H2 as [H2 _]. simpl in *. by subst.
  - by apply NoDup_filter.
Qed.

Lemma NoDup_predecessors G v : NoDup (edges G) -> NoDup (predecessors G v).
Proof.
  intros H. unfold predecessors. apply NoDup_fmap_2_strong.
  - intros [a b] [c d] H1 H2 Heq. apply list_elem_of_filter in H1 as [H1 _].
    apply list_elem_of_filter in H2 as [H2 _]. simpl in *. by subst.
  - by apply NoDup_filter.
Qed.

(** The predecessors that remain when one more node is taken. *)
Lemma remaining_same (done : list string) (x : string) (l : list string) :
  x ∉ l ->
  filter (fun u => u ∉ done ++ [x]) l = filter (fun u => u ∉ done) l.
Proof.
  induction l as [|a l IH]; [done |]. intros Hx.
  apply not_elem_of_cons in Hx as [Hne Hx].
  rewrite !filter_cons. rewrite IH by done.
  destruct (decide (a ∉ done ++ [x])) as [H1 | H1];
    destruct (decide (a ∉ done)) as [H2 | H2]; try done.
  - destruct H2. intros Hc. apply H1. apply elem_of_app. by left.
  - destruct H1. intros Hc. apply elem_of_app in Hc as [Hc | Hc]; [done |].
    apply list_elem_of_singleton in Hc. by subst.
Qed.

Lemma remaining_less (done : list string) (x : string) (l : list string) :
  NoDup l -> x ∈ l -> x ∉ done ->
  S (length (filter (fun u => u ∉ done ++ [x]) l))
  = length (filter (fun u => u ∉ done) l).
Proof.
  induction l as [|a l IH]; intros Hnd Hx Hxd; [by apply elem_of_nil in Hx |].
  apply NoDup_cons in Hnd as [Ha Hnd].
  rewrite !filter_cons.
  destruct (decide (a = x)) as [-> | Hne].
  - rewrite remaining_same by done.
    destruct (decide (x ∉ done ++ [x])) as [H1 | H1].
    + destruct H1. apply elem_of_app. right. by apply list_elem_of_singleton.
    + destruct (decide (x ∉ done)); done.
  - apply elem_of_cons in Hx as [-> | Hx]; [done |].
    specialize (IH Hnd Hx Hxd).
    destruct (decide (a ∉ done ++ [x])) as [H1 | H1];
      destruct (decide (a ∉ done)) as [H2 | H2]; simpl; try done.
    + by rewrite IH.
    + destruct H2. intros Hc. apply H1. apply elem_of_app. by left.
    + destruct H1. intros Hc. apply elem_of_app in Hc as [Hc | Hc]; [done |].
      apply list_elem_of_singleton in Hc. by subst.
Qed.

Lemma list_filter_ext_in {A} (P1 P2 : A -> Prop)
    `{!forall x, Decision (P1 x)} `{!forall x, Decision (P2 x)} (l : list A) :
  (forall x, x ∈ l -> P1 x <-> P2 x) -> filter P1 l = filter P2 l.
Proof.
  induction l as [|a l IH]; intros Hext; [done |].
  rewrite !filter_cons. rewrite IH by (intros; apply Hext; by right).
  pose proof (Hext a ltac:(left)) as Ha.
  destruct (decide (P1 a)), (decide (P2 a)); tauto.
Qed.

(** [list_index] *)
Lemma list_index_Some x l i :
  list_index x l = Some i -> l !! i = Some x.
Proof.
  revert i. induction l as [|y l IH]; intros i; simpl; [done |].
  destruct (String.eqb x y) eqn:He.
  - apply String.eqb_eq in He as ->. by intros [= <-].
  - destruct (list_index x l) as [j|]; [| done].
    intros [= <-]. simpl. by apply IH.
Qed.

Lemma list_index_None x l : list_index x l = None <-> x ∉ l.
Proof.
  induction l as [|y l IH]; simpl.
  - split; [intros _; apply not_elem_of_nil | done].
  - destruct (String.eqb x y) eqn:He.
    + apply String.eqb_eq in He as ->. split; [done |].
      intros Hc. destruct Hc. left.
    + apply String.eqb_neq in He. rewrite not_elem_of_cons.
      destruct (list_index x l); simpl; split; try done; try tauto.
      intros [_ Hc]. by apply IH in Hc.
Qed.

Lemma list_index_app_r x l1 l2 :
  x ∉ l1 ->
  list_index x (l1 ++ l2) = (fun i => (length l1 + i)%nat) <$> list_index x l2.
Proof.
  induction l1 as [|y l1 IH]; intros Hx; simpl.
  - by destruct (list_index x l2).
  - apply not_elem_of_cons in Hx as [Hne Hx].
    apply String.eqb_neq in Hne. rewrite Hne, IH by done.
    by destruct (list_index x l2).
Qed.

Lemma list_index_app_l x l1 l2 :
  x ∈ l1 -> exists i, list_index x (l1 ++ l2) = Some i /\ (i < length l1)%nat.
Proof.
  induction l1 as [|y l1 IH]; intros Hx; [by apply elem_of_nil in Hx |].
  simpl. destruct (String.eqb x y) eqn:He.
  - exists 0%nat. split; [done | lia].
  - apply String.eqb_neq in He.
    apply elem_of_cons in Hx as [? | Hx]; [done |].
    destruct (IH Hx) as (i & -> & Hi). exists (S i). split; [done | lia].
Qed.

Lemma list_index_head x l : list_index x (x :: l) = Some 0%nat.
Proof. simpl. by rewrite String.eqb_refl. Qed.

(** An element before the first occurrence of [v]. *)
Lemma precedes_split l1 v l2 u :
  v ∉ l1 -> u ∈ l1 -> precedes (l1 ++ v :: l2) u v.
Proof.
  intros Hv Hu. destruct (list_index_app_l u l1 (v :: l2) Hu) as (i & Hi & Hlt).
  exists i, (length l1). split; [done |]. split; [| done].
  rewrite list_index_app_r, list_index_head by done. simpl. f_equal. lia.
Qed.

Lemma precedes_split_inv l1 v l2 u :
  v ∉ l1 -> precedes (l1 ++ v :: l2) u v -> u ∈ l1.
Proof.
  intros Hv (i & j & Hi & Hj & Hlt).
  rewrite list_index_app_r, list_index_head in Hj by done.
  simpl in Hj. injection Hj as <-.
  destruct (decide (u ∈ l1)) as [? | Hu]; [done |].
  rewrite list_index_app_r in Hi by done.
  destruct (list_index u (v :: l2)); simpl in Hi; [| done].
  injection Hi as <-. lia.
Qed.

(** The first element of [l] that is not in [done]. *)
Lemma first_missing (l done : list string) v :
  v ∈ l -> v ∉ done ->
  exists l1 y l2, l = l1 ++ y :: l2 /\ (y ∉ done) /\ forall u, u ∈ l1 -> u ∈ done.
Proof.
  induction l as [|a l IH]; intros Hv Hd; [by apply elem_of_nil in Hv |].
  destruct (decide (a ∈ done)) as [Ha | Ha].
  - apply elem_of_cons in Hv as [-> | Hv]; [done |].
    destruct (IH Hv Hd) as (l1 & y & l2 & -> & Hy & Hl1).
    exists (a :: l1), y, l2. repeat split; [done |].
    intros u Hu. apply elem_of_cons in Hu as [-> | Hu]; auto.
  - exists [], a, l. repeat split; [done |].
    intros u Hu. by apply elem_of_nil in Hu.
Qed.

Lemma fst_map_pair {A B} (f : A -> B) (l : list A) :
  (map (fun v => (v, f v)) l).*1 = l.
Proof. induction l as [|a l IH]; simpl; [done | by f_equal]. Qed.

Lemma remaining_nil (l : list string) : filter (fun u => u ∉ []) l = l.
Proof.
  induction l as [|a l IH]; [done |]. rewrite filter_cons, IH.
  destruct (decide (a ∉ [])) as [_ | Hc]; [done |].
  destruct Hc. apply not_elem_of_nil.
Qed.

Lemma list_filter_all {A} (P : A -> Prop) `{!forall x, Decision (P x)}
    (l : list A) :
  (forall x, x ∈ l -> P x) -> filter P l = l.
Proof.
  induction l as [|a l IH]; intros Hall; [done |].
  rewrite filter_cons, IH by (intros; apply Hall; by right).
  destruct (decide (P a)) as [_ | Hc]; [done |].
  destruct Hc. apply Hall. left.
Qed.

Section kahn_correct.
Context {Q : Type}.
Variable push : string -> Q -> result Q.
Variable pop : Q -> option (string * Q).
Variable elems : Q -> list string.
Variable Qinv : Q -> Prop.
Variable le : string -> string -> Prop.
Variable G : DiGraph.
Hypothesis G_wf : well_formed G.
Hypothesis push_elems :
  forall v q q', push v q = Ok q' -> elems q' ≡ₚ v :: elems q.
Hypothesis push_inv : forall v q q', Qinv q -> push v q = Ok q' -> Qinv q'.
Hypothesis pop_None : forall q, pop q = None -> elems q = [].
Hypothesis pop_Some :
  forall q v q', pop q = Some (v, q') -> elems q ≡ₚ v :: elems q'.
Hypothesis pop_inv : forall q v q', Qinv q -> pop q = Some (v, q') -> Qinv q'.
Hypothesis pop_least :
  forall q v q', Qinv q -> pop q = Some (v, q') ->
  forall y, y ∈ elems q -> le v y.

Lemma relax_spec cs :
  NoDup cs -> forall indeg q indeg' q',
  Qinv q -> relax push cs indeg q = Ok (indeg', q') ->
  Qinv q' /\
  (forall v, v ∉ cs -> indeg' !! v = indeg !! v) /\
  (forall v, v ∈ cs -> exists d, indeg !! v = Some d /\
     indeg' !! v = if d - 1 =? 0 then None else Some (d - 1)) /\
  elems q' ≡ₚ filter (fun v => indeg !! v = Some 1) cs ++ elems q.
Proof.
  induction cs as [|c cs IH]; intros Hnd indeg q indeg' q' HQ Hrel.
  - simpl in Hrel. injection Hrel as <- <-. repeat split; auto.
    intros v Hv. by apply elem_of_nil in Hv.
  - apply NoDup_cons in Hnd as [Hc Hnd]. simpl in Hrel.
    destruct (indeg !! c) as [d|] eqn:Hd; [| discriminate].
    destruct (d - 1 =? 0) eqn:Hz.
    + destruct (push c q) as [q1|] eqn:Hpush; [| discriminate].
      destruct (IH Hnd _ _ _ _ (push_inv _ _ _ HQ Hpush) Hrel)
        as (HQ' & Hout & Hin & Hel).
      split; [done |]. split; [| split].
      * intros v Hv. apply not_elem_of_cons in Hv as [Hne Hv].
        rewrite Hout by done. by apply lookup_delete_ne.
      * intros v Hv. apply elem_of_cons in Hv as [-> | Hv].
        -- exists d. split; [done |]. rewrite Hz, Hout by done.
           apply lookup_delete_eq.
        -- destruct (Hin v Hv) as (d' & H1 & H2). exists d'. split; [| done].
           rewrite lookup_delete_ne in H1; [done |]. by intros ->.
      * rewrite Hel, (push_elems _ _ _ Hpush). rewrite filter_cons.
        assert (d = 1) as -> by lia.
        destruct (decide (indeg !! c = Some 1)) as [_ | ?]; [| done].
        simpl. rewrite <- Permutation_middle. f_equiv. f_equiv.
        erewrite list_filter_ext_in; [done |]. intros v Hv.
        rewrite lookup_delete_ne; [done |]. by intros ->.
    + destruct (IH Hnd _ _ _ _ HQ Hrel) as (HQ' & Hout & Hin & Hel).
      split; [done |]. split; [| split].
      * intros v Hv. apply not_elem_of_cons in Hv as [Hne Hv].
        rewrite Hout by done. by apply lookup_insert_ne.
      * intros v Hv. apply elem_of_cons in Hv as [-> | Hv].
        -- exists d. split; [done |]. rewrite Hz, Hout by done.
           apply lookup_insert_eq.
        -- destruct (Hin v Hv) as (d' & H1 & H2). exists d'. split; [| done].
           rewrite lookup_insert_ne in H1; [done |]. by intros ->.
      * rewrite Hel. rewrite filter_cons.
        destruct (decide (indeg !! c = Some 1)) as [He | _].
        { rewrite Hd in He. injection He as ->. discriminate. }
        f_equiv. erewrite list_filter_ext_in; [done |]. intros v Hv.
        rewrite lookup_insert_ne; [done |]. by intros ->.
Qed.

Lemma relax_succeeds cs :
  forall indeg q,
  NoDup cs -> Qinv q ->
  (forall v, v ∈ cs -> is_Some (indeg !! v)) ->
  (forall v q, v ∈ cs -> Qinv q -> exists q', push v q = Ok q') ->
  exists r, relax push cs indeg q = Ok r.
Proof.
  induction cs as [|c cs IH]; intros indeg q Hnd HQ Hdom Hpush; simpl.
  - eauto.
  - apply NoDup_cons in Hnd as [Hc Hnd].
    destruct (Hdom c) as [d Hd]; [left |]. rewrite Hd.
    assert (forall v q, v ∈ cs -> Qinv q -> exists q', push v q = Ok q')
      as Hpush' by (intros; apply Hpush; [by right | done]).
    destruct (d - 1 =? 0).
    + destruct (Hpush c q) as [q' Hq']; [left | done |]. rewrite Hq'.
      apply IH; eauto.
      intros v Hv. rewrite lookup_delete_ne; [| by intros ->].
      apply Hdom. by right.
    + apply IH; eauto.
      intros v Hv. rewrite lookup_insert_ne; [| by intros ->].
      apply Hdom. by right.
Qed.

(** The state of the loop when the nodes of [done] have been taken. *)
Record kahn_inv (done : list string) (indeg : gmap string Z) (q : Q)
    : Prop := {
  inv_done : NoDup done;
  inv_q : NoDup (elems q);
  inv_cover : forall v,
    v ∈ nodes G <-> v ∈ done \/ v ∈ elems q \/ is_Some (indeg !! v);
  inv_done_q : forall v, v ∈ done -> v ∉ elems q;
  inv_done_map : forall v, v ∈ done -> indeg !! v = None;
  inv_q_map : forall v, v ∈ elems q -> indeg !! v = None;
  inv_count : forall v d, indeg !! v = Some d ->
    d = Z.of_nat (length (filter (fun u => u ∉ done) (predecessors G v)))
    /\ 0 < d;
  inv_q_ready : forall v, v ∈ elems q ->
    forall u, (u, v) ∈ edges G -> u ∈ done;
  inv_done_closed : forall v, v ∈ done ->
    forall u, (u, v) ∈ edges G -> u ∈ done;
  inv_Q : Qinv q
}.

Lemma kahn_inv_popped done indeg q x q1 :
  kahn_inv done indeg q -> pop q = Some (x, q1) ->
  x ∈ elems q /\ (x ∉ done) /\ (x ∉ elems q1) /\ NoDup (elems q1) /\
  indeg !! x = None /\ (forall v, v ∈ elems q1 -> v ∈ elems q).
Proof.
  intros Hinv Hpop. pose proof (pop_Some _ _ _ Hpop) as Hperm.
  assert (x ∈ elems q) as Hx by (rewrite Hperm; left).
  pose proof (inv_q _ _ _ Hinv) as Hnd. rewrite Hperm in Hnd.
  apply NoDup_cons in Hnd as [Hx1 Hnd1].
  repeat split; try done.
  - intros Hd. by apply (inv_done_q _ _ _ Hinv x).
  - by apply (inv_q_map _ _ _ Hinv).
  - intros v Hv. rewrite Hperm. by right.
Qed.

Lemma kahn_children done indeg q x q1 :
  kahn_inv done indeg q -> pop q = Some (x, q1) ->
  forall v, v ∈ successors G x -> is_Some (indeg !! v).
Proof.
  intros Hinv Hpop v Hv.
  destruct (kahn_inv_popped _ _ _ _ _ Hinv Hpop) as (Hx & Hxd & _).
  apply elem_of_successors in Hv.
  destruct (wf_ends G G_wf _ _ Hv) as [_ Hvn].
  apply (inv_cover _ _ _ Hinv) in Hvn as [Hd | [Hq | Hm]]; [| | done].
  - destruct Hxd. by apply (inv_done_closed _ _ _ Hinv v).
  - destruct Hxd. by apply (inv_q_ready _ _ _ Hinv v).
Qed.

Lemma kahn_step done indeg q x q1 indeg' q' :
  kahn_inv done indeg q -> pop q = Some (x, q1) ->
  relax push (successors G x) indeg q1 = Ok (indeg', q') ->
  kahn_inv (done ++ [x]) indeg' q'.
Proof.
  intros Hinv Hpop Hrel.
  destruct (kahn_inv_popped _ _ _ _ _ Hinv Hpop)
    as (Hx & Hxd & Hx1 & Hnd1 & Hxm & Hsub).
  pose proof (NoDup_successors G x (wf_edges G G_wf)) as Hnds.
  destruct (relax_spec _ Hnds _ _ _ _ (pop_inv _ _ _ (inv_Q _ _ _ Hinv) Hpop)
              Hrel) as (HQ' & Hout & Hin & Hel).
  assert (forall v, v ∈ elems q' <->
            (v ∈ successors G x /\ indeg !! v = Some 1) \/ v ∈ elems q1)
    as Hq'.
  { intros v. rewrite Hel, elem_of_app, list_elem_of_filter. tauto. }
  assert (forall v, v ∈ successors G x -> (v ∉ done) /\ v ∉ elems q) as Hfresh.
  { intros v Hv. destruct (Hin v Hv) as (d & Hd & _). split; intros Hc.
    - rewrite (inv_done_map _ _ _ Hinv v Hc) in Hd. discriminate.
    - rewrite (inv_q_map _ _ _ Hinv v Hc) in Hd. discriminate. }
  split.
  - apply NoDup_app. split; [apply (inv_done _ _ _ Hinv) |]. split.
    + intros v Hv Hv'. apply list_elem_of_singleton in Hv'. by subst.
    + apply NoDup_singleton.
  - rewrite Hel. apply NoDup_app. split; [by apply NoDup_filter |].
    split; [| done]. intros v Hv Hv1.
    apply list_elem_of_filter in Hv as [_ Hv].
    destruct (Hfresh v Hv) as [_ Hc]. apply Hc. by apply Hsub.
  - intros v. rewrite (inv_cover _ _ _ Hinv), Hq', elem_of_app,
      list_elem_of_singleton.
    split.
    + intros [Hd | [Hq | [d Hm]]]; [tauto | |].
      * destruct (decide (v = x)) as [-> | Hne]; [tauto |].
        right. left. right.
        pose proof (pop_Some _ _ _ Hpop) as Hperm. rewrite Hperm in Hq.
        apply elem_of_cons in Hq as [? | ?]; [done | done].
      * destruct (decide (v ∈ successors G x)) as [Hs | Hs].
        -- destruct (Hin v Hs) as (d' & Hd' & Hnew).
           rewrite Hm in Hd'. injection Hd' as <-.
           destruct (d - 1 =? 0) eqn:Hz.
           ++ right. left. left. split; [done |]. rewrite Hm. f_equal. lia.
           ++ right. right. rewrite Hnew. eauto.
        -- right. right. rewrite (Hout v Hs), Hm. eauto.
    + intros [[Hd | ->] | [[[Hs Hone] | Hq1] | [d Hm]]]; try tauto.
      * right. right. rewrite Hone. eauto.
      * right. left. by apply Hsub.
      * destruct (decide (v ∈ successors G x)) as [Hs | Hs].
        -- destruct (Hin v Hs) as (d' & Hd' & Hnew). right. right.
           rewrite Hd'. eauto.
        -- right. right. rewrite <- (Hout v Hs), Hm. eauto.
  - intros v Hv. rewrite Hq'. apply elem_of_app in Hv as [Hd | Hv].
    + intros [[Hs Hone] | Hq1].
      * by destruct (Hfresh v Hs).
      * by apply (inv_done_q _ _ _ Hinv v Hd), Hsub.
    + apply list_elem_of_singleton in Hv as ->.
      intros [[Hs Hone] | Hq1]; [| done]. rewrite Hxm in Hone. discriminate.
  - intros v Hv.
    assert (indeg !! v = None) as Hnone.
    { apply elem_of_app in Hv as [Hd | Hv].
      - by apply (inv_done_map _ _ _ Hinv).
      - apply list_elem_of_singleton in Hv as ->. done. }
    destruct (decide (v ∈ successors G x)) as [Hs | Hs].
    + destruct (Hin v Hs) as (d & Hd & _). rewrite Hnone in Hd. discriminate.
    + by rewrite (Hout v Hs).
  - intros v Hv. apply Hq' in Hv as [[Hs Hone] | Hq1].
    + destruct (Hin v Hs) as (d & Hd & Hnew). rewrite Hone in Hd.
      injection Hd as <-. by rewrite Hnew.
    + assert (indeg !! v = None) as Hnone
        by (by apply (inv_q_map _ _ _ Hinv), Hsub).
      destruct (decide (v ∈ successors G x)) as [Hs | Hs].
      * destruct (Hin v Hs) as (d & Hd & _). rewrite Hnone in Hd.
        discriminate.
      * by rewrite (Hout v Hs).
  - intros v d' Hd'.
    destruct (decide (v ∈ successors G x)) as [Hs | Hs].
    + destruct (Hin v Hs) as (d & Hd & Hnew). rewrite Hnew in Hd'.
      destruct (d - 1 =? 0) eqn:Hz; [discriminate |]. injection Hd' as <-.
      destruct (inv_count _ _ _ Hinv v d Hd) as [Hcount Hpos].
      pose proof (remaining_less done x (predecessors G v)
                    (NoDup_predecessors G v (wf_edges G G_wf))) as Hlen.
      rewrite <- Hlen in Hcount.
      * apply Z.eqb_neq in Hz. lia.
      * apply elem_of_predecessors. by apply elem_of_successors.
      * done.
    + rewrite (Hout v Hs) in Hd'.
      rewrite remaining_same.
      * by apply (inv_count _ _ _ Hinv).
      * intros Hc. apply Hs. apply elem_of_successors.
        by apply elem_of_predecessors.
  - intros v Hv u Hu. apply Hq' in Hv as [[Hs Hone] | Hq1].
    + destruct (inv_count _ _ _ Hinv v 1 Hone) as [Hcount _].
      destruct (decide (u ∈ done)) as [Hd | Hd];
        [apply elem_of_app; by left |].
      destruct (decide (u = x)) as [-> | Hne];
        [apply elem_of_app; right; by apply list_elem_of_singleton |].
      exfalso.
      pose proof (remaining_less done x (predecessors G v)
                    (NoDup_predecessors G v (wf_edges G G_wf))) as Hlen.
      assert (u ∈ filter (fun u => u ∉ done ++ [x]) (predecessors G v))
        as Hin'.
      { apply list_elem_of_filter. split; [| by apply elem_of_predecessors].
        intros Hc. apply elem_of_app in Hc as [Hc | Hc]; [done |].
        by apply list_elem_of_singleton in Hc. }
      destruct (filter (fun u => u ∉ done ++ [x]) (predecessors G v));
        [by apply elem_of_nil in Hin' |].
      rewrite <- Hlen in Hcount.
      * simpl in Hcount. lia.
      * apply elem_of_predecessors. by apply elem_of_successors.
      * done.
    + apply elem_of_app. left.
      apply (inv_q_ready _ _ _ Hinv v); [by apply Hsub | done].
  - intros v Hv u Hu. apply elem_of_app. left.
    apply elem_of_app in Hv as [Hd | Hv].
    + by apply (inv_done_closed _ _ _ Hinv v).
    + apply list_elem_of_singleton in Hv as ->.
      by apply (inv_q_ready _ _ _ Hinv x).
  - done.
Qed.

(** The container holds every node that can be taken. *)
Lemma kahn_ready_queued done indeg q y :
  kahn_inv done indeg q -> ready G done y -> y ∈ elems q.
Proof.
  intros Hinv (Hy & Hyd & Hpred).
  apply (inv_cover _ _ _ Hinv) in Hy as [? | [? | [d Hd]]]; [done | done |].
  destruct (inv_count _ _ _ Hinv y d Hd) as [Hcount Hpos].
  destruct (filter (fun u => u ∉ done) (predecessors G y)) as [|u l] eqn:Hf;
    [simpl in Hcount; lia |].
  assert (u ∈ filter (fun u => u ∉ done) (predecessors G y)) as Hu
    by (rewrite Hf; left).
  apply list_elem_of_filter in Hu as [Hu1 Hu2].
  destruct Hu1. apply Hpred. by apply elem_of_predecessors.
Qed.

Lemma kahn_inv_length done indeg q :
  kahn_inv done indeg q ->
  (length done + length (elems q) + size indeg = length (nodes G))%nat.
Proof.
  intros Hinv.
  assert (done ++ elems q ++ elements (dom indeg) ≡ₚ nodes G) as Hperm.
  { apply NoDup_Permutation.
    - apply NoDup_app. split; [apply (inv_done _ _ _ Hinv) |]. split.
      + intros v Hv Hv'. apply elem_of_app in Hv' as [Hq | Hm].
        * by apply (inv_done_q _ _ _ Hinv v).
        * apply elem_of_elements, elem_of_dom in Hm as [d Hd].
          rewrite (inv_done_map _ _ _ Hinv v Hv) in Hd. discriminate.
      + apply NoDup_app. split; [apply (inv_q _ _ _ Hinv) |]. split.
        * intros v Hv Hm. apply elem_of_elements, elem_of_dom in Hm as [d Hd].
          rewrite (inv_q_map _ _ _ Hinv v Hv) in Hd. discriminate.
        * apply NoDup_elements.
    - apply (wf_nodes G G_wf).
    - intros v. rewrite (inv_cover _ _ _ Hinv), !elem_of_app,
        elem_of_elements, elem_of_dom. tauto. }
  apply Permutation_length in Hperm. rewrite !length_app in Hperm.
  rewrite <- Hperm, <- size_dom. unfold size at 1, set_size. simpl. lia.
Qed.

Lemma kahn_inv_ready done indeg q x q1 :
  kahn_inv done indeg q -> pop q = Some (x, q1) ->
  ready G done x /\ forall y, ready G done y -> le x y.
Proof.
  intros Hinv Hpop.
  destruct (kahn_inv_popped _ _ _ _ _ Hinv Hpop) as (Hx & Hxd & _).
  split.
  - split; [| split; [done |]].
    + apply (inv_cover _ _ _ Hinv). tauto.
    + intros u Hu. by apply (inv_q_ready _ _ _ Hinv x).
  - intros y Hy. apply (pop_least _ _ _ (inv_Q _ _ _ Hinv) Hpop).
    by apply (kahn_ready_queued _ _ _ _ Hinv).
Qed.

(** What the loop returns continues [done] greedily up to all the nodes. *)
Lemma kahn_loop_sound fuel :
  forall done indeg q l,
  kahn_inv done indeg q ->
  kahn_loop push pop G fuel indeg q = Ok l ->
  greedy G le done l /\ done ++ l ≡ₚ nodes G.
Proof.
  induction fuel as [|fuel IH]; intros done indeg q l Hinv Hrun;
    simpl in Hrun; [discriminate |].
  destruct (pop q) as [[x q1]|] eqn:Hpop.
  - destruct (list_contains x (nodes G)); [| discriminate].
    destruct (relax push (successors G x) indeg q1) as [[indeg' q']|] eqn:Hrel;
      [| discriminate].
    destruct (kahn_loop push pop G fuel indeg' q') as [l'|] eqn:Hrec;
      [| discriminate].
    injection Hrun as <-.
    pose proof (kahn_step _ _ _ _ _ _ _ Hinv Hpop Hrel) as Hinv'.
    destruct (IH _ _ _ _ Hinv' Hrec) as [Hg Hperm].
    destruct (kahn_inv_ready _ _ _ _ _ Hinv Hpop) as [Hready Hleast].
    split; [by constructor |].
    by rewrite <- app_assoc in Hperm.
  - destruct (decide (indeg = ∅)) as [-> |]; [| discriminate].
    injection Hrun as <-. split; [constructor |].
    rewrite app_nil_r. apply NoDup_Permutation.
    + apply (inv_done _ _ _ Hinv).
    + apply (wf_nodes G G_wf).
    + intros v. rewrite (inv_cover _ _ _ Hinv), (pop_None _ Hpop),
        lookup_empty. split; [tauto |].
      intros [? | [Hc | [? Hc]]]; [done | by apply elem_of_nil in Hc | done].
Qed.

Hypothesis push_total :
  forall v q, v ∈ nodes G -> Qinv q -> exists q', push v q = Ok q'.

Lemma kahn_relax_succeeds done indeg q x q1 :
  kahn_inv done indeg q -> pop q = Some (x, q1) ->
  list_contains x (nodes G) = true /\
  exists r, relax push (successors G x) indeg q1 = Ok r.
Proof.
  intros Hinv Hpop.
  destruct (kahn_inv_popped _ _ _ _ _ Hinv Hpop) as (Hx & _).
  split.
  - apply list_contains_true, (inv_cover _ _ _ Hinv). tauto.
  - apply (relax_succeeds (successors G x)).
    + apply NoDup_successors, (wf_edges G G_wf).
    + apply (pop_inv _ _ _ (inv_Q _ _ _ Hinv) Hpop).
    + apply (kahn_children _ _ _ _ _ Hinv Hpop).
    + intros v q0 Hv HQ. apply push_total; [| done].
      apply elem_of_successors in Hv.
      by destruct (wf_ends G G_wf _ _ Hv).
Qed.

(** With one unit of fuel for each node that remains and one more, the
    loop ends, with a list or with [NetworkXUnfeasible]. *)
Lemma kahn_loop_total fuel :
  forall done indeg q,
  kahn_inv done indeg q ->
  (length (nodes G) < fuel + length done)%nat ->
  (exists l, kahn_loop push pop G fuel indeg q = Ok l) \/
  kahn_loop push pop G fuel indeg q = Raise NetworkXUnfeasible.
Proof.
  induction fuel as [|fuel IH]; intros done indeg q Hinv Hfuel.
  - pose proof (kahn_inv_length _ _ _ Hinv). lia.
  - simpl. destruct (pop q) as [[x q1]|] eqn:Hpop.
    + destruct (kahn_relax_succeeds _ _ _ _ _ Hinv Hpop)
        as (-> & [indeg' q'] & Hrel).
      rewrite Hrel.
      pose proof (kahn_step _ _ _ _ _ _ _ Hinv Hpop Hrel) as Hinv'.
      destruct (IH _ _ _ Hinv') as [[l Hl] | Hl];
        [rewrite length_app; simpl; lia | |]; rewrite Hl; eauto.
    + destruct (decide (indeg = ∅)); eauto.
Qed.

(** The loop gives up only on a graph without topological order. *)
Lemma kahn_loop_unfeasible fuel :
  forall done indeg q,
  kahn_inv done indeg q ->
  kahn_loop push pop G fuel indeg q = Raise NetworkXUnfeasible ->
  forall l, ~ topological_order G l.
Proof.
  induction fuel as [|fuel IH]; intros done indeg q Hinv Hrun l Htopo;
    simpl in Hrun; [discriminate |].
  destruct (pop q) as [[x q1]|] eqn:Hpop.
  - destruct (kahn_relax_succeeds _ _ _ _ _ Hinv Hpop)
      as (Hc & [indeg' q'] & Hrel).
    rewrite Hc, Hrel in Hrun.
    pose proof (kahn_step _ _ _ _ _ _ _ Hinv Hpop Hrel) as Hinv'.
    destruct (kahn_loop push pop G fuel indeg' q') as [l'|] eqn:Hrec;
      [discriminate |].
    injection Hrun as ->. by apply (IH _ _ _ Hinv' Hrec l).
  - destruct (decide (indeg = ∅)) as [| Hne]; [discriminate |].
    apply map_choose in Hne as (v & d & Hd).
    destruct Htopo as [Hperm Hord].
    assert (v ∈ l) as Hvl.
    { rewrite Hperm. apply (inv_cover _ _ _ Hinv). eauto. }
    assert (v ∉ done) as Hvd.
    { intros Hc. rewrite (inv_done_map _ _ _ Hinv v Hc) in Hd. discriminate. }
    destruct (first_missing l done v Hvl Hvd) as (l1 & y & l2 & -> & Hy & Hl1).
    assert (NoDup (l1 ++ y :: l2)) as Hnd
      by (rewrite Hperm; apply (wf_nodes G G_wf)).
    apply NoDup_app in Hnd as (_ & Hdisj & _).
    assert (y ∉ l1) as Hyl1 by (intros Hc; apply (Hdisj y Hc); left).
    assert (ready G done y) as Hready.
    { split; [| split; [done |]].
      - rewrite <- Hperm. apply elem_of_app. right. left.
      - intros u Hu. apply Hl1.
        by apply (precedes_split_inv l1 y l2 u Hyl1), Hord. }
    apply (kahn_ready_queued _ _ _ _ Hinv) in Hready.
    rewrite (pop_None _ Hpop) in Hready. by apply elem_of_nil in Hready.
Qed.

Variable empty : Q.
Hypothesis empty_elems : elems empty = [].
Hypothesis empty_inv : Qinv empty.

Lemma push_all_spec l :
  forall q q', Qinv q -> push_all push l q = Ok q' ->
  Qinv q' /\ elems q' ≡ₚ l ++ elems q.
Proof.
  induction l as [|v l IH]; intros q q' HQ Hrun; simpl in Hrun.
  - by injection Hrun as <-.
  - destruct (push v q) as [q1|] eqn:Hpush; [| discriminate].
    destruct (IH _ _ (push_inv _ _ _ HQ Hpush) Hrun) as [HQ' Hel].
    split; [done |]. rewrite Hel, (push_elems _ _ _ Hpush). simpl.
    by rewrite Permutation_middle.
Qed.

Lemma push_all_succeeds l :
  forall q, (forall v, v ∈ l -> v ∈ nodes G) -> Qinv q ->
  exists q', push_all push l q = Ok q'.
Proof.
  induction l as [|v l IH]; intros q Hl HQ; simpl; [eauto |].
  destruct (push_total v q) as [q1 Hq1]; [apply Hl; left | done |].
  rewrite Hq1. apply IH; [| by eapply push_inv].
  intros u Hu. apply Hl. by right.
Qed.

Lemma initial_indegree_map_lookup v d :
  initial_indegree_map G !! v = Some d <->
  v ∈ nodes G /\ d = in_degree G v /\ 0 < d.
Proof.
  unfold initial_indegree_map. rewrite <- elem_of_list_to_map.
  - rewrite list_elem_of_fmap. split.
    + intros (u & [= -> ->] & Hu). apply list_elem_of_filter in Hu. tauto.
    + intros (Hv & -> & Hpos). exists v. split; [done |].
      by apply list_elem_of_filter.
  - rewrite fst_map_pair. apply NoDup_filter, (wf_nodes G G_wf).
Qed.

Lemma kahn_inv_init q0 :
  push_all push (initial_zero_indegree G) empty = Ok q0 ->
  kahn_inv [] (initial_indegree_map G) q0.
Proof.
  intros Hpush.
  destruct (push_all_spec _ _ _ empty_inv Hpush) as [HQ Hel].
  rewrite empty_elems, app_nil_r in Hel.
  assert (forall v, v ∈ elems q0 <-> v ∈ nodes G /\ in_degree G v = 0) as Hq0.
  { intros v. rewrite Hel. unfold initial_zero_indegree.
    rewrite list_elem_of_filter. tauto. }
  split.
  - apply NoDup_nil_2.
  - rewrite Hel. apply NoDup_filter, (wf_nodes G G_wf).
  - intros v. rewrite Hq0. split.
    + intros Hv. right.
      destruct (decide (in_degree G v = 0)) as [Hz | Hz]; [tauto |].
      right. exists (in_degree G v). apply initial_indegree_map_lookup.
      unfold in_degree in *. repeat split; [done | lia].
    + intros [Hc | [[? _] | [d Hd]]]; [by apply elem_of_nil in Hc | done |].
      by apply initial_indegree_map_lookup in Hd as [? _].
  - intros v Hc. by apply elem_of_nil in Hc.
  - intros v Hc. by apply elem_of_nil in Hc.
  - intros v Hv. apply Hq0 in Hv as [Hv Hz].
    destruct (initial_indegree_map G !! v) as [d|] eqn:Hd; [| done].
    apply initial_indegree_map_lookup in Hd as (_ & -> & Hpos). lia.
  - intros v d Hd. apply initial_indegree_map_lookup in Hd as (_ & -> & Hpos).
    split; [| done]. unfold in_degree. by rewrite remaining_nil.
  - intros v Hv u Hu. apply Hq0 in Hv as [_ Hz].
    apply elem_of_predecessors in Hu. unfold in_degree in Hz.
    destruct (predecessors G v); [by apply elem_of_nil in Hu |].
    simpl in Hz. lia.
  - intros v Hc. by apply elem_of_nil in Hc.
  - done.
Qed.

Lemma kahn_sound l :
  kahn push pop G empty = Ok l -> greedy G le [] l /\ l ≡ₚ nodes G.
Proof.
  unfold kahn.
  destruct (push_all push (initial_zero_indegree G) empty) as [q0|] eqn:Hpush;
    [| discriminate].
  intros Hrun.
  by apply (kahn_loop_sound _ _ _ _ _ (kahn_inv_init _ Hpush)) in Hrun.
Qed.

Lemma kahn_total :
  (exists l, kahn push pop G empty = Ok l) \/
  kahn push pop G empty = Raise NetworkXUnfeasible.
Proof.
  unfold kahn.
  destruct (push_all_succeeds (initial_zero_indegree G) empty) as [q0 Hq0];
    [| done |].
  { intros v Hv. unfold initial_zero_indegree in Hv.
    by apply list_elem_of_filter in Hv as [_ ?]. }
  rewrite Hq0. apply (kahn_loop_total _ _ _ _ (kahn_inv_init _ Hq0)).
  simpl. lia.
Qed.

Lemma kahn_unfeasible :
  kahn push pop G empty = Raise NetworkXUnfeasible ->
  forall l, ~ topological_order G l.
Proof.
  unfold kahn.
  destruct (push_all_succeeds (initial_zero_indegree G) empty) as [q0 Hq0];
    [| done |].
  { intros v Hv. unfold initial_zero_indegree in Hv.
    by apply list_elem_of_filter in Hv as [_ ?]. }
  rewrite Hq0. apply (kahn_loop_unfeasible _ _ _ _ (kahn_inv_init _ Hq0)).
Qed.

Lemma kahn_complete l0 :
  topological_order G l0 -> exists l, kahn push pop G empty = Ok l.
Proof.
  intros Htopo. destruct kahn_total as [? | Hun]; [done |].
  by destruct (kahn_unfeasible Hun l0).
Qed.
End kahn_correct.

(** ** Greedy runs and topological orders *)

Lemma greedy_split G le done l1 v l2 :
  greedy G le done (l1 ++ v :: l2) ->
  ready G (done ++ l1) v /\ forall y, ready G (done ++ l1) y -> le v y.
Proof.
  revert done. induction l1 as [|a l1 IH]; intros done Hg; simpl in Hg.
  - inversion Hg; subst. by rewrite app_nil_r.
  - inversion Hg as [| ? ? ? _ _ Hg']; subst.
    apply IH in Hg'. by rewrite <- app_assoc in Hg'.
Qed.

Lemma greedy_topological G le l :
  well_formed G -> greedy G le [] l -> l ≡ₚ nodes G -> topological_order G l.
Proof.
  intros Hwf Hg Hperm. split; [done |]. intros u v Huv.
  destruct (wf_ends G Hwf u v Huv) as [_ Hv]. rewrite <- Hperm in Hv.
  apply list_elem_of_split in Hv as (l1 & l2 & ->).
  destruct (greedy_split _ _ _ _ _ _ Hg) as [(_ & Hv1 & Hpred) _].
  simpl in *. apply precedes_split; [done |]. by apply Hpred.
Qed.

Lemma precedes_trans l u v w : precedes l u v -> precedes l v w -> precedes l u w.
Proof.
  intros (i & j & Hi & Hj & Hij) (j' & k & Hj' & Hk & Hjk).
  rewrite Hj in Hj'. injection Hj' as <-. exists i, k. repeat split; [done.. | lia].
Qed.

Lemma precedes_irrefl l v : ~ precedes l v v.
Proof. intros (i & j & Hi & Hj & Hij). rewrite Hi in Hj. injection Hj as <-. lia. Qed.

Lemma path_precedes G l u v :
  topological_order G l -> path G u v -> precedes l u v.
Proof.
  intros [_ Hord]. induction 1 as [u v Huv | u v w Huv _ IH]; [by apply Hord |].
  eapply precedes_trans; [by apply Hord | done].
Qed.

(** A graph that has a topological order has no cycle. *)
Lemma topological_order_acyclic G l : topological_order G l -> ~ cyclic G.
Proof.
  intros Htopo [v Hv]. by apply (precedes_irrefl l v), (path_precedes G).
Qed.

(** ** The order of the strings *)

Lemma string_compare_OT a b : String_as_OT.compare a b = String.compare a b.
Proof. revert b. induction a; destruct b; simpl; auto. Qed.

Lemma string_leb_refl a : String.leb a a = true.
Proof.
  unfold String.leb. rewrite <- string_compare_OT.
  destruct (String_as_OT.compare_spec a a) as [_ | H | H]; [done | |];
    by apply (StrictOrder_Irreflexive a) in H.
Qed.

Lemma string_leb_iff a b :
  String.leb a b = true <-> a = b \/ String_as_OT.lt a b.
Proof.
  unfold String.leb. rewrite <- string_compare_OT.
  destruct (String_as_OT.compare_spec a b) as [H | H | H].
  - tauto.
  - tauto.
  - split; [done |]. intros [-> | H'].
    + by apply (StrictOrder_Irreflexive b) in H.
    + exfalso. apply (StrictOrder_Irreflexive a). by etransitivity.
Qed.

Lemma string_ltb_iff a b : String.ltb a b = true <-> String_as_OT.lt a b.
Proof.
  unfold String.ltb, String_as_OT.lt. rewrite <- string_compare_OT.
  destruct (String_as_OT.compare a b); split; congruence.
Qed.

Lemma string_leb_trans a b c :
  String.leb a b = true -> String.leb b c = true -> String.leb a c = true.
Proof.
  rewrite !string_leb_iff. intros [-> | H1] [-> | H2]; auto.
  right. by etransitivity.
Qed.

Lemma string_ltb_leb a b : String.ltb a b = true -> String.leb a b = true.
Proof. rewrite string_ltb_iff, string_leb_iff. auto. Qed.

Lemma string_ltb_false a b : String.ltb a b = false -> String.leb b a = true.
Proof.
  intros H. apply string_leb_iff.
  destruct (String_as_OT.compare_spec a b) as [H' | H' | H']; [by left | | by right].
  apply string_ltb_iff in H'. congruence.
Qed.

(** ** The two containers *)

Lemma heap_min_spec e h :
  heap_min e h ∈ e :: h /\
  forall e', e' ∈ e :: h -> String.leb (fst (heap_min e h)) (fst e') = true.
Proof.
  revert e. induction h as [|a h IH]; intros e; simpl.
  - split; [left |]. intros e' He'. apply list_elem_of_singleton in He' as ->.
    apply string_leb_refl.
  - destruct (String.ltb (fst a) (fst e)) eqn:Hlt.
    + destruct (IH a) as [Hin Hle]. split.
      * by right.
      * intros e' He'. apply elem_of_cons in He' as [-> | He']; [| by apply Hle].
        eapply string_leb_trans; [apply Hle; left |]. by apply string_ltb_leb.
    + destruct (IH e) as [Hin Hle]. split.
      * apply elem_of_cons in Hin as [-> | Hin]; [left | right; by right].
      * intros e' He'. apply elem_of_cons in He' as [-> | He'];
          [apply Hle; left |].
        apply elem_of_cons in He' as [-> | He']; [| apply Hle; by right].
        eapply string_leb_trans; [apply Hle; left |]. by apply string_ltb_false.
Qed.

Lemma heap_remove_spec x h :
  x ∈ map snd h ->
  map snd h ≡ₚ x :: map snd (heap_remove x h) /\
  forall e, e ∈ heap_remove x h -> e ∈ h.
Proof.
  induction h as [|a h IH]; intros Hx; simpl in *; [by apply elem_of_nil in Hx |].
  destruct (String.eqb (snd a) x) eqn:He.
  - apply String.eqb_eq in He as <-. split; [done |]. intros e He. by right.
  - apply String.eqb_neq in He.
    apply elem_of_cons in Hx as [? | Hx]; [done |].
    destruct (IH Hx) as [Hperm Hsub]. split.
    + simpl. rewrite Hperm. apply perm_swap.
    + intros e Hin. apply elem_of_cons in Hin as [-> | Hin]; [left | right; auto].
Qed.

Lemma heappush_elems key v h h' :
  heappush key v h = Ok h' -> heap_elems h' ≡ₚ v :: heap_elems h.
Proof.
  unfold heappush. destruct (key v); [| done]. by intros [= <-].
Qed.

Lemma heappush_inv key v h h' :
  heap_inv key h -> heappush key v h = Ok h' -> heap_inv key h'.
Proof.
  unfold heappush. destruct (key v) as [k|] eqn:Hk; [| done].
  intros Hinv [= <-] k' v' Hin.
  apply elem_of_cons in Hin as [[= -> ->] | Hin]; [done | by apply Hinv].
Qed.

Lemma heappop_None h : heappop h = None -> heap_elems h = [].
Proof. by destruct h. Qed.

Lemma heappop_Some h v h' :
  heappop h = Some (v, h') -> heap_elems h ≡ₚ v :: heap_elems h'.
Proof.
  destruct h as [|e h]; [done |]. unfold heappop. intros [= <- <-].
  apply heap_remove_spec. apply list_elem_of_fmap.
  exists (heap_min e h). split; [done | apply heap_min_spec].
Qed.

Lemma heappop_inv key h v h' :
  heap_inv key h -> heappop h = Some (v, h') -> heap_inv key h'.
Proof.
  destruct h as [|e h]; [done |]. unfold heappop. intros Hinv [= <- <-].
  intros k v Hin. apply Hinv.
  eapply heap_remove_spec; [| done]. apply list_elem_of_fmap.
  exists (heap_min e h). split; [done | apply heap_min_spec].
Qed.

Lemma heappop_least key h v h' :
  heap_inv key h -> heappop h = Some (v, h') ->
  forall y, y ∈ heap_elems h -> key_le key v y.
Proof.
  destruct h as [|e h]; [done |]. unfold heappop. intros Hinv [= <- <-].
  intros y Hy. apply list_elem_of_fmap in Hy as ([ky y'] & -> & Hy).
  destruct (heap_min_spec e h) as [Hin Hle].
  destruct (heap_min e h) as [km m] eqn:Hm. simpl.
  exists km, ky. split; [by apply Hinv |]. split; [by apply Hinv |].
  by apply (Hle (ky, y')).
Qed.

Lemma heappush_total key G v h :
  (forall v, v ∈ nodes G -> exists k, key v = Ok k) ->
  v ∈ nodes G -> heap_inv key h -> exists h', heappush key v h = Ok h'.
Proof.
  intros Hkey Hv _. destruct (Hkey v Hv) as [k Hk].
  unfold heappush. rewrite Hk. eauto.
Qed.

Lemma fifo_push_elems v (q q' : list string) :
  fifo_push v q = Ok q' -> q' ≡ₚ v :: q.
Proof. intros [= <-]. by rewrite Permutation_app_comm. Qed.

Lemma fifo_pop_Some (q : list string) v q' :
  fifo_pop q = Some (v, q') -> q ≡ₚ v :: q'.
Proof. destruct q; [done |]. by intros [= <- <-]. Qed.

Lemma fifo_pop_None (q : list string) : fifo_pop q = None -> q = [].
Proof. by destruct q. Qed.

(** ** [is_directed_acyclic_graph] and [lexicographical_topological_sort] *)

Lemma is_directed_acyclic_graph_cases G :
  well_formed G ->
  (is_directed_acyclic_graph G = Ok true /\ exists l, topological_order G l) \/
  (is_directed_acyclic_graph G = Ok false /\ forall l, ~ topological_order G l).
Proof.
  intros Hwf. unfold is_directed_acyclic_graph.
  pose proof (kahn_total fifo_push fifo_pop id (fun _ => True) G Hwf
                fifo_push_elems (fun _ _ _ _ _ => I)
                fifo_pop_Some (fun _ _ _ _ _ => I)
                (fun v q _ _ => ex_intro _ _ eq_refl) [] eq_refl I)
    as [[l Hl] | Hun].
  - left. rewrite Hl. split; [done |]. exists l.
    apply (kahn_sound fifo_push fifo_pop id (fun _ => True) (fun _ _ => True)
             G Hwf fifo_push_elems (fun _ _ _ _ _ => I) fifo_pop_None
             fifo_pop_Some (fun _ _ _ _ _ => I) (fun _ _ _ _ _ _ _ => I)
             [] eq_refl I) in Hl as [Hg Hperm].
    by apply (greedy_topological G (fun _ _ => True)).
  - right. rewrite Hun. split; [done |].
    apply (kahn_unfeasible fifo_push fifo_pop id (fun _ => True) G Hwf
             fifo_push_elems (fun _ _ _ _ _ => I) fifo_pop_None
             fifo_pop_Some (fun _ _ _ _ _ => I)
             (fun v q _ _ => ex_intro _ _ eq_refl) [] eq_refl I Hun).
Qed.

Lemma is_directed_acyclic_graph_cyclic G :
  well_formed G -> cyclic G -> is_directed_acyclic_graph G = Ok false.
Proof.
  intros Hwf Hcyc.
  destruct (is_directed_acyclic_graph_cases G Hwf) as [[_ [l Hl]] | [? _]];
    [| done].
  by destruct (topological_order_acyclic G l Hl).
Qed.

Lemma lexicographical_topological_sort_spec G key :
  well_formed G ->
  (forall v, v ∈ nodes G -> exists k, key v = Ok k) ->
  is_directed_acyclic_graph G = Ok true ->
  exists l, lexicographical_topological_sort G key = Ok l /\
    greedy G (key_le key) [] l /\ l ≡ₚ nodes G.
Proof.
  intros Hwf Hkey Hdag.
  destruct (is_directed_acyclic_graph_cases G Hwf) as [[_ [l0 Hl0]] | [Hc _]];
    [| congruence].
  unfold lexicographical_topological_sort.
  destruct (kahn_complete (heappush key) heappop heap_elems (heap_inv key) G
              Hwf (heappush_elems key) (heappush_inv key) heappop_None
              heappop_Some (heappop_inv key)
              (fun v q Hv HQ => heappush_total key G v q Hkey Hv HQ)
              [] eq_refl ltac:(intros ? ? Hc; by apply elem_of_nil in Hc)
              l0 Hl0) as [l Hl].
  exists l. split; [done |].
  by apply (kahn_sound (heappush key) heappop heap_elems (heap_inv key)
              (key_le key) G Hwf (heappush_elems key) (heappush_inv key)
              heappop_None heappop_Some (heappop_inv key) (heappop_least key)
              [] eq_refl ltac:(intros ? ? Hc; by apply elem_of_nil in Hc)).
Qed.

(** ** Dictionaries *)

Lemma dict_get_Some_elem {V} k (v : V) d : dict_get k d = Some v -> (k, v) ∈ d.
Proof.
  induction d as [|[k' v'] d IH]; simpl; [done |].
  destruct (String.eqb k k') eqn:He.
  - apply String.eqb_eq in He as ->. intros [= ->]. left.
  - intros H. right. by apply IH.
Qed.

Lemma dict_get_is_Some {V} k (d : dict V) :
  is_Some (dict_get k d) <-> k ∈ dict_keys d.
Proof.
  induction d as [|[k' v'] d IH]; simpl.
  - split; [by intros [? ?] | intros H; by apply elem_of_nil in H].
  - destruct (String.eqb k k') eqn:He.
    + apply String.eqb_eq in He as ->. split; [intros _; left | eauto].
    + apply String.eqb_neq in He. rewrite IH, elem_of_cons. simpl. tauto.
Qed.

Lemma dict_contains_true {V} k (d : dict V) :
  dict_contains k d = true <-> k ∈ dict_keys d.
Proof.
  rewrite <- dict_get_is_Some. unfold dict_contains.
  destruct (dict_get k d); split; try done; eauto.
Qed.

Lemma dict_get_NoDup {V} k (v : V) d :
  NoDup (dict_keys d) -> (k, v) ∈ d -> dict_get k d = Some v.
Proof.
  induction d as [|[k' v'] d IH]; simpl; intros Hnd Hin;
    [by apply elem_of_nil in Hin |].
  apply NoDup_cons in Hnd as [Hk Hnd].
  apply elem_of_cons in Hin as [[= -> ->] | Hin].
  - by rewrite String.eqb_refl.
  - destruct (String.eqb k k') eqn:He; [| by apply IH].
    apply String.eqb_eq in He as ->. destruct Hk.
    apply list_elem_of_fmap. by exists (k', v).
Qed.

(** ** [sorted] *)

Lemma insert_sorted_perm x l : insert_sorted x l ≡ₚ x :: l.
Proof.
  induction l as [|y l IH]; simpl; [done |].
  destruct (String.leb x y); [done |]. rewrite IH. apply perm_swap.
Qed.

Lemma sorted_perm l : sorted l ≡ₚ l.
Proof.
  induction l as [|x l IH]; simpl; [done |].
  unfold sorted in *. simpl. by rewrite insert_sorted_perm, IH.
Qed.

(** ** The graph that [build_graph] makes *)

Lemma add_node_nodes n G v : v ∈ nodes (add_node n G) <-> v ∈ nodes G \/ v = n.
Proof.
  unfold add_node. destruct (list_contains n (nodes G)) eqn:Hc; simpl.
  - apply list_contains_true in Hc. split; [tauto |]. by intros [? | ->].
  - by rewrite elem_of_app, list_elem_of_singleton.
Qed.

Lemma add_node_edges n G : edges (add_node n G) = edges G.
Proof. unfold add_node. by destruct (list_contains n (nodes G)). Qed.

Lemma add_node_well_formed n G : well_formed G -> well_formed (add_node n G).
Proof.
  intros [Hn He Hends]. split.
  - unfold add_node. destruct (list_contains n (nodes G)) eqn:Hc; [done |].
    simpl. apply list_contains_false in Hc. apply NoDup_app.
    split; [done |]. split; [| apply NoDup_singleton].
    intros v Hv Hv'. apply list_elem_of_singleton in Hv'. by subst.
  - by rewrite add_node_edges.
  - intros u v. rewrite add_node_edges, !add_node_nodes. intros H.
    apply Hends in H. tauto.
Qed.

Lemma add_nodes_from_spec l : forall G,
  well_formed G ->
  well_formed (add_nodes_from l G) /\
  edges (add_nodes_from l G) = edges G /\
  forall v, v ∈ nodes (add_nodes_from l G) <-> v ∈ nodes G \/ v ∈ l.
Proof.
  induction l as [|n l IH]; intros G Hwf; simpl.
  - split; [done |]. split; [done |]. intros v. split; [tauto |].
    intros [? | H]; [done | by apply elem_of_nil in H].
  - destruct (IH (add_node n G) (add_node_well_formed n G Hwf))
      as (Hwf' & He & Hn).
    split; [done |]. split; [by rewrite He, add_node_edges |].
    intros v. rewrite Hn, add_node_nodes, elem_of_cons. tauto.
Qed.

Lemma has_edge_true u v G : has_edge u v G = true <-> (u, v) ∈ edges G.
Proof.
  unfold has_edge. rewrite existsb_exists. split.
  - intros ([a b] & Hin & He). apply andb_true_iff in He as [H1 H2].
    apply String.eqb_eq in H1, H2. simpl in *. subst. by apply list_elem_of_In.
  - intros H. exists (u, v). split; [by apply list_elem_of_In |].
    simpl. by rewrite !String.eqb_refl.
Qed.

Lemma add_edge_spec u v G :
  well_formed G ->
  well_formed (add_edge u v G) /\
  (forall w, w ∈ nodes (add_edge u v G) <-> w ∈ nodes G \/ w = u \/ w = v) /\
  (forall a b, (a, b) ∈ edges (add_edge u v G) <->
     (a, b) ∈ edges G \/ (a = u /\ b = v)).
Proof.
  intros Hwf.
  pose proof (add_node_well_formed v _ (add_node_well_formed u G Hwf)) as Hwf'.
  unfold add_edge.
  destruct (has_edge u v (add_node v (add_node u G))) eqn:Hh.
  - apply has_edge_true in Hh. rewrite !add_node_edges in Hh.
    split; [done |]. split.
    + intros w. rewrite !add_node_nodes. tauto.
    + intros a b. rewrite !add_node_edges. split; [tauto |].
      by intros [? | [-> ->]].
  - assert ((u, v) ∉ edges (add_node v (add_node u G))) as Hh'.
    { intros Hc. apply has_edge_true in Hc. congruence. }
    destruct Hwf' as [Hn He Hends]. split; [split |]; simpl.
    + done.
    + apply NoDup_app. split; [done |]. split; [| apply NoDup_singleton].
      intros e He1 He2. apply list_elem_of_singleton in He2. by subst.
    + intros a b Hab. apply elem_of_app in Hab as [Hab | Hab]; [by apply Hends |].
      apply list_elem_of_singleton in Hab as [= -> ->].
      rewrite !add_node_nodes. tauto.
    + split.
      * intros w. rewrite !add_node_nodes. tauto.
      * intros a b. rewrite elem_of_app, list_elem_of_singleton, !add_node_edges.
        split; intros [? | H]; try tauto; [injection H; tauto | right].
        destruct H as [-> ->]. done.
Qed.

Lemma add_dependencies_spec operations operation_name dependencies :
  forall DG DG',
  well_formed DG ->
  add_dependencies operations operation_name dependencies DG = Ok DG' ->
  well_formed DG' /\
  (forall w, w ∈ nodes DG' -> w ∈ nodes DG \/ w = operation_name \/
     w ∈ dict_keys operations) /\
  (forall w, w ∈ nodes DG -> w ∈ nodes DG') /\
  (forall a b, (a, b) ∈ edges DG' <->
     (a, b) ∈ edges DG \/ (a ∈ dependencies /\ b = operation_name)).
Proof.
  induction dependencies as [|d ds IH]; intros DG DG' Hwf Hrun; simpl in Hrun.
  - injection Hrun as <-. split; [done |]. split; [tauto |].
    split; [done |]. intros a b. split; [tauto |].
    intros [? | [H _]]; [done | by apply elem_of_nil in H].
  - destruct (dict_contains d operations) eqn:Hd; [| discriminate].
    apply dict_contains_true in Hd.
    destruct (add_edge_spec d operation_name DG Hwf) as (Hwf1 & Hn1 & He1).
    destruct (IH _ _ Hwf1 Hrun) as (Hwf' & Hn & Hn' & He).
    split; [done |]. split; [| split].
    + intros w Hw. apply Hn in Hw as [Hw | Hw]; [| tauto].
      apply Hn1 in Hw as [? | [-> | ->]]; tauto.
    + intros w Hw. apply Hn', Hn1. tauto.
    + intros a b. rewrite He, He1, elem_of_cons. split.
      * intros [[? | [-> ->]] | [? ->]]; tauto.
      * intros [? | [[-> | ?] ->]]; tauto.
Qed.

Lemma add_operations_spec operations operation_names :
  forall DG DG',
  well_formed DG ->
  add_operations operations operation_names DG = Ok DG' ->
  well_formed DG' /\
  (forall w, w ∈ nodes DG' -> w ∈ nodes DG \/ w ∈ operation_names \/
     w ∈ dict_keys operations) /\
  (forall w, w ∈ nodes DG -> w ∈ nodes DG') /\
  (forall a b, (a, b) ∈ edges DG' <->
     (a, b) ∈ edges DG \/
     (b ∈ operation_names /\ exists operation,
        dict_get b operations = Some operation /\ a ∈ depends_on operation)).
Proof.
  induction operation_names as [|n ns IH]; intros DG DG' Hwf Hrun;
    simpl in Hrun.
  - injection Hrun as <-. split; [done |]. split; [tauto |].
    split; [done |]. intros a b. split; [tauto |].
    intros [? | [H _]]; [done | by apply elem_of_nil in H].
  - destruct (dict_get n operations) as [operation|] eqn:Hn; [| discriminate].
    destruct (add_dependencies operations n (sorted (depends_on operation)) DG)
      as [DG1|] eqn:Hdeps; [| discriminate].
    destruct (add_dependencies_spec _ _ _ _ _ Hwf Hdeps)
      as (Hwf1 & Hn1 & Hn1' & He1).
    destruct (IH _ _ Hwf1 Hrun) as (Hwf' & Hn2 & Hn2' & He2).
    split; [done |]. split; [| split].
    + intros w Hw. rewrite elem_of_cons.
      apply Hn2 in Hw as [Hw | Hw]; [| tauto].
      apply Hn1 in Hw. tauto.
    + auto.
    + intros a b. rewrite He2, He1, sorted_perm, elem_of_cons. split.
      * intros [[? | [? ->]] | [? ?]]; [tauto | | tauto].
        right. split; [by left | eauto].
      * intros [? | [[-> | ?] (op & Hop & Ha)]]; [tauto | | eauto].
        rewrite Hn in Hop. injection Hop as <-. tauto.
Qed.

Lemma empty_graph_well_formed : well_formed empty_graph.
Proof.
  split; simpl; [apply NoDup_nil_2 | apply NoDup_nil_2 |].
  intros u v H. by apply elem_of_nil in H.
Qed.

(** The nodes are the names of the operations, the edges their
    dependencies. *)
Lemma build_graph_spec operations DG :
  build_graph operations = Ok DG ->
  well_formed DG /\
  (forall v, v ∈ nodes DG <-> v ∈ dict_keys operations) /\
  (forall a b, (a, b) ∈ edges DG <->
     exists operation,
       dict_get b operations = Some operation /\ a ∈ depends_on operation).
Proof.
  unfold build_graph. intros Hrun.
  destruct (add_nodes_from_spec (sorted (dict_keys operations)) empty_graph
              empty_graph_well_formed) as (Hwf0 & He0 & Hn0).
  destruct (add_operations_spec _ _ _ _ Hwf0 Hrun) as (Hwf & Hn & Hn' & He).
  split; [done |]. split.
  - intros v. split.
    + intros Hv. apply Hn in Hv as [Hv | [Hv | Hv]]; [| | done].
      * apply Hn0 in Hv as [Hv | Hv]; [by apply elem_of_nil in Hv |].
        by rewrite sorted_perm in Hv.
      * by rewrite sorted_perm in Hv.
    + intros Hv. apply Hn', Hn0. right. by rewrite sorted_perm.
  - intros a b. rewrite He, He0. simpl. split.
    + intros [H | [_ H]]; [by apply elem_of_nil in H | done].
    + intros (op & Hop & Ha). right. split; [| eauto].
      rewrite sorted_perm. apply dict_get_is_Some. eauto.
Qed.

(** ** The keys of [custom_key] *)

Lemma service_priority_range s :
  In (dict_get_default s DEFAULT_SERVICE_PRIORITY SERVICE_PRIORITY) priorities.
Proof.
  unfold dict_get_default, SERVICE_PRIORITY, DEFAULT_SERVICE_PRIORITY, priorities.
  simpl.
  repeat (match goal with
          | |- context [String.eqb s ?x] => destruct (String.eqb s x)
          end; [simpl; tauto |]).
  simpl. tauto.
Qed.

Lemma format_02d_priority p :
  In p priorities -> exists a b, format_02d p = String a (String b EmptyString).
Proof.
  unfold priorities. simpl.
  intros H. repeat (destruct H as [<- | H]; [vm_compute; eauto |]). done.
Qed.

Lemma format_02d_lt p q s t :
  In p priorities -> In q priorities -> p < q ->
  String.ltb (format_02d p +:+ "_" +:+ s) (format_02d q +:+ "_" +:+ t) = true.
Proof.
  unfold priorities. simpl. intros Hp Hq Hlt.
  repeat (destruct Hp as [<- | Hp]; [
    repeat (destruct Hq as [<- | Hq]; [first [lia | reflexivity] |]); done |]).
  done.
Qed.

Lemma custom_key_Some operations node :
  node ∈ dict_keys operations -> exists k, custom_key operations node = Ok k.
Proof.
  intros H. apply dict_get_is_Some in H as [op Hop].
  unfold custom_key. rewrite Hop. eauto.
Qed.

Lemma custom_key_service_priority operations node k :
  custom_key operations node = Ok k ->
  k = format_02d (service_priority operations node) +:+ "_" +:+ node.
Proof.
  unfold custom_key, service_priority.
  destruct (dict_get node operations); [| done]. by intros [= <-].
Qed.

Lemma service_priority_In operations node :
  In (service_priority operations node) priorities.
Proof.
  unfold service_priority. destruct (dict_get node operations).
  - apply service_priority_range.
  - unfold priorities, DEFAULT_SERVICE_PRIORITY. simpl. tauto.
Qed.

(** Distinct nodes have distinct keys. *)
Lemma custom_key_inj operations u v k :
  custom_key operations u = Ok k -> custom_key operations v = Ok k -> u = v.
Proof.
  intros Hu Hv.
  apply custom_key_service_priority in Hu, Hv.
  destruct (format_02d_priority _ (service_priority_In operations u))
    as (a & b & Ha).
  destruct (format_02d_priority _ (service_priority_In operations v))
    as (a' & b' & Ha').
  rewrite Ha in Hu. rewrite Ha' in Hv. rewrite Hu in Hv. simpl in Hv.
  by injection Hv.
Qed.

(** A smaller priority gives a smaller key, whatever the names. *)
Lemma custom_key_lt operations u v ku kv :
  custom_key operations u = Ok ku -> custom_key operations v = Ok kv ->
  service_priority operations u < service_priority operations v ->
  String.ltb ku kv = true.
Proof.
  intros Hu Hv Hlt.
  apply custom_key_service_priority in Hu as ->.
  apply custom_key_service_priority in Hv as ->.
  apply format_02d_lt; [apply service_priority_In.. | done].
Qed.

Lemma key_le_antisym operations x y :
  key_le (custom_key operations) x y -> key_le (custom_key operations) y x ->
  x = y.
Proof.
  intros (kx & ky & Hx & Hy & Hle) (ky' & kx' & Hy' & Hx' & Hle').
  rewrite Hx in Hx'. injection Hx' as <-.
  rewrite Hy in Hy'. injection Hy' as <-.
  pose proof (String.leb_antisym _ _ Hle Hle') as ->.
  by apply (custom_key_inj operations x y ky).
Qed.

(** ** Running the methods *)

#[global] Arguments operations : simpl never.
#[global] Arguments graph : simpl never.
#[global] Arguments services_operations : simpl never.
#[global] Arguments services : simpl never.
#[global] Arguments topological_sort : simpl never.
#[global] Arguments get_all_operations : simpl never.
#[global] Arguments update_closure : simpl never.

Lemma outcome_eta {A} (o : outcome A) :
  {| value := value o; state := state o; log := log o |} = o.
Proof. by destruct o. Qed.

Lemma run_bind {A B} (m : M A) (f : A -> M B) s :
  (m ≫= f) s =
  match value (m s) with
  | Raise e => {| value := Raise e; state := state (m s); log := log (m s) |}
  | Ok a =>
      {| value := value (f a (state (m s)));
         state := state (f a (state (m s)));
         log := log (m s) ++ log (f a (state (m s))) |}
  end.
Proof. reflexivity. Qed.

(** A step that returns without logging. *)
Lemma run_bind_pure {A B} (m : M A) (f : A -> M B) s a s' :
  m s = {| value := Ok a; state := s'; log := [] |} ->
  (m ≫= f) s = f a s'.
Proof. intros H. rewrite run_bind, H. simpl. apply outcome_eta. Qed.

Lemma run_bind_raise {A B} (m : M A) (f : A -> M B) s e s' l :
  m s = {| value := Raise e; state := s'; log := l |} ->
  (m ≫= f) s = {| value := Raise e; state := s'; log := l |}.
Proof. intros H. by rewrite run_bind, H. Qed.

Lemma run_get {B} (f : Dag -> M B) s : (get ≫= f) s = f s s.
Proof. by apply run_bind_pure. Qed.

Lemma run_ret {A B} (a : A) (f : A -> M B) s : (ret a ≫= f) s = f a s.
Proof. by apply run_bind_pure. Qed.

Lemma run_modify {B} (g : Dag -> Dag) (f : unit -> M B) s :
  (modify g ≫= f) s = f tt (g s).
Proof. by apply run_bind_pure. Qed.

Lemma run_lift_Ok {A B} (a : A) (f : A -> M B) s : (lift (Ok a) ≫= f) s = f a s.
Proof. by apply run_bind_pure. Qed.

Lemma run_lift_Raise {A B} e (f : A -> M B) s :
  (lift (Raise e) ≫= f) s = {| value := Raise e; state := s; log := [] |}.
Proof. by apply (run_bind_raise _ _ _ e s []). Qed.

Ltac run :=
  repeat first
    [ rewrite run_get | rewrite run_ret | rewrite run_modify
    | rewrite run_lift_Ok | rewrite run_lift_Raise ].

Lemma operations_cached s ops :
  _operations s = Some ops ->
  operations s = {| value := Ok ops; state := s; log := [] |}.
Proof. intros H. unfold operations. run. by rewrite H. Qed.

(** The getter of [operations] only assigns [_operations]. *)
Lemma operations_state s :
  _collections (state (operations s)) = _collections s /\
  _graph (state (operations s)) = _graph s /\
  (forall ops, value (operations s) = Ok ops ->
     _operations (state (operations s)) = Some ops).
Proof.
  unfold operations. run. destruct (_operations s) as [ops|] eqn:Hops.
  - simpl. repeat split; try done. by intros ? [= <-].
  - destruct (merge_collections (_collections s) []) as [ops|]; run;
      [| done].
    rewrite run_bind. unfold lift_logged at 1. simpl.
    destruct (validate_operations_dict (_collections s) ops) as [ws [[]|e]];
      simpl; [| done].
    repeat split; try done. by intros ? [= <-].
Qed.

Opaque operations.

(** What a successful read of [graph] leaves behind. *)
Lemma graph_Ok s DG :
  coherent s -> value (graph s) = Ok DG ->
  exists ops,
    _graph (state (graph s)) = Some DG /\
    _operations (state (graph s)) = Some ops /\
    build_graph ops = Ok DG /\
    is_directed_acyclic_graph DG = Ok true.
Proof.
  intros Hco. unfold graph. run.
  destruct (_graph s) as [DG0|] eqn:Hg.
  - simpl. intros [= ->]. unfold coherent in Hco. rewrite Hg in Hco.
    destruct Hco as (ops & ? & ? & ?). eauto.
  - destruct (operations_state s) as (_ & _ & Hst).
    rewrite run_bind.
    destruct (value (operations s)) as [ops|] eqn:Hops; [| done].
    specialize (Hst ops eq_refl).
    destruct (build_graph ops) as [DG1|] eqn:Hb; run; [| done].
    destruct (is_directed_acyclic_graph DG1) as [[]|] eqn:Hd; run; [| done..].
    simpl. intros [= ->]. exists ops. by rewrite Hst.
Qed.

Lemma graph_cached s DG :
  _graph s = Some DG ->
  graph s = {| value := Ok DG; state := s; log := [] |}.
Proof. intros H. unfold graph. run. by rewrite H. Qed.

Opaque graph.

(** ** [topological_sort] on a graph that is cached *)

Lemma subgraph_all G :
  well_formed G -> subgraph G (list_to_set (nodes G)) = G.
Proof.
  intros [Hn He Hends]. destruct G as [ns es]. unfold subgraph. simpl in *.
  f_equal.
  - apply list_filter_all. intros x Hx. by apply elem_of_list_to_set.
  - apply list_filter_all. intros [u v] Hx. simpl.
    destruct (Hends u v Hx). by rewrite !elem_of_list_to_set.
Qed.

(** A graph in which every node has a predecessor never calls the key. *)
Lemma lexicographical_topological_sort_no_key G key1 key2 :
  initial_zero_indegree G = [] ->
  lexicographical_topological_sort G key1
  = lexicographical_topological_sort G key2.
Proof.
  intros H. unfold lexicographical_topological_sort, kahn. by rewrite H.
Qed.

Lemma topological_sort_cached s DG ops nbunch :
  _graph s = Some DG -> _operations s = Some ops ->
  topological_sort nbunch s =
  {| value := lexicographical_topological_sort (sorted_graph DG nbunch)
                (custom_key ops);
     state := s; log := [] |}.
Proof.
  intros Hg Hops. unfold topological_sort.
  rewrite (run_bind_pure _ _ _ _ _ (graph_cached s DG Hg)).
  assert ((match nbunch with
           | Some nodes_set =>
               if decide (nodes_set = ∅) then ret DG
               else graph ≫= (fun DG0 => ret (subgraph DG0 nodes_set))
           | None => ret DG
           end) s
          = {| value := Ok (sorted_graph DG nbunch); state := s; log := [] |})
    as Hsel.
  { unfold sorted_graph. destruct nbunch as [nodes_set|]; [| done].
    destruct (decide (nodes_set = ∅)); [done |].
    by rewrite (run_bind_pure _ _ _ _ _ (graph_cached s DG Hg)). }
  rewrite (run_bind_pure _ _ _ _ _ Hsel).
  destruct (initial_zero_indegree (sorted_graph DG nbunch)) eqn:Hz.
  - unfold lift. f_equal.
    by apply lexicographical_topological_sort_no_key.
  - by rewrite (run_bind_pure _ _ _ _ _ (operations_cached s ops Hops)).
Qed.

(** The sort of the whole graph of a dictionary of operations. *)
Lemma total_order_spec ops DG :
  build_graph ops = Ok DG -> is_directed_acyclic_graph DG = Ok true ->
  exists l,
    lexicographical_topological_sort DG (custom_key ops) = Ok l /\
    greedy DG (key_le (custom_key ops)) [] l /\ l ≡ₚ nodes DG.
Proof.
  intros Hb Hd. destruct (build_graph_spec ops DG Hb) as (Hwf & Hn & _).
  apply lexicographical_topological_sort_spec; [done | | done].
  intros v Hv. apply custom_key_Some. by apply Hn.
Qed.

Lemma get_all_operations_cached s DG ops :
  _graph s = Some DG -> _operations s = Some ops -> build_graph ops = Ok DG ->
  get_all_operations s =
  {| value := lexicographical_topological_sort DG (custom_key ops);
     state := s; log := [] |}.
Proof.
  intros Hg Hops Hb. unfold get_all_operations.
  rewrite (run_bind_pure _ _ _ _ _ (graph_cached s DG Hg)).
  rewrite (topological_sort_cached s DG ops _ Hg Hops).
  do 2 f_equal. unfold sorted_graph.
  destruct (decide (list_to_set (nodes DG) = (∅ : gset string))); [done |].
  apply subgraph_all. by apply (build_graph_spec ops DG Hb).
Qed.

(** The total order, from any coherent state in which the graph can be
    read. *)
Lemma get_all_operations_run s DG :
  coherent s -> value (graph s) = Ok DG ->
  exists ops,
    build_graph ops = Ok DG /\ is_directed_acyclic_graph DG = Ok true /\
    _operations (state (graph s)) = Some ops /\
    value (get_all_operations s)
    = lexicographical_topological_sort DG (custom_key ops).
Proof.
  intros Hco Hval.
  destruct (graph_Ok s DG Hco Hval) as (ops & Hg & Hops & Hb & Hd).
  exists ops. repeat split; try done.
  unfold get_all_operations. rewrite run_bind, Hval. simpl.
  rewrite (topological_sort_cached _ DG ops _ Hg Hops). simpl.
  f_equal. unfold sorted_graph.
  destruct (decide (list_to_set (nodes DG) = (∅ : gset string))); [done |].
  apply subgraph_all. by apply (build_graph_spec ops DG Hb).
Qed.

(** C1.  For every graph that [graph] returns, [get_all_operations] returns a
    list of all the nodes in which every edge dependency -> dependent goes
    forward: the index of the dependency is less than the index of the
    dependent. *)
Theorem get_all_operations_topological s DG :
  coherent s -> value (graph s) = Ok DG ->
  exists l, value (get_all_operations s) = Ok l /\ topological_order DG l.
Proof.
  intros Hco Hval.
  destruct (get_all_operations_run s DG Hco Hval) as (ops & Hb & Hd & _ & ->).
  destruct (total_order_spec ops DG Hb Hd) as (l & Hl & Hg & Hperm).
  exists l. split; [done |].
  apply (greedy_topological DG (key_le (custom_key ops))); [| done | done].
  by apply (build_graph_spec ops DG Hb).
Qed.

(** ** Which of two nodes a greedy run takes first *)

Lemma string_ltb_not_leb a b :
  String.ltb a b = true -> String.leb b a = true -> False.
Proof.
  rewrite string_ltb_iff, string_leb_iff. intros H1 [-> | H2].
  - by apply (StrictOrder_Irreflexive a) in H1.
  - apply (StrictOrder_Irreflexive a). by etransitivity.
Qed.

Lemma path_nodes G u v :
  well_formed G -> path G u v -> u ∈ nodes G /\ v ∈ nodes G.
Proof.
  intros Hwf. induction 1 as [u v Huv | u v w Huv _ [_ IH]].
  - by apply (wf_ends G Hwf).
  - split; [| done]. by apply (wf_ends G Hwf u v).
Qed.

(** If no node among [u] and its ancestors can be passed by [v], then [u] is
    taken before [v]. *)
Lemma greedy_before G le l u v :
  well_formed G -> greedy G le [] l -> l ≡ₚ nodes G ->
  u ∈ nodes G -> v ∈ nodes G ->
  (forall a, a = u \/ path G a u -> ~ le v a) ->
  precedes l u v.
Proof.
  intros Hwf Hg Hperm Hu Hv Hno.
  pose proof (greedy_topological G le l Hwf Hg Hperm) as [_ Hord].
  pose proof Hv as Hvl. rewrite <- Hperm in Hvl.
  apply list_elem_of_split in Hvl as (l1 & l2 & ->).
  destruct (greedy_split _ _ _ _ _ _ Hg) as [(_ & Hv1 & _) Hleast].
  simpl in *.
  apply precedes_split; [done |].
  assert (forall i a, list_index a (l1 ++ v :: l2) = Some i ->
            a = u \/ path G a u -> a ∈ l1) as Hall.
  { induction i as [i IH] using lt_wf_ind. intros a Hi Ha.
    destruct (decide (a ∈ l1)) as [? | Hal]; [done |].
    destruct (Hno a Ha). apply Hleast. split; [| split; [done |]].
    - destruct Ha as [-> | Ha]; [done |]. by apply (path_nodes G a u Hwf).
    - intros p Hp.
      destruct (Hord p a Hp) as (j & i' & Hj & Hi' & Hlt).
      rewrite Hi in Hi'. injection Hi' as <-.
      apply (IH j Hlt p Hj). right.
      destruct Ha as [-> | Ha]; [by constructor | by econstructor]. }
  assert (u ∈ l1 ++ v :: l2) as Hul by by rewrite Hperm.
  destruct (list_index u (l1 ++ v :: l2)) as [i|] eqn:Hi.
  - apply (Hall i u Hi). by left.
  - by apply list_index_None in Hi.
Qed.




(** ** The breadth-first search *)

Section bfs.
Variable adj : string -> list string.
Variable universe : gset string.
Variable source : string.
Hypothesis adj_closed :
  forall v w, v ∈ universe -> w ∈ adj v -> w ∈ universe.

Lemma elem_of_next_level (found : gset string) w :
  w ∈ (list_to_set (flat_map adj (elements found)) : gset string) <->
  exists v, v ∈ found /\ w ∈ adj v.
Proof.
  rewrite elem_of_list_to_set, list_elem_of_In, in_flat_map. split.
  - intros (v & Hv & Hw). exists v.
    rewrite <- list_elem_of_In in Hv, Hw. by rewrite elem_of_elements in Hv.
  - intros (v & Hv & Hw). exists v.
    rewrite <- !list_elem_of_In. by rewrite elem_of_elements.
Qed.

(** With one unit of fuel for each node that is not seen yet and one more,
    the search ends with exactly the nodes that can be reached. *)
Lemma bfs_levels_spec fuel :
  forall nextlevel seen : gset string,
  seen ⊆ universe -> nextlevel ⊆ universe ->
  (forall v, v ∈ seen ∪ nextlevel -> reaches adj source v) ->
  (forall v w, v ∈ seen -> w ∈ adj v -> w ∈ seen ∪ nextlevel) ->
  source ∈ seen ∪ nextlevel ->
  (size universe < fuel + size seen)%nat ->
  exists found_all,
    bfs_levels adj fuel nextlevel seen = Ok found_all /\
    forall v, v ∈ found_all <-> reaches adj source v.
Proof.
  induction fuel as [|fuel IH];
    intros nextlevel seen Hseen Hnext Hreach Hclosed Hsrc Hfuel.
  - pose proof (subseteq_size _ _ Hseen). lia.
  - simpl. destruct (decide (nextlevel ∖ seen = ∅)) as [He | Hne].
    + exists seen. split; [done |]. intros v. split.
      * intros Hv. apply Hreach. set_solver.
      * induction 1 as [| v w _ IHv Hw]; [set_solver |].
        specialize (Hclosed v w IHv Hw). set_solver.
    + apply IH.
      * set_solver.
      * intros w Hw. apply elem_of_next_level in Hw as (v & Hv & Hw).
        apply (adj_closed v w); [set_solver | done].
      * intros w Hw. apply elem_of_union in Hw as [Hw | Hw].
        -- apply Hreach. set_solver.
        -- apply elem_of_next_level in Hw as (v & Hv & Hw).
           apply (reaches_next adj source v w); [| done].
           apply Hreach. set_solver.
      * intros v w Hv Hw. apply elem_of_union in Hv as [Hv | Hv].
        -- specialize (Hclosed v w Hv Hw).
           destruct (decide (w ∈ seen)); set_solver.
        -- apply elem_of_union. right. apply elem_of_next_level. eauto.
      * destruct (decide (source ∈ seen)); set_solver.
      * rewrite size_union by set_solver.
        assert (size (nextlevel ∖ seen) ≠ 0%nat)
          by (apply size_non_empty_iff; intros Heq; apply Hne;
              by apply leibniz_equiv).
        lia.
Qed.
End bfs.

Lemma reaches_predecessors G t n :
  reaches (predecessors G) t n <-> n = t \/ path G n t.
Proof.
  split.
  - induction 1 as [| v w _ IH Hw]; [by left |]. right.
    apply elem_of_predecessors in Hw.
    destruct IH as [-> | IH]; [by constructor | by econstructor].
  - intros [-> | Hp]; [constructor |].
    induction Hp as [u v Huv | u v w Huv _ IH].
    + apply (reaches_next _ _ v); [constructor |].
      by apply elem_of_predecessors.
    + apply (reaches_next _ _ v); [done |]. by apply elem_of_predecessors.
Qed.

(** [nx.ancestors] returns the nodes, other than the source, from which a
    path leads to the source. *)
Lemma ancestors_spec G source :
  well_formed G -> source ∈ nodes G ->
  exists found,
    ancestors G source = Ok found /\
    forall n, n ∈ found <-> n <> source /\ path G n source.
Proof.
  intros Hwf Hsrc. unfold ancestors.
  apply list_contains_true in Hsrc as Hc. rewrite Hc.
  destruct (bfs_levels_spec (predecessors G) (list_to_set (nodes G)) source)
    with (fuel := S (length (nodes G))) (nextlevel := ({[source]} : gset string))
         (seen := (∅ : gset string))
    as (found & -> & Hfound).
  - intros v w Hv Hw. apply elem_of_predecessors in Hw.
    apply elem_of_list_to_set. by apply (wf_ends G Hwf w v).
  - set_solver.
  - intros v Hv. apply elem_of_singleton in Hv as ->.
    by apply elem_of_list_to_set.
  - intros v Hv. assert (v = source) as -> by set_solver. constructor.
  - set_solver.
  - set_solver.
  - rewrite size_list_to_set by apply (wf_nodes G Hwf). rewrite size_empty. lia.
  - eexists. split; [done |]. intros n.
    rewrite elem_of_difference, elem_of_singleton, Hfound,
      reaches_predecessors. tauto.
Qed.

(** ** Sorting a subgraph that is closed under predecessors *)

Lemma subgraph_nodes G (S : gset string) v :
  v ∈ nodes (subgraph G S) <-> v ∈ nodes G /\ v ∈ S.
Proof. unfold subgraph. simpl. rewrite list_elem_of_filter. tauto. Qed.

Lemma subgraph_edges G (S : gset string) u v :
  (u, v) ∈ edges (subgraph G S) <-> (u, v) ∈ edges G /\ u ∈ S /\ v ∈ S.
Proof. unfold subgraph. simpl. rewrite list_elem_of_filter. simpl. tauto. Qed.

Lemma subgraph_well_formed G (S : gset string) :
  well_formed G -> well_formed (subgraph G S).
Proof.
  intros [Hn He Hends]. split.
  - by apply NoDup_filter.
  - by apply NoDup_filter.
  - intros u v Huv. apply subgraph_edges in Huv as (Huv & Hu & Hv).
    rewrite !subgraph_nodes. destruct (Hends u v Huv). tauto.
Qed.

(** A greedy run of the graph, restricted to such a set, is a greedy run of
    the subgraph. *)
Lemma greedy_filter G le (S : gset string) done l :
  predecessor_closed G S ->
  greedy G le done l ->
  greedy (subgraph G S) le (filter (fun n => n ∈ S) done)
    (filter (fun n => n ∈ S) l).
Proof.
  intros Hclosed. induction 1 as [done | done x l Hready Hleast _ IH].
  - constructor.
  - rewrite filter_app in IH. rewrite filter_cons.
    rewrite filter_cons, filter_nil in IH.
    destruct (decide (x ∈ S)) as [Hx | Hx]; [| by rewrite app_nil_r in IH].
    destruct Hready as (Hxn & Hxd & Hpred).
    constructor; [| | done].
    + split; [by apply subgraph_nodes |]. split.
      * intros Hc. by apply list_elem_of_filter in Hc as [_ ?].
      * intros u Hu. apply subgraph_edges in Hu as (Hu & HuS & _).
        apply list_elem_of_filter. auto.
    + intros y (Hyn & Hyd & Hypred). apply Hleast.
      apply subgraph_nodes in Hyn as [Hyn HyS]. split; [done |]. split.
      * intros Hc. apply Hyd. by apply list_elem_of_filter.
      * intros u Hu.
        assert ((u, y) ∈ edges (subgraph G S)) as Hu'.
        { apply subgraph_edges. split; [done |]. split; [| done].
          by apply (Hclosed u y). }
        apply Hypred in Hu'. by apply list_elem_of_filter in Hu' as [_ ?].
Qed.

(** Two greedy runs of the same length are equal when [le] is
    antisymmetric. *)
Lemma greedy_unique G le :
  (forall x y, le x y -> le y x -> x = y) ->
  forall done l1 l2,
  greedy G le done l1 -> greedy G le done l2 -> length l1 = length l2 ->
  l1 = l2.
Proof.
  intros Hanti done l1 l2 H1. revert l2.
  induction H1 as [done | done x l1 Hready Hleast _ IH]; intros l2 H2 Hlen.
  - by destruct l2.
  - inversion H2 as [| ? y l2' Hready' Hleast' H2']; subst; [done |].
    assert (x = y) as <- by (apply Hanti; auto).
    f_equal. apply IH; [done |]. simpl in Hlen. lia.
Qed.

Lemma subgraph_sort G (S : gset string) key l :
  well_formed G ->
  (forall x y, key_le key x y -> key_le key y x -> x = y) ->
  (forall v, v ∈ nodes G -> exists k, key v = Ok k) ->
  predecessor_closed G S ->
  greedy G (key_le key) [] l -> l ≡ₚ nodes G ->
  lexicographical_topological_sort (subgraph G S) key
  = Ok (filter (fun n => n ∈ S) l).
Proof.
  intros Hwf Hanti Hkey Hclosed Hg Hperm.
  pose proof (subgraph_well_formed G S Hwf) as Hwf'.
  pose proof (greedy_filter G _ S [] l Hclosed Hg) as Hg'.
  rewrite filter_nil in Hg'.
  assert (filter (fun n => n ∈ S) l ≡ₚ nodes (subgraph G S)) as Hperm'.
  { unfold subgraph. simpl. by rewrite Hperm. }
  assert (is_directed_acyclic_graph (subgraph G S) = Ok true) as Hdag.
  { destruct (is_directed_acyclic_graph_cases _ Hwf') as [[? _] | [_ Hno]];
      [done |].
    destruct (Hno (filter (fun n => n ∈ S) l)).
    by apply (greedy_topological _ (key_le key)). }
  destruct (lexicographical_topological_sort_spec (subgraph G S) key Hwf')
    as (l' & -> & Hl' & Hpl'); [| done |].
  { intros v Hv. apply Hkey. by apply subgraph_nodes in Hv as [? _]. }
  f_equal. apply (greedy_unique _ _ Hanti [] _ _ Hl' Hg').
  by rewrite Hpl', Hperm'.
Qed.

(** ** The closure queries *)

Lemma update_closure_single closure t (S0 : gset string) s DG found :
  value (graph s) = Ok DG -> closure DG t = Ok found ->
  update_closure closure [t] S0 s =
  {| value := Ok (S0 ∪ found); state := state (graph s);
     log := log (graph s) ++ [] |}.
Proof.
  intros Hval Hc.
  change (update_closure closure [t] S0)
    with (graph ≫= fun DG => lift (closure DG t) ≫= fun found =>
            ret (S0 ∪ found)).
  rewrite run_bind, Hval, Hc. by rewrite run_lift_Ok.
Qed.

Lemma get_operations_to_nodes_run s DG t found :
  coherent s -> value (graph s) = Ok DG -> ancestors DG t = Ok found ->
  exists ops,
    build_graph ops = Ok DG /\ is_directed_acyclic_graph DG = Ok true /\
    value (get_all_operations s)
    = lexicographical_topological_sort DG (custom_key ops) /\
    value (get_operations_to_nodes [t] s)
    = lexicographical_topological_sort (subgraph DG ({[t]} ∪ found))
        (custom_key ops).
Proof.
  intros Hco Hval Hanc.
  destruct (get_all_operations_run s DG Hco Hval) as (ops & Hb & Hd & Hops & Hall).
  destruct (graph_Ok s DG Hco Hval) as (ops' & Hg & Hops' & _).
  exists ops. repeat split; try done.
  unfold get_operations_to_nodes.
  rewrite run_bind, (update_closure_single _ _ _ _ _ _ Hval Hanc). simpl.
  rewrite (topological_sort_cached _ DG ops _ Hg Hops). simpl.
  destruct (decide (({[t]} ∪ ∅) ∪ found = (∅ : gset string))) as [He | _];
    [set_solver |].
  do 2 f_equal. set_solver.
Qed.

(** C4.  For a target [t] of the graph, [get_operations_to_nodes] returns
    [t] and the nodes from which a path leads to [t], each once and nothing
    else, and the list is a subsequence of the total order. *)
Theorem get_operations_to_nodes_ancestors s DG t :
  coherent s -> value (graph s) = Ok DG -> t ∈ nodes DG ->
  exists l full,
    value (get_operations_to_nodes [t] s) = Ok l /\
    value (get_all_operations s) = Ok full /\
    (forall n, n ∈ l <-> n = t \/ path DG n t) /\
    NoDup l /\
    l `sublist_of` full.
Proof.
  intros Hco Hval Ht.
  destruct (graph_Ok s DG Hco Hval) as (ops0 & _ & _ & Hb0 & _).
  destruct (build_graph_spec ops0 DG Hb0) as (Hwf & _).
  destruct (ancestors_spec DG t Hwf Ht) as (found & Hanc & Hfound).
  destruct (get_operations_to_nodes_run s DG t found Hco Hval Hanc)
    as (ops & Hb & Hd & Hall & Hto).
  destruct (total_order_spec ops DG Hb Hd) as (full & Hfull & Hg & Hperm).
  destruct (build_graph_spec ops DG Hb) as (_ & Hn & _).
  exists (filter (fun n => n ∈ {[t]} ∪ found) full), full.
  split; [| split; [by rewrite Hall | split; [| split]]].
  - rewrite Hto. apply subgraph_sort; try done.
    + apply key_le_antisym.
    + intros v Hv. apply custom_key_Some. by apply Hn.
    + intros u v Huv Hv. apply elem_of_union.
      destruct (decide (u = t)) as [-> | Hne]; [left; set_solver |].
      right. apply Hfound. split; [done |].
      apply elem_of_union in Hv as [Hv | Hv].
      * apply elem_of_singleton in Hv as ->. by constructor.
      * apply Hfound in Hv as [_ Hv]. by econstructor.
  - intros n. rewrite list_elem_of_filter, elem_of_union, elem_of_singleton,
      Hfound, Hperm. split.
    + intros [[-> | [_ Hp]] _]; auto.
    + intros [-> | Hp].
      * split; [by left | done].
      * split; [| by apply (path_nodes DG n t Hwf)].
        destruct (decide (n = t)); auto.
  - apply NoDup_filter. rewrite Hperm. apply (wf_nodes DG Hwf).
  - apply sublist_filter.
Qed.

(** ** Cycles *)

Lemma is_directed_acyclic_graph_acyclic G :
  well_formed G -> is_directed_acyclic_graph G = Ok true -> ~ cyclic G.
Proof.
  intros Hwf Hd.
  destruct (is_directed_acyclic_graph_cases G Hwf) as [[_ [l Hl]] | [Hc _]];
    [| congruence].
  by apply (topological_order_acyclic G l).
Qed.

(** The getter of [graph] when nothing is cached: the three ways it ends. *)
Lemma graph_build s :
  _graph s = None ->
  (exists e, value (operations s) = Raise e /\ value (graph s) = Raise e /\
     state (graph s) = state (operations s)) \/
  (exists ops, value (operations s) = Ok ops /\
     ((exists e, build_graph ops = Raise e /\ value (graph s) = Raise e /\
         state (graph s) = state (operations s)) \/
      (exists DG, build_graph ops = Ok DG /\
         ((is_directed_acyclic_graph DG = Ok true /\
           value (graph s) = Ok DG /\
           state (graph s) = set__graph (Some DG) (state (operations s))) \/
          (is_directed_acyclic_graph DG = Ok false /\
           value (graph s) = Raise (ValueError "Not a DAG") /\
           state (graph s) = state (operations s)))))).
Proof.
  intros Hg. with_strategy transparent [graph] unfold graph. run. rewrite Hg.
  rewrite run_bind.
  destruct (value (operations s)) as [ops|e] eqn:Hops; [| left; eauto].
  right. exists ops. split; [done |].
  destruct (build_graph ops) as [DG|e] eqn:Hb; run; [| left; eauto].
  right. exists DG. split; [done |].
  destruct (build_graph_spec ops DG Hb) as (Hwf & _).
  destruct (is_directed_acyclic_graph_cases DG Hwf) as [[Hd _] | [Hd _]];
    rewrite Hd; run; [left | right]; done.
Qed.

(** C5.  When nothing is cached, a dictionary of operations whose graph has
    a cycle makes [graph] raise [ValueError("Not a DAG")]; the check is part
    of every build, so that the graph that [graph] returns or stores never
    has a cycle. *)
Theorem graph_rejects_cycles s :
  _graph s = None ->
  (forall ops DG,
     value (operations s) = Ok ops -> build_graph ops = Ok DG -> cyclic DG ->
     value (graph s) = Raise (ValueError "Not a DAG") /\
     _graph (state (graph s)) = None) /\
  (forall DG, value (graph s) = Ok DG -> ~ cyclic DG) /\
  (forall DG, _graph (state (graph s)) = Some DG -> ~ cyclic DG).
Proof.
  intros Hg.
  destruct (operations_state s) as (_ & Hgs & _). rewrite Hg in Hgs.
  destruct (graph_build s Hg)
    as [(e & Hops & Hval & Hst)
       | (ops & Hops & [(e & Hb & Hval & Hst)
                       | (DG & Hb & [(Hd & Hval & Hst) | (Hd & Hval & Hst)])])].
  - rewrite Hval, Hst, Hgs. split; [| split]; [congruence | done | done].
  - rewrite Hval, Hst, Hgs. split; [| split]; [congruence | done | done].
  - destruct (build_graph_spec ops DG Hb) as (Hwf & _).
    pose proof (is_directed_acyclic_graph_acyclic DG Hwf Hd) as Hacyclic.
    rewrite Hval, Hst. cbn. split; [| split].
    + intros ops' DG' Hops' Hb' Hcyc. rewrite Hops in Hops'.
      injection Hops' as <-. rewrite Hb in Hb'. injection Hb' as <-. done.
    + by intros ? [= <-].
    + by intros ? [= <-].
  - rewrite Hval, Hst, Hgs. split; [| split]; done.
Qed.

(** ** Coherent states *)

Lemma Dag_init_coherent collections : coherent (Dag_init collections).
Proof. done. Qed.

Lemma coherent_acyclic s DG : coherent s -> _graph s = Some DG -> ~ cyclic DG.
Proof.
  unfold coherent. intros Hco Hg. rewrite Hg in Hco.
  destruct Hco as (ops & _ & Hb & Hd).
  apply is_directed_acyclic_graph_acyclic; [| done].
  by apply (build_graph_spec ops DG Hb).
Qed.

Lemma operations_coherent s : coherent s -> coherent (state (operations s)).
Proof.
  intros Hco. destruct (operations_state s) as (_ & Hg & Hst).
  unfold coherent in *. rewrite Hg.
  destruct (_graph s) as [DG|]; [| done].
  destruct Hco as (ops & Hops & Hb & Hd).
  rewrite (operations_cached s ops Hops). cbn. eauto.
Qed.

Lemma graph_coherent s : coherent s -> coherent (state (graph s)).
Proof.
  intros Hco. destruct (_graph s) as [DG|] eqn:Hg.
  - by rewrite (graph_cached s DG Hg).
  - pose proof (operations_coherent s Hco) as Hco'.
    destruct (operations_state s) as (_ & Hgs & Hst). rewrite Hg in Hgs.
    destruct (graph_build s Hg)
      as [(e & Hops & Hval & ->)
         | (ops & Hops & [(e & Hb & Hval & ->)
                         | (DG & Hb & [(Hd & Hval & ->) | (Hd & Hval & ->)])])];
      try done.
    unfold coherent. cbn. exists ops. by rewrite (Hst ops Hops).
Qed.

Lemma set_operations_coherent v s : coherent (state (set_operations v s)).
Proof. done. Qed.

Lemma set_collections_coherent v s : coherent (state (set_collections v s)).
Proof. done. Qed.

(** ** The merge *)

Lemma dict_set_fresh {V} k (v : V) d :
  dict_get k d = None -> dict_set k v d = d ++ [(k, v)].
Proof.
  induction d as [|[k' v'] d IH]; simpl; [done |].
  destruct (String.eqb k k'); [done |]. intros H. by rewrite IH.
Qed.

Lemma dict_get_app {V} k (d1 d2 : dict V) :
  dict_get k (d1 ++ d2)
  = match dict_get k d1 with Some v => Some v | None => dict_get k d2 end.
Proof.
  induction d1 as [|[k' v'] d1 IH]; simpl; [done |].
  by destruct (String.eqb k k').
Qed.

Lemma dict_get_None {V} k (d : dict V) :
  dict_get k d = None <-> k ∉ dict_keys d.
Proof.
  rewrite <- dict_get_is_Some. destruct (dict_get k d); split; try done.
  intros H. destruct H. eauto.
Qed.

Lemma merge_declarations_app l1 l2 operations :
  merge_declarations (l1 ++ l2) operations
  = match merge_declarations l1 operations with
    | Ok operations' => merge_declarations l2 operations'
    | Raise e => Raise e
    end.
Proof.
  revert operations. induction l1 as [|[c d] l1 IH]; intros ops; simpl; [done |].
  by destruct (dict_get (decl_name d) ops).
Qed.

Lemma merge_operations_list_flat cname l operations :
  merge_operations_list cname l operations
  = merge_declarations (map (pair cname) l) operations.
Proof.
  revert operations. induction l as [|d l IH]; intros ops; simpl; [done |].
  by destruct (dict_get (decl_name d) ops).
Qed.

Lemma merge_collections_flat items operations :
  merge_collections items operations
  = merge_declarations (all_declarations items) operations.
Proof.
  revert operations. induction items as [|[c coll] items IH]; intros ops;
    simpl; [done |].
  rewrite merge_declarations_app, merge_operations_list_flat.
  by destruct (merge_declarations _ ops).
Qed.

Lemma merged_keys pre operations :
  merged pre operations -> dict_keys operations = declared_names pre.
Proof.
  intros ->. unfold dict_keys, declared_names. rewrite map_map.
  by apply map_ext.
Qed.

Lemma merged_lookup pre operations k first :
  merged pre operations -> dict_get k operations = Some first ->
  exists c d, (c, d) ∈ pre /\ decl_name d = k /\ first = Operation_init c d.
Proof.
  intros -> Hget. apply dict_get_Some_elem in Hget.
  apply list_elem_of_fmap in Hget as ([c d] & [= -> ->] & Hin). eauto.
Qed.

(** The merge either stores every declaration, when the names are distinct,
    or stops at the first declaration whose name was already declared. *)
Lemma merge_declarations_spec l :
  forall pre operations,
  merged pre operations -> NoDup (declared_names pre) ->
  (NoDup (declared_names (pre ++ l)) /\
   exists operations',
     merge_declarations l operations = Ok operations' /\
     merged (pre ++ l) operations') \/
  (exists l1 second d l2 first d0,
     l = l1 ++ (second, d) :: l2 /\
     NoDup (declared_names (pre ++ l1)) /\
     (first, d0) ∈ pre ++ l1 /\ decl_name d0 = decl_name d /\
     merge_declarations l operations
     = Raise (ValueError (duplicate_message (decl_name d) first second))).
Proof.
  induction l as [|[c d] l IH]; intros pre ops Hm Hnd; simpl.
  - left. rewrite app_nil_r. eauto.
  - destruct (dict_get (decl_name d) ops) as [first|] eqn:Hget.
    + right. destruct (merged_lookup _ _ _ _ Hm Hget) as (c1 & d0 & Hin & Hn & ->).
      exists [], c, d, l, c1, d0. rewrite app_nil_r. by repeat split.
    + assert (merged (pre ++ [(c, d)])
                (dict_set (decl_name d) (Operation_init c d) ops)) as Hm'.
      { rewrite dict_set_fresh by done. unfold merged in *.
        by rewrite Hm, map_app. }
      assert (NoDup (declared_names (pre ++ [(c, d)]))) as Hnd'.
      { unfold declared_names. rewrite map_app. simpl.
        apply NoDup_app. split; [done |]. split; [| apply NoDup_singleton].
        intros x Hx Hx'. apply list_elem_of_singleton in Hx' as ->.
        apply dict_get_None in Hget. apply Hget.
        by rewrite (merged_keys _ _ Hm). }
      destruct (IH _ _ Hm' Hnd')
        as [(Hnd'' & ops' & Hrun & Hm'')
           | (l1 & c2 & d2 & l2 & c1 & d0 & -> & Hnd'' & Hin & Hn & Hrun)].
      * left. rewrite <- app_assoc in Hnd'', Hm''. eauto.
      * right. exists ((c, d) :: l1), c2, d2, l2, c1, d0.
        rewrite <- app_assoc in Hnd'', Hin. by repeat split.
Qed.






(** ** Validation *)

Lemma previous_service_action_found_spec previous dependencies :
  previous_service_action_found previous dependencies = true
  <-> previous ∈ dependencies.
Proof.
  unfold previous_service_action_found.
  assert (forall b,
            fold_left (fun found dependency =>
                         if String.eqb dependency previous then true else found)
              dependencies b = true
            <-> b = true \/ previous ∈ dependencies) as H.
  { induction dependencies as [|d ds IH]; intros b; simpl.
    - split; [auto | intros [? | H]; [done | by apply elem_of_nil in H]].
    - rewrite IH, elem_of_cons. destruct (String.eqb d previous) eqn:He.
      + apply String.eqb_eq in He as ->. tauto.
      + apply String.eqb_neq in He. split; [tauto |].
        intros [? | [? | ?]]; [tauto | congruence | tauto]. }
  rewrite H. split; [by intros [? | ?] | auto].
Qed.

(** The warning of lines 319-323 is logged exactly for the actions [config],
    [start] and [init] whose previous action is not a dependency. *)
Lemma validate_previous_action_spec operation_name operation w :
  w ∈ validate_previous_action operation_name operation <->
  exists previous,
    previous_action (action operation) = Some previous /\
    ((service operation +:+ "_" +:+ previous) ∉ depends_on operation) /\
    w = MissingPreviousAction operation_name (service operation) previous
          (collection_name operation).
Proof.
  unfold validate_previous_action, previous_action, actions_order,
    list_contains.
  simpl.
  destruct (String.eqb (action operation) "install") eqn:H1.
  { apply String.eqb_eq in H1. rewrite H1. simpl. split.
    - intros H. by apply elem_of_nil in H.
    - by intros (? & ? & _). }
  destruct (String.eqb (action operation) "config") eqn:H2;
    [| destruct (String.eqb (action operation) "start") eqn:H3;
       [| destruct (String.eqb (action operation) "init") eqn:H4]];
    simpl.
  4: { split; [intros H; by apply elem_of_nil in H | by intros (? & ? & _)]. }
  all: match goal with
       | |- context [previous_service_action_found ?p ?d] =>
           destruct (previous_service_action_found p d) eqn:Hf
       end.
  all: try (apply previous_service_action_found_spec in Hf; split;
            [intros H; by apply elem_of_nil in H
            | by intros (? & [= <-] & ? & _)]).
  all: assert (forall p d, previous_service_action_found p d = false -> p ∉ d)
         as Hnot
         by (intros p d Hp Hc; apply previous_service_action_found_spec in Hc;
             congruence).
  all: apply Hnot in Hf; rewrite list_elem_of_singleton; split;
       [intros ->; eauto | by intros (? & [= <-] & _ & ->)].
Qed.

Lemma validate_dependencies_log operations operation_name operation deps w :
  w ∈ fst (validate_dependencies operations operation_name operation deps) ->
  ~ is_missing_previous_action w.
Proof.
  induction deps as [|d ds IH]; simpl; [intros H; by apply elem_of_nil in H |].
  destruct (dict_get d operations) as [dop|];
    [| intros H; by apply elem_of_nil in H].
  destruct (validate_dependencies operations operation_name operation ds)
    as [ws r]. simpl in *.
  rewrite !elem_of_app. intros [Hw | [Hw | Hw]]; [| | by apply IH].
  - destruct (endswith d "_start" && _); [| by apply elem_of_nil in Hw].
    apply list_elem_of_singleton in Hw. subst w. simpl. tauto.
  - destruct (endswith operation_name "_install" && _);
      [| by apply elem_of_nil in Hw].
    apply list_elem_of_singleton in Hw. subst w. simpl. tauto.
Qed.

Lemma validate_dependencies_Ok operations operation_name operation deps :
  (forall d, d ∈ deps -> d ∈ dict_keys operations) ->
  snd (validate_dependencies operations operation_name operation deps) = Ok tt.
Proof.
  induction deps as [|d ds IH]; intros Hall; simpl; [done |].
  destruct (dict_get d operations) as [dop|] eqn:Hd.
  - destruct (validate_dependencies operations operation_name operation ds)
      as [ws r] eqn:Hrec. simpl in *. apply IH. intros; apply Hall; by right.
  - apply dict_get_None in Hd. destruct Hd. apply Hall. left.
Qed.

Lemma validate_playbook_log collections operation_name operation w :
  w ∈ fst (validate_playbook collections operation_name operation) ->
  ~ is_missing_previous_action w.
Proof.
  unfold validate_playbook.
  destruct (dict_get (collection_name operation) collections);
    [| intros H; by apply elem_of_nil in H].
  destruct (list_contains operation_name _), (noop operation); simpl;
    intros H; try (by apply elem_of_nil in H);
    apply list_elem_of_singleton in H; subst w; simpl; tauto.
Qed.

Lemma validate_playbook_Ok collections operation_name operation :
  collection_name operation ∈ dict_keys collections ->
  snd (validate_playbook collections operation_name operation) = Ok tt.
Proof.
  intros H. apply dict_get_is_Some in H as [c Hc]. unfold validate_playbook.
  rewrite Hc. by destruct (list_contains operation_name _).
Qed.

(** One turn of the loop, when the dependencies and the collection of the
    operation are known. *)
Lemma validate_operation_spec collections operations services_actions
    operation_name operation :
  (forall d, d ∈ depends_on operation -> d ∈ dict_keys operations) ->
  collection_name operation ∈ dict_keys collections ->
  exists ws services_actions',
    validate_operation collections operations services_actions operation_name
      operation = (ws, Ok services_actions') /\
    forall w, is_missing_previous_action w ->
      (w ∈ ws <-> is_service operation = true /\
                  w ∈ validate_previous_action operation_name operation).
Proof.
  intros Hdeps Hcoll. unfold validate_operation.
  pose proof (validate_dependencies_Ok operations operation_name operation
                _ Hdeps) as Hd.
  pose proof (validate_dependencies_log operations operation_name operation
                (depends_on operation)) as Hdl.
  destruct (validate_dependencies operations operation_name operation
              (depends_on operation)) as [ws1 r1]. simpl in Hd, Hdl. subst r1.
  pose proof (validate_playbook_Ok collections operation_name operation Hcoll)
    as Hp.
  pose proof (validate_playbook_log collections operation_name operation)
    as Hpl.
  destruct (validate_playbook collections operation_name operation)
    as [ws3 r3]. simpl in Hp, Hpl. subst r3.
  eexists _, _. split; [done |]. intros w Hw. rewrite !elem_of_app. split.
  - intros [H | [H | H]]; [by apply Hdl in H | | by apply Hpl in H].
    destruct (is_service operation); [done | by apply elem_of_nil in H].
  - intros [Hs H]. rewrite Hs. tauto.
Qed.

Lemma validate_operations_spec collections operations items :
  forall services_actions,
  (forall n op d, (n, op) ∈ items -> d ∈ depends_on op ->
     d ∈ dict_keys operations) ->
  (forall n op, (n, op) ∈ items -> collection_name op ∈ dict_keys collections) ->
  exists ws services_actions',
    validate_operations collections operations services_actions items
    = (ws, Ok services_actions') /\
    forall w, is_missing_previous_action w ->
      (w ∈ ws <-> exists n op, (n, op) ∈ items /\ is_service op = true /\
                    w ∈ validate_previous_action n op).
Proof.
  induction items as [|[n op] items IH]; intros sa Hdeps Hcoll; simpl.
  - eexists _, _. split; [done |]. intros w _. split.
    + intros H. by apply elem_of_nil in H.
    + intros (? & ? & H & _). by apply elem_of_nil in H.
  - destruct (validate_operation_spec collections operations sa n op)
      as (ws & sa' & -> & Hws).
    { intros d. apply (Hdeps n op d). left. }
    { apply (Hcoll n op). left. }
    destruct (IH sa') as (ws' & sa'' & -> & Hws').
    { intros n' op' d Hin. apply (Hdeps n' op' d). by right. }
    { intros n' op' Hin. apply (Hcoll n' op'). by right. }
    eexists _, _. split; [done |]. intros w Hw.
    rewrite elem_of_app, (Hws w Hw), (Hws' w Hw). split.
    + intros [[? ?] | (n' & op' & Hin & ? & ?)].
      * exists n, op. split; [left | done].
      * exists n', op'. split; [by right | done].
    + intros (n' & op' & Hin & ? & ?).
      apply elem_of_cons in Hin as [[= -> ->] | Hin]; [by left |].
      right. eauto.
Qed.


Lemma dict_elem_unique {V} k (a b : V) d :
  NoDup (dict_keys d) -> (k, a) ∈ d -> (k, b) ∈ d -> a = b.
Proof.
  intros Hnd Ha Hb. apply (dict_get_NoDup k a d Hnd) in Ha.
  apply (dict_get_NoDup k b d Hnd) in Hb. congruence.
Qed.


(** ** An unknown dependency *)

(** C3 on that input: the first read of [graph] raises the [KeyError] of
    [self.operations[dependency]] in [validate], which does not name the
    operation; the dictionary stays stored, and a second read reaches the
    [ValueError] of the getter of [graph], which names both. *)
Theorem unknown_dependency_KeyError :
  value (graph unknown_dependency_dag) = Raise (KeyError "missing_op") /\
  _graph (state (graph unknown_dependency_dag)) = None /\
  value (graph (state (graph unknown_dependency_dag)))
  = Raise (ValueError (unknown_dependency_message "missing_op" "a_config")).
Proof. repeat split; vm_compute; reflexivity. Qed.

(** The same happens for every dictionary with an unknown dependency: the
    first read of [graph] ends in [validate] with a [KeyError]. *)
Lemma validate_dependencies_unknown operations operation_name operation deps :
  (exists d, d ∈ deps /\ d ∉ dict_keys operations) ->
  exists k,
    snd (validate_dependencies operations operation_name operation deps)
    = Raise (KeyError k).
Proof.
  induction deps as [|d ds IH]; intros (d' & Hin & Hd');
    [by apply elem_of_nil in Hin |].
  simpl. destruct (dict_get d operations) as [dop|] eqn:Hd; [| simpl; eauto].
  destruct (validate_dependencies operations operation_name operation ds)
    as [ws r] eqn:Hrec. simpl in *. apply IH.
  apply elem_of_cons in Hin as [-> | Hin]; [| eauto].
  destruct Hd'. apply dict_get_is_Some. eauto.
Qed.

Lemma validate_dependencies_raises operations operation_name operation deps e :
  snd (validate_dependencies operations operation_name operation deps)
  = Raise e -> exists k, e = KeyError k.
Proof.
  induction deps as [|d ds IH]; simpl; [done |].
  destruct (dict_get d operations); [| simpl; intros [= <-]; eauto].
  by destruct (validate_dependencies operations operation_name operation ds).
Qed.

Lemma validate_operation_raises collections operations services_actions
    operation_name operation e :
  snd (validate_operation collections operations services_actions
         operation_name operation) = Raise e ->
  exists k, e = KeyError k.
Proof.
  unfold validate_operation.
  pose proof (validate_dependencies_raises operations operation_name operation
                (depends_on operation)) as Hd.
  destruct (validate_dependencies operations operation_name operation
              (depends_on operation)) as [ws1 [[]|e1]]; simpl in *.
  - unfold validate_playbook.
    destruct (dict_get (collection_name operation) collections); simpl.
    + by destruct (list_contains operation_name _).
    + intros [= <-]. eauto.
  - intros [= <-]. by apply Hd.
Qed.

Lemma validate_operations_unknown collections operations items :
  forall services_actions,
  (exists n op d, (n, op) ∈ items /\ d ∈ depends_on op /\
     d ∉ dict_keys operations) ->
  exists k,
    snd (validate_operations collections operations services_actions items)
    = Raise (KeyError k).
Proof.
  induction items as [|[n op] items IH]; intros sa (n' & op' & d & Hin & Hd & Hk);
    [by apply elem_of_nil in Hin |].
  simpl.
  pose proof (validate_operation_raises collections operations sa n op) as Hr.
  destruct (validate_operation collections operations sa n op)
    as [ws [sa'|e]] eqn:Hop; simpl in *.
  - apply elem_of_cons in Hin as [[= <- <-] | Hin].
    + exfalso. unfold validate_operation in Hop.
      destruct (validate_dependencies_unknown operations n' op'
                  (depends_on op')) as [k Hk']; [by exists d |].
      destruct (validate_dependencies operations n' op' (depends_on op'))
        as [ws1 r1]. simpl in Hk'. subst r1. discriminate.
    + destruct (IH sa') as [k Hk']; [by exists n', op', d |].
      destruct (validate_operations collections operations sa' items).
      simpl in *. eauto.
  - destruct (Hr e eq_refl) as [k ->]. eauto.
Qed.

Lemma graph_unknown_dependency s ops :
  _graph s = None -> _operations s = None ->
  merge_collections (_collections s) [] = Ok ops ->
  (exists n op d, (n, op) ∈ ops /\ d ∈ depends_on op /\ d ∉ dict_keys ops) ->
  exists k, value (graph s) = Raise (KeyError k).
Proof.
  intros Hg Hops Hmerge Hunknown.
  assert (exists k, value (operations s) = Raise (KeyError k)) as [k Hk].
  { with_strategy transparent [operations] unfold operations.
    run. rewrite Hops, Hmerge. run. rewrite run_bind.
    unfold lift_logged at 1. cbn. unfold validate_operations_dict.
    destruct (validate_operations_unknown (_collections s) ops ops [] Hunknown)
      as [k Hk].
    destruct (validate_operations (_collections s) ops [] ops) as [ws r].
    simpl in Hk. subst r. cbn. eauto. }
  exists k.
  destruct (graph_build s Hg) as [(e & He & -> & _) | (ops' & Hops' & _)];
    congruence.
Qed.

(** ** Regular expressions *)

Lemma append_cons c s t : String c s +:+ t = String c (s +:+ t).
Proof. reflexivity. Qed.

Lemma append_empty_l s : "" +:+ s = s.
Proof. reflexivity. Qed.












(** On the patterns made of ordinary characters the method is the filter of
    line 254 with the pattern of these characters. *)
Lemma filter_operations_regex_compiled operations pattern :
  Dag_filter_operations_regex compile_literal regex_match operations pattern
  = Ok (filter_operations_regex operations (literal pattern)).
Proof. reflexivity. Qed.

(** The pattern [hdfs] selects the names that start with it, not the names
    that contain it further on. *)
Example filter_operations_regex_prefix :
  filter_operations_regex
    ["zookeeper_install"; "hdfs_install"; "yarn_hdfs_client"; "hdfs"]
    (literal "hdfs")
  = ["hdfs_install"; "hdfs"].
Proof. reflexivity. Qed.

(** ** The combined query *)

(** C10.  With a non-empty [sources], [get_operations] is
    [get_operations_from_nodes] on the sources, whatever [targets] is (a
    non-empty [targets] is ignored); when both arguments are [None] or empty
    it is [get_all_operations]. *)
Theorem get_operations_dispatch :
  (forall a l b m,
     get_operations (Some (a :: l)) (Some (b :: m))
     = get_operations_from_nodes (a :: l)) /\
  (forall a l targets,
     get_operations (Some (a :: l)) targets
     = get_operations_from_nodes (a :: l)) /\
  get_operations None None = get_all_operations /\
  get_operations None (Some []) = get_all_operations /\
  get_operations (Some []) None = get_all_operations /\
  get_operations (Some []) (Some []) = get_all_operations.
Proof. repeat split. Qed.

(** ** The invalidation chain *)

(** What the getter of [operations] returns when nothing is cached depends
    on the collections only. *)
Lemma operations_fresh s t :
  _operations s = None -> _operations t = None ->
  _collections s = _collections t ->
  value (operations s) = value (operations t) /\
  log (operations s) = log (operations t).
Proof.
  intros Hs Ht Hc. with_strategy transparent [operations] unfold operations.
  run. rewrite Hs, Ht, Hc.
  destruct (merge_collections (_collections t) []) as [ops|]; run; [| done].
  rewrite !run_bind. unfold lift_logged at 1 3 5 7. cbn.
  by destruct (validate_operations_dict (_collections t) ops) as [ws [[]|e]].
Qed.

Lemma graph_fresh s t :
  _graph s = None -> _graph t = None ->
  value (operations s) = value (operations t) ->
  value (graph s) = value (graph t).
Proof.
  intros Hs Ht Hops.
  destruct (graph_build s Hs)
    as [(e & Ho & -> & _)
       | (ops & Ho & [(e & Hb & -> & _)
                     | (DG & Hb & [(Hd & -> & _) | (Hd & -> & _)])])];
    destruct (graph_build t Ht)
      as [(e' & Ho' & -> & _)
         | (ops' & Ho' & [(e' & Hb' & -> & _)
                         | (DG' & Hb' & [(Hd' & -> & _) | (Hd' & -> & _)])])];
    congruence.
Qed.

Lemma services_operations_fresh s t :
  _services_operations s = None -> _services_operations t = None ->
  _operations s = None -> _operations t = None ->
  _collections s = _collections t ->
  value (services_operations s) = value (services_operations t).
Proof.
  intros Hs Ht Hos Hot Hc. unfold services_operations. run. rewrite Hs, Ht.
  run. rewrite !run_bind.
  destruct (operations_fresh (set__services_operations (Some []) s)
              (set__services_operations (Some []) t)) as [Hv _]; try done.
  rewrite Hv.
  by destruct (value (operations (set__services_operations (Some []) t))).
Qed.

Lemma services_fresh s t :
  _services s = None -> _services t = None ->
  value (services_operations s) = value (services_operations t) ->
  value (services s) = value (services t).
Proof.
  intros Hs Ht Hv. unfold services. run. rewrite Hs, Ht, !run_bind, Hv.
  by destruct (value (services_operations t)).
Qed.

(** C7.  The setter of [collections] stores the new mapping and clears, in
    this order, the merged operations, the graph, the index of the services
    and the list of the services (the last one twice).  Afterwards no cache
    is left, and what each cached property returns is what it returns on a
    new [Dag] made from the new mapping: nothing that was derived from the
    previous mapping is read. *)
Theorem set_collections_invalidates v s :
  state (set_collections v s)
  = set__services None
      (set__services None
         (set__services_operations None
            (set__graph None
               (set__operations None (set__collections v s))))) /\
  _collections (state (set_collections v s)) = v /\
  _operations (state (set_collections v s)) = None /\
  _graph (state (set_collections v s)) = None /\
  _services_operations (state (set_collections v s)) = None /\
  _services (state (set_collections v s)) = None /\
  value (operations (state (set_collections v s)))
  = value (operations (Dag_init v)) /\
  value (graph (state (set_collections v s))) = value (graph (Dag_init v)) /\
  value (services_operations (state (set_collections v s)))
  = value (services_operations (Dag_init v)) /\
  value (services (state (set_collections v s)))
  = value (services (Dag_init v)).
Proof.
  assert (value (operations (state (set_collections v s)))
          = value (operations (Dag_init v))) as Hops
    by by apply operations_fresh.
  assert (value (services_operations (state (set_collections v s)))
          = value (services_operations (Dag_init v))) as Hso
    by by apply services_operations_fresh.
  repeat split; try done.
  - by apply graph_fresh.
  - by apply services_fresh.
Qed.

(** ** The theorems on the scenarios of the specification *)

(** C1 on scenario 1. *)
Lemma get_all_operations_topological_witness :
  coherent scenario_dag /\
  value (graph scenario_dag) = Ok scenario_graph /\
  exists l,
    value (get_all_operations scenario_dag) = Ok l /\
    topological_order scenario_graph l.
Proof.
  split; [exact I |]. split; [vm_compute; reflexivity |].
  apply (get_all_operations_topological scenario_dag scenario_graph);
    [exact I | vm_compute; reflexivity].
Defined.

(** C4 on scenario 1, for the target [a_config]. *)
Lemma get_operations_to_nodes_ancestors_witness :
  coherent scenario_dag /\
  value (graph scenario_dag) = Ok scenario_graph /\
  "a_config" ∈ nodes scenario_graph /\
  exists l full,
    value (get_operations_to_nodes ["a_config"] scenario_dag) = Ok l /\
    value (get_all_operations scenario_dag) = Ok full /\
    (forall n, n ∈ l <-> n = "a_config" \/ path scenario_graph n "a_config") /\
    NoDup l /\
    l `sublist_of` full.
Proof.
  split; [exact I |]. split; [vm_compute; reflexivity |].
  split; [left |].
  apply (get_operations_to_nodes_ancestors scenario_dag scenario_graph);
    [exact I | vm_compute; reflexivity | left].
Defined.



(** C5 on scenario 4. *)
Lemma graph_rejects_cycles_witness :
  _graph cyclic_dag = None /\
  value (operations cyclic_dag) = Ok cyclic_operations /\
  build_graph cyclic_operations = Ok cyclic_graph /\
  cyclic cyclic_graph /\
  value (graph cyclic_dag) = Raise (ValueError "Not a DAG") /\
  _graph (state (graph cyclic_dag)) = None.
Proof.
  assert (cyclic cyclic_graph) as Hcyc.
  { exists "a_install". apply (path_step _ _ "b_install").
    - right. left.
    - apply path_edge. left. }
  split; [reflexivity |]. split; [vm_compute; reflexivity |].
  split; [vm_compute; reflexivity |]. split; [exact Hcyc |].
  destruct (graph_rejects_cycles cyclic_dag eq_refl) as [H _].
  apply (H cyclic_operations cyclic_graph);
    [vm_compute; reflexivity | vm_compute; reflexivity | exact Hcyc].
Defined.


(** On that input the message is the one of the source, with the two
    collections in the order of the mapping. *)
Example operations_duplicate_message :
  value (operations duplicate_dag)
  = Raise (ValueError (duplicate_message "x_install" "first" "second")) /\
  duplicate_message "x_install" "first" "second"
  = dquote +:+ "x_install" +:+ dquote
    +:+ " is declared at least twice, first in first,  second in second".
Proof. split; vm_compute; reflexivity. Qed.

(** ** The closure queries on several nodes *)

Lemma path_snoc G u v w : path G u v -> (v, w) ∈ edges G -> path G u w.
Proof.
  induction 1 as [u v Huv | u v x Huv _ IH]; intros Hw.
  - by apply (path_step G u v w); [| constructor].
  - apply (path_step G u v w); [done |]. by apply IH.
Qed.

Lemma reaches_successors G t n :
  reaches (successors G) t n <-> n = t \/ path G t n.
Proof.
  split.
  - induction 1 as [| v w _ IH Hw]; [by left |]. right.
    apply elem_of_successors in Hw.
    destruct IH as [-> | IH]; [by constructor | by apply (path_snoc G t v w)].
  - intros [-> | Hp]; [constructor |].
    induction Hp as [u v Huv | u v w Huv _ IH].
    + apply (reaches_next _ _ u); [constructor |].
      by apply elem_of_successors.
    + induction IH as [| x y _ IHx Hy].
      * apply (reaches_next _ _ u); [constructor |].
        by apply elem_of_successors.
      * by apply (reaches_next _ _ x).
Qed.

(** [nx.descendants] returns the nodes, other than the source, to which a
    path leads from the source. *)
Lemma descendants_spec G source :
  well_formed G -> source ∈ nodes G ->
  exists found,
    descendants G source = Ok found /\
    forall n, n ∈ found <-> n <> source /\ path G source n.
Proof.
  intros Hwf Hsrc. unfold descendants.
  apply list_contains_true in Hsrc as Hc. rewrite Hc.
  destruct (bfs_levels_spec (successors G) (list_to_set (nodes G)) source)
    with (fuel := S (length (nodes G))) (nextlevel := ({[source]} : gset string))
         (seen := (∅ : gset string))
    as (found & -> & Hfound).
  - intros v w Hv Hw. apply elem_of_successors in Hw.
    apply elem_of_list_to_set. by apply (wf_ends G Hwf v w).
  - set_solver.
  - intros v Hv. apply elem_of_singleton in Hv as ->.
    by apply elem_of_list_to_set.
  - intros v Hv. assert (v = source) as -> by set_solver. constructor.
  - set_solver.
  - set_solver.
  - rewrite size_list_to_set by apply (wf_nodes G Hwf). rewrite size_empty. lia.
  - eexists. split; [done |]. intros n.
    rewrite elem_of_difference, elem_of_singleton, Hfound,
      reaches_successors. tauto.
Qed.

(** A node that is not in the graph. *)
Lemma ancestors_unknown G source :
  source ∉ nodes G ->
  ancestors G source = Raise (NetworkXError (node_not_in_graph_message source)).
Proof.
  intros H. apply list_contains_false in H. unfold ancestors. by rewrite H.
Qed.

Lemma descendants_unknown G source :
  source ∉ nodes G ->
  descendants G source = Raise (NetworkXError (node_not_in_graph_message source)).
Proof.
  intros H. apply list_contains_false in H. unfold descendants. by rewrite H.
Qed.

(** A graph that was read is cached. *)
Lemma graph_value_cached s DG :
  value (graph s) = Ok DG -> _graph (state (graph s)) = Some DG.
Proof.
  intros Hval. destruct (_graph s) as [DG0|] eqn:Hg.
  - rewrite (graph_cached s DG0 Hg) in *. simpl in *. congruence.
  - destruct (graph_build s Hg)
      as [(e & _ & He & _) | (ops & _ & [(e & _ & He & _) | (DG1 & _ & H)])];
      [congruence.. |].
    destruct H as [(_ & Hv & ->) | (_ & Hv & _)]; [| congruence].
    simpl. congruence.
Qed.

Lemma update_closure_nil closure (S0 : gset string) :
  update_closure closure [] S0 = ret S0.
Proof. reflexivity. Qed.

Lemma update_closure_cons closure node nodes (S0 : gset string) :
  update_closure closure (node :: nodes) S0
  = (graph ≫= fun DG => lift (closure DG node) ≫= fun found =>
       update_closure closure nodes (S0 ∪ found)).
Proof. reflexivity. Qed.

(** The loop when the graph is cached and every closure is defined. *)
Lemma update_closure_cached closure ts :
  forall (S0 : gset string) s DG,
  _graph s = Some DG ->
  (forall t, t ∈ ts -> exists found, closure DG t = Ok found) ->
  exists S,
    update_closure closure ts S0 s = {| value := Ok S; state := s; log := [] |} /\
    forall n, n ∈ S <->
      n ∈ S0 \/ exists t found, t ∈ ts /\ closure DG t = Ok found /\ n ∈ found.
Proof.
  induction ts as [|t ts IH]; intros S0 s DG Hg Hall.
  - exists S0. split; [done |]. intros n. split; [auto |].
    intros [? | (t & found & Ht & _)]; [done |]. by apply elem_of_nil in Ht.
  - destruct (Hall t ltac:(left)) as (found & Hc).
    destruct (IH (S0 ∪ found) s DG Hg) as (S & Heq & HS).
    { intros u Hu. apply Hall. by right. }
    exists S. split.
    + rewrite update_closure_cons.
      rewrite (run_bind_pure _ _ _ _ _ (graph_cached s DG Hg)).
      by rewrite Hc, run_lift_Ok.
    + intros n. rewrite HS, elem_of_union. split.
      * intros [[? | Hn] | (u & f & Hu & Hf & Hn)]; [by left | |].
        -- right. exists t, found. split; [left | done].
        -- right. exists u, f. split; [by right | done].
      * intros [? | (u & f & Hu & Hf & Hn)]; [by left; left |].
        apply elem_of_cons in Hu as [-> | Hu].
        -- left. right. congruence.
        -- right. eauto.
Qed.

(** The loop stops at the first node whose closure raises. *)
Lemma update_closure_cached_raise closure pre t post e :
  forall (S0 : gset string) s DG,
  _graph s = Some DG ->
  (forall u, u ∈ pre -> exists found, closure DG u = Ok found) ->
  closure DG t = Raise e ->
  update_closure closure (pre ++ t :: post) S0 s
  = {| value := Raise e; state := s; log := [] |}.
Proof.
  induction pre as [|u pre IH]; intros S0 s DG Hg Hall Ht; simpl.
  - rewrite update_closure_cons.
    rewrite (run_bind_pure _ _ _ _ _ (graph_cached s DG Hg)).
    by rewrite Ht, run_lift_Raise.
  - destruct (Hall u ltac:(left)) as (found & Hc).
    rewrite update_closure_cons.
    rewrite (run_bind_pure _ _ _ _ _ (graph_cached s DG Hg)).
    rewrite Hc, run_lift_Ok. apply (IH _ s DG); [done | | done].
    intros v Hv. apply Hall. by right.
Qed.

(** The first turn of the loop reads the graph; the turns after it find it
    cached. *)
Lemma update_closure_after_graph closure ts (S0 : gset string) s DG :
  value (graph s) = Ok DG -> ts <> [] ->
  value (update_closure closure ts S0 s)
  = value (update_closure closure ts S0 (state (graph s))) /\
  state (update_closure closure ts S0 s)
  = state (update_closure closure ts S0 (state (graph s))).
Proof.
  intros Hval Hne. destruct ts as [|t ts]; [done |].
  pose proof (graph_value_cached s DG Hval) as Hg.
  rewrite update_closure_cons.
  rewrite (run_bind_pure _ _ (state (graph s)) _ _ (graph_cached _ DG Hg)).
  by rewrite run_bind, Hval.
Qed.

Lemma topological_sort_after_graph s DG nbunch :
  value (graph s) = Ok DG ->
  value (topological_sort nbunch s)
  = value (topological_sort nbunch (state (graph s))).
Proof.
  intros Hval. pose proof (graph_value_cached s DG Hval) as Hg.
  unfold topological_sort.
  rewrite (run_bind_pure _ _ (state (graph s)) _ _ (graph_cached _ DG Hg)).
  by rewrite run_bind, Hval.
Qed.

(** The two closure queries: the set that is sorted, and the sort. *)
Lemma closure_query_run closure ts s DG :
  coherent s -> value (graph s) = Ok DG ->
  (forall t, t ∈ ts -> exists found, closure DG t = Ok found) ->
  exists ops S,
    build_graph ops = Ok DG /\ is_directed_acyclic_graph DG = Ok true /\
    _operations (state (graph s)) = Some ops /\
    (forall n, n ∈ S <->
       n ∈ ts \/
       exists t found, t ∈ ts /\ closure DG t = Ok found /\ n ∈ found) /\
    value ((update_closure closure ts (list_to_set ts) ≫= fun nodes_set =>
              topological_sort (Some nodes_set)) s)
    = lexicographical_topological_sort (sorted_graph DG (Some S))
        (custom_key ops).
Proof.
  intros Hco Hval Hall.
  destruct (graph_Ok s DG Hco Hval) as (ops & Hg & Hops & Hb & Hd).
  destruct (update_closure_cached closure ts (list_to_set ts) _ DG Hg Hall)
    as (S & Heq & HS).
  exists ops, S. repeat split; try done.
  - intros Hn. apply HS in Hn as [Hn | Hn]; [| by right].
    left. by apply elem_of_list_to_set in Hn.
  - intros [Hn | Hn]; apply HS; [| by right].
    left. by apply elem_of_list_to_set.
  - destruct ts as [|t ts].
    + rewrite update_closure_nil in Heq |- *. injection Heq as <-.
      rewrite run_ret.
      rewrite (topological_sort_after_graph s DG _ Hval).
      by rewrite (topological_sort_cached _ DG ops _ Hg Hops).
    + destruct (update_closure_after_graph closure (t :: ts)
                  (list_to_set (t :: ts)) s DG Hval ltac:(done)) as [Hv Hs].
      rewrite Heq in Hv, Hs. cbn [value state] in Hv, Hs.
      rewrite run_bind, Hv. cbn [value]. rewrite Hs.
      by rewrite (topological_sort_cached _ DG ops _ Hg Hops).
Qed.

(** When a closure raises, so does the query. *)
Lemma closure_query_raise closure pre t post e s DG :
  value (graph s) = Ok DG ->
  (forall u, u ∈ pre -> exists found, closure DG u = Ok found) ->
  closure DG t = Raise e ->
  value ((update_closure closure (pre ++ t :: post)
            (list_to_set (pre ++ t :: post)) ≫= fun nodes_set =>
            topological_sort (Some nodes_set)) s)
  = Raise e.
Proof.
  intros Hval Hall Ht.
  pose proof (graph_value_cached s DG Hval) as Hg.
  destruct (update_closure_after_graph closure (pre ++ t :: post)
              (list_to_set (pre ++ t :: post)) s DG Hval) as [Hv _].
  { by destruct pre. }
  rewrite (update_closure_cached_raise closure pre t post e _ _ DG Hg Hall Ht)
    in Hv.
  cbn [value] in Hv. by rewrite run_bind, Hv.
Qed.

(** ** Orders of a subgraph *)

Lemma precedes_filter (P : string -> Prop) `{!forall x, Decision (P x)} l u v :
  precedes l u v -> P u -> P v -> precedes (filter P l) u v.
Proof.
  intros Hp Hu Hv.
  assert (v ∈ l) as Hin.
  { destruct Hp as (i & j & _ & Hj & _). apply list_index_Some in Hj.
    by apply list_elem_of_lookup_2 in Hj. }
  apply list_elem_of_split_l in Hin as (l1 & l2 & -> & Hv1).
  apply precedes_split_inv in Hp; [| done].
  rewrite filter_app, filter_cons. destruct (decide (P v)); [| done].
  apply precedes_split.
  - intros Hc. by apply list_elem_of_filter in Hc as [_ ?].
  - by apply list_elem_of_filter.
Qed.

Lemma topological_order_subgraph G (S : gset string) l :
  topological_order G l ->
  topological_order (subgraph G S) (filter (fun n => n ∈ S) l).
Proof.
  intros [Hperm Hord]. split.
  - unfold subgraph. simpl. by rewrite Hperm.
  - intros u v Huv. apply subgraph_edges in Huv as (Huv & Hu & Hv).
    apply precedes_filter; auto.
Qed.

(** A subgraph of an acyclic graph is acyclic. *)
Lemma subgraph_acyclic G (S : gset string) :
  well_formed G -> is_directed_acyclic_graph G = Ok true ->
  is_directed_acyclic_graph (subgraph G S) = Ok true.
Proof.
  intros Hwf Hd.
  destruct (is_directed_acyclic_graph_cases G Hwf) as [[_ [l Hl]] | [Hc _]];
    [| congruence].
  destruct (is_directed_acyclic_graph_cases _ (subgraph_well_formed G S Hwf))
    as [[? _] | [_ Hno]]; [done |].
  destruct (Hno _ (topological_order_subgraph G S l Hl)).
Qed.

(** The set that [get_operations_to_nodes] sorts. *)
Lemma ancestors_closure G (ts : list string) (S : gset string) :
  well_formed G -> (forall t, t ∈ ts -> t ∈ nodes G) ->
  (forall n, n ∈ S <->
     n ∈ ts \/
     exists t found, t ∈ ts /\ ancestors G t = Ok found /\ n ∈ found) ->
  (forall n, n ∈ S <-> exists t, t ∈ ts /\ (n = t \/ path G n t)) /\
  predecessor_closed G S.
Proof.
  intros Hwf Hts HS.
  assert (forall n, n ∈ S <-> exists t, t ∈ ts /\ (n = t \/ path G n t)) as HS'.
  { intros n. rewrite HS. split.
    - intros [Hn | (t & found & Ht & Hf & Hn)]; [by exists n; auto |].
      destruct (ancestors_spec G t Hwf (Hts t Ht)) as (found' & Hf' & Hfound).
      assert (found' = found) as -> by congruence.
      apply Hfound in Hn as [_ Hn]. eauto.
    - intros (t & Ht & [-> | Hp]); [by left |].
      destruct (decide (n = t)) as [-> | Hne]; [by left |].
      destruct (ancestors_spec G t Hwf (Hts t Ht)) as (found & Hf & Hfound).
      right. exists t, found. repeat split; [done.. |]. by apply Hfound. }
  split; [done |].
  intros u v Huv Hv. apply HS' in Hv as (t & Ht & Hv). apply HS'.
  exists t. split; [done |]. right.
  destruct Hv as [-> | Hp]; [by constructor | by econstructor].
Qed.

(** The set that [get_operations_from_nodes] sorts. *)
Lemma descendants_closure G (ts : list string) (S : gset string) :
  well_formed G -> (forall t, t ∈ ts -> t ∈ nodes G) ->
  (forall n, n ∈ S <->
     n ∈ ts \/
     exists t found, t ∈ ts /\ descendants G t = Ok found /\ n ∈ found) ->
  (forall n, n ∈ S <-> exists t, t ∈ ts /\ (n = t \/ path G t n)).
Proof.
  intros Hwf Hts HS n. rewrite HS. split.
  - intros [Hn | (t & found & Ht & Hf & Hn)]; [by exists n; auto |].
    destruct (descendants_spec G t Hwf (Hts t Ht)) as (found' & Hf' & Hfound).
    assert (found' = found) as -> by congruence.
    apply Hfound in Hn as [_ Hn]. eauto.
  - intros (t & Ht & [-> | Hp]); [by left |].
    destruct (decide (n = t)) as [-> | Hne]; [by left |].
    destruct (descendants_spec G t Hwf (Hts t Ht)) as (found & Hf & Hfound).
    right. exists t, found. repeat split; [done.. |]. by apply Hfound.
Qed.

(** The graph that is sorted when the set is not empty. *)
Lemma sorted_graph_nonempty DG (S : gset string) t :
  t ∈ S -> sorted_graph DG (Some S) = subgraph DG S.
Proof.
  intros Ht. unfold sorted_graph. destruct (decide (S = ∅)) as [-> | _]; [| done].
  by apply elem_of_empty in Ht.
Qed.

(** X1.  For a non-empty list of targets that are nodes of the graph,
    [get_operations_to_nodes] returns, each once, the targets and the nodes
    from which a path leads to one of them, and nothing else; the list is a
    subsequence of the total order. *)
Theorem get_operations_to_nodes_closure s DG ts :
  coherent s -> value (graph s) = Ok DG -> ts <> [] ->
  (forall t, t ∈ ts -> t ∈ nodes DG) ->
  exists l full,
    value (get_operations_to_nodes ts s) = Ok l /\
    value (get_all_operations s) = Ok full /\
    (forall n, n ∈ l <-> exists t, t ∈ ts /\ (n = t \/ path DG n t)) /\
    NoDup l /\
    l `sublist_of` full.
Proof.
  intros Hco Hval Hne Hts.
  destruct (graph_Ok s DG Hco Hval) as (ops0 & _ & _ & Hb0 & _).
  destruct (build_graph_spec ops0 DG Hb0) as (Hwf & _).
  destruct (closure_query_run ancestors ts s DG Hco Hval)
    as (ops & S & Hb & Hd & Hops & HS & Hto).
  { intros t Ht. destruct (ancestors_spec DG t Hwf (Hts t Ht)) as (f & ? & _).
    eauto. }
  destruct (get_all_operations_run s DG Hco Hval)
    as (ops' & _ & _ & Hops' & Hall).
  assert (ops' = ops) as -> by congruence.
  destruct (ancestors_closure DG ts S Hwf Hts HS) as [HS' Hclosed].
  destruct (total_order_spec ops DG Hb Hd) as (full & Hfull & Hg & Hperm).
  destruct (build_graph_spec ops DG Hb) as (_ & Hn & _).
  destruct ts as [|t0 ts0]; [done |].
  rewrite (sorted_graph_nonempty DG S t0) in Hto
    by (apply HS; left; left).
  exists (filter (fun n => n ∈ S) full), full.
  split; [| split; [by rewrite Hall | split; [| split]]].
  - unfold get_operations_to_nodes. rewrite Hto.
    apply subgraph_sort; try done.
    + apply key_le_antisym.
    + intros v Hv. apply custom_key_Some. by apply Hn.
  - intros n. rewrite list_elem_of_filter, HS', Hperm. split; [tauto |].
    intros (t & Ht & Hp). split; [eauto |].
    destruct Hp as [-> | Hp]; [by apply Hts |].
    by apply (path_nodes DG n t Hwf).
  - apply NoDup_filter. rewrite Hperm. apply (wf_nodes DG Hwf).
  - apply sublist_filter.
Qed.

(** X2.  For a non-empty list of sources that are nodes of the graph,
    [get_operations_from_nodes] returns, each once, the sources and the nodes
    to which a path leads from one of them, and nothing else; every edge of
    the graph that starts in the list goes forward in the list. *)
Theorem get_operations_from_nodes_closure s DG ts :
  coherent s -> value (graph s) = Ok DG -> ts <> [] ->
  (forall t, t ∈ ts -> t ∈ nodes DG) ->
  exists l,
    value (get_operations_from_nodes ts s) = Ok l /\
    (forall n, n ∈ l <-> exists t, t ∈ ts /\ (n = t \/ path DG t n)) /\
    NoDup l /\
    (forall u v, (u, v) ∈ edges DG -> u ∈ l -> precedes l u v).
Proof.
  intros Hco Hval Hne Hts.
  destruct (graph_Ok s DG Hco Hval) as (ops0 & _ & _ & Hb0 & _).
  destruct (build_graph_spec ops0 DG Hb0) as (Hwf & _).
  destruct (closure_query_run descendants ts s DG Hco Hval)
    as (ops & S & Hb & Hd & Hops & HS & Hfrom).
  { intros t Ht. destruct (descendants_spec DG t Hwf (Hts t Ht)) as (f & ? & _).
    eauto. }
  pose proof (descendants_closure DG ts S Hwf Hts HS) as HS'.
  destruct (build_graph_spec ops DG Hb) as (_ & Hn & _).
  destruct ts as [|t0 ts0]; [done |].
  rewrite (sorted_graph_nonempty DG S t0) in Hfrom
    by (apply HS; left; left).
  pose proof (subgraph_well_formed DG S Hwf) as Hwf'.
  destruct (lexicographical_topological_sort_spec (subgraph DG S)
              (custom_key ops) Hwf') as (l & Hl & Hg & Hperm).
  { intros v Hv. apply custom_key_Some, Hn. by apply subgraph_nodes in Hv as [? _]. }
  { by apply subgraph_acyclic. }
  destruct (greedy_topological _ _ l Hwf' Hg Hperm) as [_ Hord].
  assert (forall n, n ∈ l <-> n ∈ S) as Hl'.
  { intros n. rewrite Hperm, subgraph_nodes. split; [tauto |].
    intros HnS. split; [| done]. apply HS' in HnS as (t & Ht & [-> | Hp]).
    - by apply Hts.
    - by apply (path_nodes DG t n Hwf). }
  exists l. split; [| split; [| split]].
  - unfold get_operations_from_nodes. by rewrite Hfrom.
  - intros n. by rewrite Hl', HS'.
  - rewrite Hperm. apply (wf_nodes _ Hwf').
  - intros u v Huv Hu. apply Hord, subgraph_edges.
    apply Hl' in Hu. split; [done |]. split; [done |].
    apply HS' in Hu as (t & Ht & Hu). apply HS'. exists t. split; [done |].
    right. destruct Hu as [-> | Hp]; [by constructor |].
    by apply (path_snoc DG t u v).
Qed.

(** X3.  With an empty list of nodes the two closure queries select
    everything: they return what [get_all_operations] returns. *)
Theorem closure_queries_nil s :
  coherent s ->
  value (get_operations_to_nodes [] s) = value (get_all_operations s) /\
  value (get_operations_from_nodes [] s) = value (get_all_operations s).
Proof.
  intros Hco. destruct (value (graph s)) as [DG|e] eqn:Hval.
  - destruct (get_all_operations_run s DG Hco Hval)
      as (ops' & _ & _ & Hops' & ->).
    assert (forall closure,
      value ((update_closure closure [] (list_to_set []) ≫= fun nodes_set =>
                topological_sort (Some nodes_set)) s)
      = lexicographical_topological_sort DG (custom_key ops')) as H.
    { intros closure.
      destruct (closure_query_run closure [] s DG Hco Hval)
        as (ops & S & _ & _ & Hops & HS & ->).
      { intros t Ht. by apply elem_of_nil in Ht. }
      assert (ops' = ops) as -> by congruence.
      assert (S = ∅) as ->.
      { apply leibniz_equiv. intros n. rewrite HS. split.
        - intros [Hn | (t & _ & Ht & _)]; by apply elem_of_nil in Hn || apply elem_of_nil in Ht.
        - intros Hn. by apply elem_of_empty in Hn. }
      unfold sorted_graph. by destruct (decide ((∅ : gset string) = ∅)). }
    split; apply H.
  - assert (value (get_all_operations s) = Raise e) as ->.
    { unfold get_all_operations. by rewrite run_bind, Hval. }
    split.
    + unfold get_operations_to_nodes. rewrite update_closure_nil, run_ret.
      unfold topological_sort. by rewrite run_bind, Hval.
    + unfold get_operations_from_nodes. rewrite update_closure_nil, run_ret.
      unfold topological_sort. by rewrite run_bind, Hval.
Qed.

(** X4.  A node that is not in the graph makes the two closure queries raise
    the error of the graph library for that node, when the nodes listed
    before it are in the graph. *)
Theorem closure_queries_unknown_node s DG pre t post :
  coherent s -> value (graph s) = Ok DG ->
  (forall u, u ∈ pre -> u ∈ nodes DG) -> t ∉ nodes DG ->
  value (get_operations_to_nodes (pre ++ t :: post) s)
  = Raise (NetworkXError (node_not_in_graph_message t)) /\
  value (get_operations_from_nodes (pre ++ t :: post) s)
  = Raise (NetworkXError (node_not_in_graph_message t)).
Proof.
  intros Hco Hval Hpre Ht.
  destruct (graph_Ok s DG Hco Hval) as (ops0 & _ & _ & Hb0 & _).
  destruct (build_graph_spec ops0 DG Hb0) as (Hwf & _).
  split.
  - unfold get_operations_to_nodes.
    apply (closure_query_raise _ _ _ _ _ _ DG); [done | | by apply ancestors_unknown].
    intros u Hu. destruct (ancestors_spec DG u Hwf (Hpre u Hu)) as (f & ? & _).
    eauto.
  - unfold get_operations_from_nodes.
    apply (closure_query_raise _ _ _ _ _ _ DG); [done | | by apply descendants_unknown].
    intros u Hu. destruct (descendants_spec DG u Hwf (Hpre u Hu)) as (f & ? & _).
    eauto.
Qed.

(** X1 on scenario 1, for the targets [a_config] and [b_install]. *)
Lemma get_operations_to_nodes_closure_witness :
  coherent scenario_dag /\
  value (graph scenario_dag) = Ok scenario_graph /\
  exists l full,
    value (get_operations_to_nodes ["a_config"; "b_install"] scenario_dag)
    = Ok l /\
    value (get_all_operations scenario_dag) = Ok full /\
    (forall n, n ∈ l <->
       exists t, t ∈ ["a_config"; "b_install"] /\
                 (n = t \/ path scenario_graph n t)) /\
    NoDup l /\
    l `sublist_of` full.
Proof.
  split; [exact I |]. split; [vm_compute; reflexivity |].
  apply (get_operations_to_nodes_closure scenario_dag scenario_graph
           ["a_config"; "b_install"]).
  - exact I.
  - vm_compute; reflexivity.
  - discriminate.
  - intros t Ht. apply list_contains_true.
    apply elem_of_cons in Ht as [-> | Ht]; [reflexivity |].
    apply list_elem_of_singleton in Ht as ->. reflexivity.
Defined.

(** X2 on scenario 1, for the source [a_install]. *)
Lemma get_operations_from_nodes_closure_witness :
  coherent scenario_dag /\
  value (graph scenario_dag) = Ok scenario_graph /\
  exists l,
    value (get_operations_from_nodes ["a_install"] scenario_dag) = Ok l /\
    (forall n, n ∈ l <->
       exists t, t ∈ ["a_install"] /\ (n = t \/ path scenario_graph t n)) /\
    NoDup l /\
    (forall u v, (u, v) ∈ edges scenario_graph -> u ∈ l -> precedes l u v).
Proof.
  split; [exact I |]. split; [vm_compute; reflexivity |].
  apply (get_operations_from_nodes_closure scenario_dag scenario_graph
           ["a_install"]).
  - exact I.
  - vm_compute; reflexivity.
  - discriminate.
  - intros t Ht. apply list_contains_true.
    apply list_elem_of_singleton in Ht as ->. reflexivity.
Defined.

(** X3 on scenario 1. *)
Lemma closure_queries_nil_witness :
  coherent scenario_dag /\
  value (get_operations_to_nodes [] scenario_dag)
  = value (get_all_operations scenario_dag) /\
  value (get_operations_from_nodes [] scenario_dag)
  = value (get_all_operations scenario_dag).
Proof.
  split; [exact I |]. apply (closure_queries_nil scenario_dag). exact I.
Defined.

(** X4 on scenario 1: [a_config] is a node, [c_install] is not. *)
Lemma closure_queries_unknown_node_witness :
  coherent scenario_dag /\
  value (graph scenario_dag) = Ok scenario_graph /\
  value (get_operations_to_nodes ["a_config"; "c_install"] scenario_dag)
  = Raise (NetworkXError (node_not_in_graph_message "c_install")) /\
  value (get_operations_from_nodes ["a_config"; "c_install"] scenario_dag)
  = Raise (NetworkXError (node_not_in_graph_message "c_install")).
Proof.
  split; [exact I |]. split; [vm_compute; reflexivity |].
  apply (closure_queries_unknown_node scenario_dag scenario_graph
           ["a_config"] "c_install" []).
  - exact I.
  - vm_compute; reflexivity.
  - intros u Hu. apply list_contains_true.
    apply list_elem_of_singleton in Hu as ->. reflexivity.
  - apply list_contains_false. reflexivity.
Defined.

(** ** The first read of [operations] *)

(** What the getter does when nothing is cached: the merge, the assignment,
    then [validate]. *)
Lemma operations_run s :
  _operations s = None ->
  match merge_collections (_collections s) [] with
  | Raise e => operations s = {| value := Raise e; state := s; log := [] |}
  | Ok ops =>
      operations s
      = {| value :=
             match snd (validate_operations_dict (_collections s) ops) with
             | Ok _ => Ok ops
             | Raise e => Raise e
             end;
           state := set__operations (Some ops) s;
           log := fst (validate_operations_dict (_collections s) ops) |}
  end.
Proof.
  intros Hops. with_strategy transparent [operations] unfold operations.
  run. rewrite Hops.
  destruct (merge_collections (_collections s) []) as [ops|e]; run; [| done].
  rewrite run_bind. unfold lift_logged at 1 2 3. cbn.
  destruct (validate_operations_dict (_collections s) ops) as [ws [[]|e]]; cbn;
    [| done].
  by rewrite app_nil_r.
Qed.

Lemma validate_operations_raises collections operations items :
  forall services_actions e,
  snd (validate_operations collections operations services_actions items)
  = Raise e -> exists k, e = KeyError k.
Proof.
  induction items as [|[n op] items IH]; intros sa e; simpl; [done |].
  pose proof (validate_operation_raises collections operations sa n op) as Hr.
  destruct (validate_operation collections operations sa n op)
    as [ws [sa'|e1]]; simpl in *.
  - specialize (IH sa' e).
    by destruct (validate_operations collections operations sa' items).
  - intros [= <-]. by apply Hr.
Qed.

(** [validate] raises nothing but the [KeyError] of a lookup. *)
Lemma validate_operations_dict_raises collections operations e :
  snd (validate_operations_dict collections operations) = Raise e ->
  exists k, e = KeyError k.
Proof.
  unfold validate_operations_dict.
  pose proof (validate_operations_raises collections operations operations [] e)
    as Hr.
  destruct (validate_operations collections operations [] operations)
    as [ws [sa|e1]]; simpl in *; [done |].
  intros [= <-]. by apply Hr.
Qed.

Lemma validate_operations_dict_Ok collections operations :
  (forall n op d, (n, op) ∈ operations -> d ∈ depends_on op ->
     d ∈ dict_keys operations) ->
  (forall n op, (n, op) ∈ operations ->
     collection_name op ∈ dict_keys collections) ->
  snd (validate_operations_dict collections operations) = Ok tt.
Proof.
  intros Hdeps Hcoll. unfold validate_operations_dict.
  destruct (validate_operations_spec collections operations operations []
              Hdeps Hcoll) as (ws & sa & -> & _).
  done.
Qed.

Lemma all_declarations_collection items c d :
  (c, d) ∈ all_declarations items -> c ∈ dict_keys items.
Proof.
  unfold all_declarations. rewrite list_elem_of_In, in_flat_map.
  intros ([c' coll] & Hin & Hd). apply in_map_iff in Hd as (d' & [= <- <-] & _).
  apply list_elem_of_In. unfold dict_keys. apply in_map_iff.
  by exists (c', coll).
Qed.

(** The merge of declarations whose names are distinct. *)
Lemma merge_collections_NoDup items :
  NoDup (declared_names (all_declarations items)) ->
  merge_collections items []
  = Ok (map (fun cd => (decl_name (snd cd), Operation_init (fst cd) (snd cd)))
          (all_declarations items)).
Proof.
  intros Hnd. rewrite merge_collections_flat.
  destruct (merge_declarations_spec (all_declarations items) [] [])
    as [(_ & ops & -> & Hm) | (l1 & second & d & l2 & first & d0 & Hl & _ & Hin
                               & Hname & _)];
    [done | constructor | by rewrite Hm | ].
  exfalso. simpl in *. rewrite Hl in Hnd. unfold declared_names in Hnd.
  rewrite map_app in Hnd. simpl in Hnd.
  apply NoDup_app in Hnd as (_ & Hnd & _).
  apply (Hnd (decl_name d)); [| left].
  apply list_elem_of_In, in_map_iff. exists (first, d0).
  split; [done | by apply list_elem_of_In].
Qed.

(** The merge of declarations in which a name comes twice. *)
Lemma merge_collections_dup items :
  ~ NoDup (declared_names (all_declarations items)) ->
  exists m, merge_collections items [] = Raise (ValueError m).
Proof.
  intros Hnd. rewrite merge_collections_flat.
  destruct (merge_declarations_spec (all_declarations items) [] [])
    as [(Hnd' & _) | (l1 & second & d & l2 & first & d0 & _ & _ & _ & _ & ->)];
    [done | constructor | done | eauto].
Qed.

(** The getter of [operations] leaves the other caches alone. *)
Lemma operations_frame s :
  _services_operations (state (operations s)) = _services_operations s /\
  _services (state (operations s)) = _services s.
Proof.
  destruct (_operations s) as [ops|] eqn:Hops.
  - by rewrite (operations_cached s ops Hops).
  - pose proof (operations_run s Hops) as H.
    destruct (merge_collections (_collections s) []); by rewrite H.
Qed.

(** ** Assignments in a dictionary *)

Lemma dict_get_set {V} k k' (v : V) d :
  dict_get k (dict_set k' v d)
  = if String.eqb k k' then Some v else dict_get k d.
Proof.
  induction d as [|[k0 v0] d IH]; simpl.
  - by destruct (String.eqb k k').
  - destruct (String.eqb k' k0) eqn:He'; simpl.
    + apply String.eqb_eq in He' as <-. by destruct (String.eqb k k').
    + destruct (String.eqb k k0) eqn:He; [| done].
      apply String.eqb_eq in He as ->.
      destruct (String.eqb k0 k') eqn:Hc; [| done].
      apply String.eqb_eq in Hc as ->. by rewrite String.eqb_refl in He'.
Qed.

Lemma dict_keys_set {V} k (v : V) d :
  dict_keys (dict_set k v d)
  = if dict_contains k d then dict_keys d else dict_keys d ++ [k].
Proof.
  unfold dict_contains. induction d as [|[k0 v0] d IH]; simpl; [done |].
  destruct (String.eqb k k0) eqn:He; simpl.
  - by apply String.eqb_eq in He as ->.
  - rewrite IH. by destruct (dict_get k d).
Qed.

Lemma dict_get_default_set {V} k k' (v default : V) d :
  dict_get_default k default (dict_set k' v d)
  = if String.eqb k k' then v else dict_get_default k default d.
Proof.
  unfold dict_get_default. rewrite dict_get_set. by destruct (String.eqb k k').
Qed.

(** ** The index of the services *)

Lemma services_operations_add_get d op sv :
  dict_get_default sv [] (services_operations_add d op)
  = dict_get_default sv [] d ++ filter (fun o => service o = sv) [op].
Proof.
  unfold services_operations_add. rewrite dict_get_default_set.
  rewrite filter_cons, filter_nil.
  destruct (String.eqb sv (service op)) eqn:He.
  - apply String.eqb_eq in He as ->. by destruct (decide (service op = service op)).
  - apply String.eqb_neq in He.
    destruct (decide (service op = sv)); [done | by rewrite app_nil_r].
Qed.

Lemma services_operations_add_keys d op k :
  k ∈ dict_keys (services_operations_add d op)
  <-> k ∈ dict_keys d \/ k = service op.
Proof.
  unfold services_operations_add. rewrite dict_keys_set.
  destruct (dict_contains (service op) d) eqn:Hc.
  - apply dict_contains_true in Hc. split; [auto |]. by intros [? | ->].
  - rewrite elem_of_app, list_elem_of_singleton. tauto.
Qed.

Lemma services_operations_add_NoDup d op :
  NoDup (dict_keys d) -> NoDup (dict_keys (services_operations_add d op)).
Proof.
  intros Hnd. unfold services_operations_add. rewrite dict_keys_set.
  destruct (dict_contains (service op) d) eqn:Hc; [done |].
  apply NoDup_app. split; [done |]. split; [| apply NoDup_singleton].
  intros k Hk Hk'. apply list_elem_of_singleton in Hk' as ->.
  apply dict_contains_true in Hk. congruence.
Qed.

(** The loop of [services_operations]: every service gets the list of its
    operations, in the order of the loop. *)
Lemma services_operations_fold vs :
  forall d, NoDup (dict_keys d) ->
  NoDup (dict_keys (fold_left services_operations_add vs d)) /\
  (forall k, k ∈ dict_keys (fold_left services_operations_add vs d)
     <-> k ∈ dict_keys d \/ exists op, op ∈ vs /\ service op = k) /\
  (forall sv,
     dict_get_default sv [] (fold_left services_operations_add vs d)
     = dict_get_default sv [] d ++ filter (fun o => service o = sv) vs).
Proof.
  induction vs as [|op vs IH]; intros d Hnd; simpl.
  - split; [done |]. split.
    + intros k. split; [auto |]. intros [? | (op & Hop & _)]; [done |].
      by apply elem_of_nil in Hop.
    + intros sv. by rewrite app_nil_r.
  - destruct (IH _ (services_operations_add_NoDup d op Hnd)) as (H1 & H2 & H3).
    split; [done |]. split.
    + intros k. rewrite H2, services_operations_add_keys. split.
      * intros [[? | ->] | (o & Ho & Hs)]; [by left | |].
        -- right. exists op. split; [left | done].
        -- right. exists o. split; [by right | done].
      * intros [? | (o & Ho & Hs)]; [by left; left |].
        apply elem_of_cons in Ho as [-> | Ho]; [by left; right |].
        right. eauto.
    + intros sv. rewrite H3, services_operations_add_get, <- app_assoc.
      f_equal. by rewrite <- filter_app.
Qed.

(** The first read of [services_operations]. *)
Lemma services_operations_run s :
  _services_operations s = None ->
  match value (operations (set__services_operations (Some []) s)) with
  | Raise e =>
      value (services_operations s) = Raise e /\
      state (services_operations s)
      = state (operations (set__services_operations (Some []) s))
  | Ok ops =>
      value (services_operations s)
      = Ok (fold_left services_operations_add (dict_values ops) []) /\
      state (services_operations s)
      = set__services_operations
          (Some (fold_left services_operations_add (dict_values ops) []))
          (state (operations (set__services_operations (Some []) s)))
  end.
Proof.
  intros Hso. unfold services_operations. run. rewrite Hso. run.
  rewrite run_bind.
  by destruct (value (operations (set__services_operations (Some []) s))).
Qed.

Lemma services_operations_cached s d :
  _services_operations s = Some d ->
  services_operations s = {| value := Ok d; state := s; log := [] |}.
Proof. intros H. unfold services_operations. run. by rewrite H. Qed.

(** A successful read of [services_operations], from a state in which the
    cached index, if any, is the index of the cached operations. *)
Lemma services_operations_read s d :
  index_coherent s -> value (services_operations s) = Ok d ->
  exists ops,
    _operations (state (services_operations s)) = Some ops /\
    _services_operations (state (services_operations s)) = Some d /\
    _services (state (services_operations s)) = _services s /\
    d = fold_left services_operations_add (dict_values ops) [].
Proof.
  intros Hco Hval. destruct (_services_operations s) as [d0|] eqn:Hso.
  - unfold index_coherent in Hco. rewrite Hso in Hco.
    destruct Hco as (ops & Hops & ->).
    rewrite (services_operations_cached s _ Hso) in *. cbn [value state] in *.
    injection Hval as <-. by exists ops.
  - pose proof (services_operations_run s Hso) as Hrun.
    destruct (operations_state (set__services_operations (Some []) s))
      as (_ & _ & Hst).
    destruct (operations_frame (set__services_operations (Some []) s))
      as [_ Hserv].
    destruct (value (operations (set__services_operations (Some []) s)))
      as [ops|e]; destruct Hrun as [Hv Hs]; [| congruence].
    rewrite Hv in Hval. injection Hval as <-. exists ops.
    rewrite Hs. split; [by apply Hst |]. split; [done |]. split; [| done].
    cbn [_services set__services_operations]. by rewrite Hserv.
Qed.

(** ** The graph and the operations it is made from *)

(** X5.  The graph that [graph] returns has one node for each operation and
    nothing else, and an edge from [a] to [b] exactly when [a] is listed in
    the [depends_on] of the operation [b]; no node and no edge comes twice,
    and every dependency is an operation. *)
Theorem graph_nodes_edges s DG :
  coherent s -> value (graph s) = Ok DG ->
  exists ops,
    _operations (state (graph s)) = Some ops /\
    NoDup (nodes DG) /\ NoDup (edges DG) /\
    (forall v, v ∈ nodes DG <-> v ∈ dict_keys ops) /\
    (forall a b, (a, b) ∈ edges DG <->
       exists op, dict_get b ops = Some op /\ a ∈ depends_on op) /\
    (forall b op a, dict_get b ops = Some op -> a ∈ depends_on op ->
       a ∈ dict_keys ops).
Proof.
  intros Hco Hval.
  destruct (graph_Ok s DG Hco Hval) as (ops & _ & Hops & Hb & _).
  destruct (build_graph_spec ops DG Hb) as (Hwf & Hn & He).
  exists ops. repeat split; try done.
  - apply (wf_nodes DG Hwf).
  - apply (wf_edges DG Hwf).
  - by apply Hn.
  - by apply Hn.
  - by apply He.
  - by apply He.
  - intros b op a Hop Ha. apply Hn.
    apply (wf_ends DG Hwf a b), He. eauto.
Qed.


(** ** The merge of the collections *)

(** X7.  When no name is declared twice and every dependency is declared,
    the first read of [operations] returns one operation for each
    declaration, in the order of the collections and of their files, each
    with the name of its collection; the dictionary is cached. *)
Theorem operations_merge s :
  _operations s = None ->
  NoDup (declared_names (all_declarations (_collections s))) ->
  (forall c d dep, (c, d) ∈ all_declarations (_collections s) ->
     dep ∈ decl_depends_on d ->
     dep ∈ declared_names (all_declarations (_collections s))) ->
  value (operations s)
  = Ok (map (fun cd => (decl_name (snd cd), Operation_init (fst cd) (snd cd)))
          (all_declarations (_collections s))) /\
  _operations (state (operations s))
  = Some (map (fun cd => (decl_name (snd cd), Operation_init (fst cd) (snd cd)))
            (all_declarations (_collections s))).
Proof.
  intros Hops Hnd Hdeps. pose proof (operations_run s Hops) as Hrun.
  rewrite (merge_collections_NoDup _ Hnd) in Hrun.
  set (ops := map _ (all_declarations (_collections s))) in *.
  assert (dict_keys ops = declared_names (all_declarations (_collections s)))
    as Hkeys.
  { unfold ops, dict_keys, declared_names. rewrite map_map. done. }
  rewrite validate_operations_dict_Ok in Hrun.
  - by rewrite Hrun.
  - intros n op dep Hin Hd. rewrite Hkeys.
    apply list_elem_of_In, in_map_iff in Hin as ([c d] & [= <- <-] & Hin).
    apply list_elem_of_In in Hin. by apply (Hdeps c d).
  - intros n op Hin.
    apply list_elem_of_In, in_map_iff in Hin as ([c d] & [= <- <-] & Hin).
    apply list_elem_of_In in Hin. simpl.
    by apply (all_declarations_collection _ c d).
Qed.

(** X8.  The first read of [operations] raises a [ValueError] exactly when
    some name is declared twice in the collections. *)
Theorem operations_ValueError_iff s :
  _operations s = None ->
  (exists m, value (operations s) = Raise (ValueError m))
  <-> ~ NoDup (declared_names (all_declarations (_collections s))).
Proof.
  intros Hops. pose proof (operations_run s Hops) as Hrun. split.
  - intros [m Hm] Hnd. rewrite (merge_collections_NoDup _ Hnd) in Hrun.
    rewrite Hrun in Hm. simpl in Hm.
    pose proof (validate_operations_dict_raises (_collections s)
      (map (fun cd => (decl_name (snd cd), Operation_init (fst cd) (snd cd)))
         (all_declarations (_collections s)))) as Hr.
    destruct (snd (validate_operations_dict _ _)) as [[]|e]; [done |].
    destruct (Hr e eq_refl) as [k ->]. done.
  - intros Hnd. destruct (merge_collections_dup _ Hnd) as [m Hm].
    rewrite Hm in Hrun. exists m. by rewrite Hrun.
Qed.

(** X9.  The merged dictionary is stored before [validate] runs.  When
    [validate] raises, the read of [operations] raises, but the dictionary
    stays cached: the next read returns it, without running [validate] again. *)
Theorem operations_read_twice s ops :
  _operations s = None ->
  merge_collections (_collections s) [] = Ok ops ->
  (forall e, snd (validate_operations_dict (_collections s) ops) = Raise e ->
     value (operations s) = Raise e) /\
  operations (state (operations s))
  = {| value := Ok ops; state := state (operations s); log := [] |}.
Proof.
  intros Hops Hmerge. pose proof (operations_run s Hops) as Hrun.
  rewrite Hmerge in Hrun. split.
  - intros e He. by rewrite Hrun, He.
  - apply operations_cached. by rewrite Hrun.
Qed.

(** ** The services *)

(** X10.  On an object whose cached index of the services, if there is
    one, is the index of its cached operations, a successful read of
    [services_operations] returns a mapping whose keys are the services of
    the operations, each once, and which gives for every service the list of
    its operations in the order of the dictionary of the operations; the
    mapping is cached, and it is the index of the cached operations. *)
Theorem services_operations_groups s d :
  index_coherent s -> value (services_operations s) = Ok d ->
  exists ops,
    _operations (state (services_operations s)) = Some ops /\
    _services_operations (state (services_operations s)) = Some d /\
    index_coherent (state (services_operations s)) /\
    NoDup (dict_keys d) /\
    (forall sv, sv ∈ dict_keys d
       <-> exists op, op ∈ dict_values ops /\ service op = sv) /\
    (forall sv, dict_get_default sv [] d
                = filter (fun op => service op = sv) (dict_values ops)).
Proof.
  intros Hco Hval.
  destruct (services_operations_read s d Hco Hval)
    as (ops & Hops & Hso & _ & ->).
  exists ops.
  destruct (services_operations_fold (dict_values ops) []) as (H1 & H2 & H3);
    [constructor |].
  split; [done |]. split; [done |]. split; [| split; [done |]; split].
  - unfold index_coherent. rewrite Hso. by exists ops.
  - intros sv. rewrite H2. split; [| auto].
    intros [Hc | ?]; [by apply elem_of_nil in Hc | done].
  - intros sv. by rewrite H3.
Qed.

(** X11.  On an object whose list of the services is not cached and whose
    cached index, if there is one, is the index of its cached operations
    (as when [services_operations] was read before), a successful read of
    [services] returns the services of the operations, each once, and caches
    the list. *)
Theorem services_spec s l :
  _services s = None -> index_coherent s ->
  value (services s) = Ok l ->
  exists ops,
    _operations (state (services s)) = Some ops /\
    _services (state (services s)) = Some l /\
    NoDup l /\
    (forall sv, sv ∈ l
       <-> exists op, op ∈ dict_values ops /\ service op = sv).
Proof.
  intros Hs Hco. unfold services. run. rewrite Hs, run_bind.
  destruct (value (services_operations s)) as [d|e] eqn:Hv; [| done].
  destruct (services_operations_read s d Hco Hv)
    as (ops & Hops & _ & _ & ->).
  run. cbn. intros [= <-]. exists ops.
  destruct (services_operations_fold (dict_values ops) []) as (H1 & H2 & _);
    [constructor |].
  split; [done |]. split; [done |]. split; [done |].
  intros sv. rewrite H2. split; [| auto].
  intros [Hc | ?]; [by apply elem_of_nil in Hc | done].
Qed.

(** X12.  The getter of [services_operations] stores an empty mapping before
    it reads [operations].  When that read raises, the empty mapping stays:
    the next read of [services_operations] returns it without an error, and
    so does a read of [services]. *)
Theorem services_operations_failed_read s e :
  _services_operations s = None -> _services s = None ->
  value (operations s) = Raise e ->
  value (services_operations s) = Raise e /\
  _services_operations (state (services_operations s)) = Some [] /\
  value (services_operations (state (services_operations s))) = Ok [] /\
  value (services (state (services_operations s))) = Ok [].
Proof.
  intros Hso Hs He.
  assert (_operations s = None) as Hops.
  { destruct (_operations s) as [ops|] eqn:Hops; [| done].
    by rewrite (operations_cached s ops Hops) in He. }
  pose proof (services_operations_run s Hso) as Hrun.
  destruct (operations_fresh (set__services_operations (Some []) s) s)
    as [Hv _]; [done.. |].
  rewrite Hv, He in Hrun. destruct Hrun as [Hval Hstate].
  assert (_services_operations (state (services_operations s)) = Some []
          /\ _services (state (services_operations s)) = _services s)
    as [Hf1 Hf2].
  { rewrite Hstate.
    apply (operations_frame (set__services_operations (Some []) s)). }
  split; [done |]. split; [done |].
  rewrite (services_operations_cached _ [] Hf1). split; [done |].
  unfold services. run. rewrite Hf2, Hs.
  by rewrite (run_bind_pure _ _ _ _ _ (services_operations_cached _ [] Hf1)).
Qed.

(** X5 on scenario 1. *)
Lemma graph_nodes_edges_witness :
  coherent scenario_dag /\
  value (graph scenario_dag) = Ok scenario_graph /\
  exists ops,
    _operations (state (graph scenario_dag)) = Some ops /\
    NoDup (nodes scenario_graph) /\ NoDup (edges scenario_graph) /\
    (forall v, v ∈ nodes scenario_graph <-> v ∈ dict_keys ops) /\
    (forall a b, (a, b) ∈ edges scenario_graph <->
       exists op, dict_get b ops = Some op /\ a ∈ depends_on op) /\
    (forall b op a, dict_get b ops = Some op -> a ∈ depends_on op ->
       a ∈ dict_keys ops).
Proof.
  split; [exact I |]. split; [vm_compute; reflexivity |].
  apply (graph_nodes_edges scenario_dag scenario_graph);
    [exact I | vm_compute; reflexivity].
Defined.


(** X7 on scenario 1. *)
Lemma operations_merge_witness :
  _operations scenario_dag = None /\
  NoDup (declared_names (all_declarations (_collections scenario_dag))) /\
  value (operations scenario_dag)
  = Ok (map (fun cd => (decl_name (snd cd), Operation_init (fst cd) (snd cd)))
          (all_declarations (_collections scenario_dag))) /\
  _operations (state (operations scenario_dag))
  = Some (map (fun cd => (decl_name (snd cd), Operation_init (fst cd) (snd cd)))
            (all_declarations (_collections scenario_dag))).
Proof.
  assert (NoDup (declared_names (all_declarations (_collections scenario_dag))))
    as Hnd.
  { apply (bool_decide_unpack _). vm_compute. exact I. }
  split; [reflexivity |]. split; [exact Hnd |].
  apply (operations_merge scenario_dag); [reflexivity | exact Hnd |].
  intros c d dep Hin Hdep. apply list_contains_true.
  apply elem_of_cons in Hin as [[= -> ->] | Hin];
    [by apply elem_of_nil in Hdep |].
  apply elem_of_cons in Hin as [[= -> ->] | Hin].
  - apply list_elem_of_singleton in Hdep as ->. reflexivity.
  - apply list_elem_of_singleton in Hin as [= -> ->].
    by apply elem_of_nil in Hdep.
Defined.

(** X8 on scenario 2. *)
Lemma operations_ValueError_iff_witness :
  _operations duplicate_dag = None /\
  ((exists m, value (operations duplicate_dag) = Raise (ValueError m))
   <-> ~ NoDup (declared_names (all_declarations (_collections duplicate_dag)))).
Proof.
  split; [reflexivity |].
  apply (operations_ValueError_iff duplicate_dag). reflexivity.
Defined.

(** X9 on scenario 3: [validate] raises the [KeyError] of the unknown
    dependency. *)
Lemma operations_read_twice_witness :
  _operations unknown_dependency_dag = None /\
  merge_collections (_collections unknown_dependency_dag) []
  = Ok [("a_config",
         Operation_init "c"
           (entry "a_config" ["missing_op"] "a" "config" true))] /\
  value (operations unknown_dependency_dag) = Raise (KeyError "missing_op") /\
  operations (state (operations unknown_dependency_dag))
  = {| value := Ok [("a_config",
                     Operation_init "c"
                       (entry "a_config" ["missing_op"] "a" "config" true))];
       state := state (operations unknown_dependency_dag); log := [] |}.
Proof.
  split; [reflexivity |]. split; [reflexivity |].
  destruct (operations_read_twice unknown_dependency_dag
              [("a_config",
                Operation_init "c"
                  (entry "a_config" ["missing_op"] "a" "config" true))]
              eq_refl eq_refl) as [Hraise Hcached].
  split; [| exact Hcached].
  apply Hraise. vm_compute; reflexivity.
Defined.

(** X10 on scenario 1. *)
Lemma services_operations_groups_witness :
  index_coherent scenario_dag /\
  value (services_operations scenario_dag)
  = Ok [("a", [Operation_init "c" (entry "a_install" [] "a" "install" true);
               Operation_init "c"
                 (entry "a_config" ["a_install"] "a" "config" true)]);
        ("b", [Operation_init "c" (entry "b_install" [] "b" "install" true)])] /\
  exists ops,
    _operations (state (services_operations scenario_dag)) = Some ops /\
    forall sv,
      dict_get_default sv []
        [("a", [Operation_init "c" (entry "a_install" [] "a" "install" true);
                Operation_init "c"
                  (entry "a_config" ["a_install"] "a" "config" true)]);
         ("b", [Operation_init "c" (entry "b_install" [] "b" "install" true)])]
      = filter (fun op => service op = sv) (dict_values ops).
Proof.
  split; [exact I |]. split; [vm_compute; reflexivity |].
  destruct (services_operations_groups scenario_dag
    [("a", [Operation_init "c" (entry "a_install" [] "a" "install" true);
            Operation_init "c"
              (entry "a_config" ["a_install"] "a" "config" true)]);
     ("b", [Operation_init "c" (entry "b_install" [] "b" "install" true)])])
    as (ops & Hops & _ & _ & _ & _ & Hget);
    [exact I | vm_compute; reflexivity |].
  exists ops. split; [exact Hops | exact Hget].
Defined.

(** X11 on scenario 1, after a read of [services_operations]. *)
Lemma services_spec_witness :
  _services (state (services_operations scenario_dag)) = None /\
  index_coherent (state (services_operations scenario_dag)) /\
  value (services (state (services_operations scenario_dag)))
  = Ok ["a"; "b"] /\
  exists ops,
    _operations (state (services (state (services_operations scenario_dag))))
    = Some ops /\
    _services (state (services (state (services_operations scenario_dag))))
    = Some ["a"; "b"] /\
    NoDup ["a"; "b"] /\
    (forall sv, sv ∈ ["a"; "b"]
       <-> exists op, op ∈ dict_values ops /\ service op = sv).
Proof.
  assert (index_coherent (state (services_operations scenario_dag))) as Hco.
  { vm_compute. eexists. split; reflexivity. }
  split; [vm_compute; reflexivity |]. split; [exact Hco |].
  split; [vm_compute; reflexivity |].
  apply (services_spec (state (services_operations scenario_dag)) ["a"; "b"]);
    [vm_compute; reflexivity | exact Hco | vm_compute; reflexivity].
Defined.

(** X12 on scenario 2: the read of [operations] raises the error of the
    duplicate. *)
Lemma services_operations_failed_read_witness :
  _services_operations duplicate_dag = None /\
  _services duplicate_dag = None /\
  value (operations duplicate_dag)
  = Raise (ValueError (duplicate_message "x_install" "first" "second")) /\
  value (services_operations duplicate_dag)
  = Raise (ValueError (duplicate_message "x_install" "first" "second")) /\
  _services_operations (state (services_operations duplicate_dag)) = Some [] /\
  value (services_operations (state (services_operations duplicate_dag)))
  = Ok [] /\
  value (services (state (services_operations duplicate_dag))) = Ok [].
Proof.
  split; [reflexivity |]. split; [reflexivity |].
  split; [vm_compute; reflexivity |].
  apply (services_operations_failed_read duplicate_dag
           (ValueError (duplicate_message "x_install" "first" "second")));
    [reflexivity | reflexivity | vm_compute; reflexivity].
Defined.

(** ** The warnings of [validate] *)

(** The loop over the dependencies, when they are all operations. *)
Lemma validate_dependencies_resolved operations n op deps :
  (forall d, d ∈ deps -> d ∈ dict_keys operations) ->
  forall w,
    w ∈ fst (validate_dependencies operations n op deps) <->
    exists d dop, d ∈ deps /\ dict_get d operations = Some dop /\
      ((endswith d "_start" = true /\ service dop <> service op /\
        w = StartOutsideService n (service op) d (service dop)
              (collection_name op)) \/
       (endswith n "_install" = true /\ endswith d "_install" = false /\
        w = InstallDependsOnOther n d (collection_name op))).
Proof.
  induction deps as [|d deps IH]; intros Hall w; simpl.
  - split; [intros H; by apply elem_of_nil in H |].
    intros (d & dop & Hd & _). by apply elem_of_nil in Hd.
  - destruct (proj2 (dict_get_is_Some d operations) (Hall d ltac:(left)))
      as [dop Hdop].
    rewrite Hdop.
    specialize (IH (fun d' Hd' => Hall d' ltac:(by right)) w).
    destruct (validate_dependencies operations n op deps) as [ws r].
    simpl in *. rewrite !elem_of_app, IH. clear IH. split.
    + intros [Hw | [Hw | (d' & dop' & Hd' & Hdop' & Hw)]].
      * destruct (endswith d "_start") eqn:Hs; simpl in Hw;
          [| by apply elem_of_nil in Hw].
        destruct (String.eqb (service dop) (service op)) eqn:He; simpl in Hw;
          [by apply elem_of_nil in Hw |].
        apply String.eqb_neq in He. apply list_elem_of_singleton in Hw.
        exists d, dop. split; [left |]. split; [done |]. by left.
      * destruct (endswith n "_install") eqn:Hi; simpl in Hw;
          [| by apply elem_of_nil in Hw].
        destruct (endswith d "_install") eqn:Hj; simpl in Hw;
          [by apply elem_of_nil in Hw |].
        apply list_elem_of_singleton in Hw.
        exists d, dop. split; [left |]. split; [done |]. by right.
      * exists d', dop'. split; [by right | done].
    + intros (d' & dop' & Hd' & Hdop' & Hw).
      apply elem_of_cons in Hd' as [-> | Hd'].
      * assert (dop' = dop) as -> by congruence.
        destruct Hw as [(Hs & Hne & ->) | (Hi & Hj & ->)].
        -- left. rewrite Hs. apply String.eqb_neq in Hne. rewrite Hne. simpl.
           left.
        -- right. left. rewrite Hi, Hj. simpl. left.
      * right. right. eauto.
Qed.

(** The check of the playbook, when the collection is in the mapping. *)
Lemma validate_playbook_resolved collections n op coll :
  dict_get (collection_name op) collections = Some coll ->
  forall w,
    w ∈ fst (validate_playbook collections n op) <->
    (noop op = true /\ n ∈ Collection.operations coll /\
     w = NoopWithPlaybook n (collection_name op)) \/
    (noop op = false /\ (n ∉ Collection.operations coll) /\
     w = MissingPlaybook n (collection_name op)).
Proof.
  intros Hc w. unfold validate_playbook. rewrite Hc.
  destruct (list_contains n (Collection.operations coll)) eqn:Hin.
  - apply list_contains_true in Hin. destruct (noop op); simpl.
    + rewrite list_elem_of_singleton. split; [by left |].
      intros [(_ & _ & ->) | (? & _)]; done.
    + split; [intros H; by apply elem_of_nil in H |].
      intros [(? & _) | (_ & ? & _)]; done.
  - apply list_contains_false in Hin. destruct (noop op); simpl.
    + split; [intros H; by apply elem_of_nil in H |].
      intros [(_ & ? & _) | (? & _)]; done.
    + rewrite list_elem_of_singleton. split; [by right |].
      intros [(? & _) | (_ & _ & ->)]; done.
Qed.

(** One turn of the loop, when its lookups succeed. *)
Lemma validate_operation_resolved collections operations sa n op :
  (forall d, d ∈ depends_on op -> d ∈ dict_keys operations) ->
  collection_name op ∈ dict_keys collections ->
  validate_operation collections operations sa n op
  = (operation_warnings collections operations n op,
     Ok (services_actions_add sa op)).
Proof.
  intros Hdeps Hcoll. unfold validate_operation, operation_warnings.
  pose proof (validate_dependencies_Ok operations n op (depends_on op) Hdeps)
    as Hd.
  pose proof (validate_playbook_Ok collections n op Hcoll) as Hp.
  destruct (validate_dependencies operations n op (depends_on op))
    as [ws1 r1]. simpl in Hd. subst r1.
  destruct (validate_playbook collections n op) as [ws3 r3]. simpl in Hp.
  subst r3. simpl. unfold services_actions_add.
  by destruct (is_service op).
Qed.

(** The whole loop, when its lookups succeed. *)
Lemma validate_operations_resolved collections operations items :
  forall sa,
  (forall n op d, (n, op) ∈ items -> d ∈ depends_on op ->
     d ∈ dict_keys operations) ->
  (forall n op, (n, op) ∈ items -> collection_name op ∈ dict_keys collections) ->
  validate_operations collections operations sa items
  = (flat_map (fun no => operation_warnings collections operations no.1 no.2)
       items,
     Ok (fold_left (fun sa no => services_actions_add sa no.2) items sa)).
Proof.
  induction items as [|[n op] items IH]; intros sa Hdeps Hcoll; simpl; [done |].
  rewrite validate_operation_resolved.
  - rewrite IH; [done | |].
    + intros n' op' d Hin. apply (Hdeps n' op' d). by right.
    + intros n' op' Hin. apply (Hcoll n' op'). by right.
  - intros d. apply (Hdeps n op d). left.
  - apply (Hcoll n op). left.
Qed.

Lemma validate_operations_dict_resolved collections operations :
  resolved collections operations ->
  validate_operations_dict collections operations
  = (flat_map (fun no => operation_warnings collections operations no.1 no.2)
       operations
     ++ validate_services
          (fold_left (fun sa no => services_actions_add sa no.2) operations []),
     Ok tt).
Proof.
  intros [Hdeps Hcoll]. unfold validate_operations_dict.
  by rewrite validate_operations_resolved.
Qed.

(** The warnings of the services. *)
Lemma validate_services_spec sa w :
  w ∈ validate_services sa <->
  exists sv acts, (sv, acts) ∈ sa /\ ~ actions_for_service ⊆ acts /\
    w = MissingActions sv acts.
Proof.
  unfold validate_services. rewrite list_elem_of_In, in_flat_map. split.
  - intros ([sv acts] & Hin & Hw). apply list_elem_of_In in Hin.
    destruct (bool_decide (actions_for_service ⊆ acts)) eqn:Hb;
      [done |].
    apply bool_decide_eq_false in Hb. destruct Hw as [<- | []]. eauto.
  - intros (sv & acts & Hin & Hsub & ->). exists (sv, acts).
    split; [by apply list_elem_of_In |].
    rewrite (bool_decide_eq_false_2 _ Hsub). by left.
Qed.

(** The kinds of the warnings of one turn. *)
Lemma operation_warnings_spec collections operations n op coll w :
  (forall d, d ∈ depends_on op -> d ∈ dict_keys operations) ->
  dict_get (collection_name op) collections = Some coll ->
  w ∈ operation_warnings collections operations n op <->
  (exists d dop, d ∈ depends_on op /\ dict_get d operations = Some dop /\
     ((endswith d "_start" = true /\ service dop <> service op /\
       w = StartOutsideService n (service op) d (service dop)
             (collection_name op)) \/
      (endswith n "_install" = true /\ endswith d "_install" = false /\
       w = InstallDependsOnOther n d (collection_name op)))) \/
  (is_service op = true /\ w ∈ validate_previous_action n op) \/
  (noop op = true /\ n ∈ Collection.operations coll /\
   w = NoopWithPlaybook n (collection_name op)) \/
  (noop op = false /\ (n ∉ Collection.operations coll) /\
   w = MissingPlaybook n (collection_name op)).
Proof.
  intros Hdeps Hc. unfold operation_warnings.
  rewrite !elem_of_app, (validate_dependencies_resolved _ _ _ _ Hdeps),
    (validate_playbook_resolved _ _ _ _ Hc).
  destruct (is_service op); [tauto |].
  split; [| intros [? | [[? _] | ?]]; [tauto | done | tauto]].
  intros [? | [H | ?]]; [tauto | by apply elem_of_nil in H | tauto].
Qed.

(** The warnings of the loop: those of its turns. *)
Lemma elem_of_operations_warnings collections operations items w :
  w ∈ flat_map (fun no => operation_warnings collections operations no.1 no.2)
        items
  <-> exists n op, (n, op) ∈ items /\
        w ∈ operation_warnings collections operations n op.
Proof.
  rewrite list_elem_of_In, in_flat_map. split.
  - intros ([n op] & Hin & Hw). exists n, op.
    by rewrite !list_elem_of_In.
  - intros (n & op & Hin & Hw). exists (n, op).
    by rewrite <- !list_elem_of_In.
Qed.

(** Every warning of [validate], when its lookups succeed. *)
Lemma validate_log_spec collections operations w :
  resolved collections operations ->
  w ∈ fst (validate_operations_dict collections operations) <->
  (exists n op coll, (n, op) ∈ operations /\
     dict_get (collection_name op) collections = Some coll /\
     ((exists d dop, d ∈ depends_on op /\ dict_get d operations = Some dop /\
         ((endswith d "_start" = true /\ service dop <> service op /\
           w = StartOutsideService n (service op) d (service dop)
                 (collection_name op)) \/
          (endswith n "_install" = true /\ endswith d "_install" = false /\
           w = InstallDependsOnOther n d (collection_name op)))) \/
      (is_service op = true /\
       exists previous,
         previous_action (action op) = Some previous /\
         ((service op +:+ "_" +:+ previous) ∉ depends_on op) /\
         w = MissingPreviousAction n (service op) previous
               (collection_name op)) \/
      (noop op = true /\ n ∈ Collection.operations coll /\
       w = NoopWithPlaybook n (collection_name op)) \/
      (noop op = false /\ (n ∉ Collection.operations coll) /\
       w = MissingPlaybook n (collection_name op)))) \/
  (exists sv acts,
     (sv, acts) ∈ fold_left (fun sa no => services_actions_add sa no.2)
                    operations [] /\
     ~ actions_for_service ⊆ acts /\ w = MissingActions sv acts).
Proof.
  intros Hres. rewrite (validate_operations_dict_resolved _ _ Hres). simpl.
  destruct Hres as [Hdeps Hcoll].
  rewrite elem_of_app, validate_services_spec, elem_of_operations_warnings.
  apply or_iff_compat_r. split.
  - intros (n & op & Hin & Hw).
    destruct (proj2 (dict_get_is_Some _ _) (Hcoll n op Hin)) as [coll Hc].
    exists n, op, coll. split; [done |]. split; [done |].
    apply (operation_warnings_spec collections operations n op coll w) in Hw;
      [| intros d; by apply (Hdeps n op d) | done].
    by rewrite validate_previous_action_spec in Hw.
  - intros (n & op & coll & Hin & Hc & Hw). exists n, op. split; [done |].
    apply (operation_warnings_spec collections operations n op coll w);
      [intros d; by apply (Hdeps n op d) | done |].
    by rewrite validate_previous_action_spec.
Qed.

(** ** The actions of the services *)

Lemma dict_set_keys {V} k k' (v : V) d :
  k ∈ dict_keys (dict_set k' v d) <-> k ∈ dict_keys d \/ k = k'.
Proof.
  rewrite dict_keys_set. destruct (dict_contains k' d) eqn:Hc.
  - apply dict_contains_true in Hc. split; [auto |]. by intros [? | ->].
  - rewrite elem_of_app, list_elem_of_singleton. tauto.
Qed.

Lemma dict_set_NoDup {V} k (v : V) d :
  NoDup (dict_keys d) -> NoDup (dict_keys (dict_set k v d)).
Proof.
  intros Hnd. rewrite dict_keys_set.
  destruct (dict_contains k d) eqn:Hc; [done |].
  apply NoDup_app. split; [done |]. split; [| apply NoDup_singleton].
  intros k' Hk Hk'. apply list_elem_of_singleton in Hk' as ->.
  apply dict_contains_true in Hk. congruence.
Qed.

Lemma services_actions_add_get sa op sv a :
  a ∈ dict_get_default sv ∅ (services_actions_add sa op) <->
  a ∈ dict_get_default sv ∅ sa \/
  (service op = sv /\ is_service op = true /\ action op = a).
Proof.
  unfold services_actions_add. rewrite dict_get_default_set.
  destruct (String.eqb sv (service op)) eqn:He.
  - apply String.eqb_eq in He as ->. destruct (is_service op).
    + rewrite elem_of_union, elem_of_singleton. split.
      * intros [? | ->]; auto.
      * intros [? | (_ & _ & ->)]; auto.
    + split; [auto |]. by intros [? | (_ & ? & _)].
  - apply String.eqb_neq in He. split; [auto |].
    intros [? | (Hc & _)]; [done | congruence].
Qed.

(** The loop of [validate] over [services_actions]: every service of an
    operation gets an entry, with the actions of its service operations. *)
Lemma services_actions_fold items :
  forall sa, NoDup (dict_keys sa) ->
  NoDup (dict_keys
           (fold_left (fun sa no => services_actions_add sa no.2) items sa)) /\
  (forall k,
     k ∈ dict_keys
           (fold_left (fun sa no => services_actions_add sa no.2) items sa)
     <-> k ∈ dict_keys sa \/
         exists (n : string) op, (n, op) ∈ items /\ service op = k) /\
  (forall sv a,
     a ∈ dict_get_default sv ∅
           (fold_left (fun sa no => services_actions_add sa no.2) items sa)
     <-> a ∈ dict_get_default sv ∅ sa \/
         exists (n : string) op, (n, op) ∈ items /\ service op = sv /\
           is_service op = true /\ action op = a).
Proof.
  induction items as [|[n op] items IH]; intros sa Hnd; simpl.
  - split; [done |]. split.
    + intros k. split; [auto |]. intros [? | (n & op & Hin & _)]; [done |].
      by apply elem_of_nil in Hin.
    + intros sv a. split; [auto |]. intros [? | (n & op & Hin & _)]; [done |].
      by apply elem_of_nil in Hin.
  - destruct (IH (services_actions_add sa op)) as (H1 & H2 & H3).
    { by apply dict_set_NoDup. }
    split; [done |]. split.
    + intros k. rewrite H2. unfold services_actions_add at 1.
      rewrite dict_set_keys. split.
      * intros [[? | ->] | (n' & op' & Hin & Hs)]; [by left | |].
        -- right. exists n, op. split; [left | done].
        -- right. exists n', op'. split; [by right | done].
      * intros [? | (n' & op' & Hin & Hs)]; [by left; left |].
        apply elem_of_cons in Hin as [[= -> ->] | Hin]; [by left; right |].
        right. eauto.
    + intros sv a. rewrite H3, services_actions_add_get. split.
      * intros [[? | Hop] | (n' & op' & Hin & Hs)]; [by left | |].
        -- right. exists n, op. split; [left | done].
        -- right. exists n', op'. split; [by right | done].
      * intros [? | (n' & op' & Hin & Hs)]; [by left; left |].
        apply elem_of_cons in Hin as [[= -> ->] | Hin]; [by left; right |].
        right. eauto.
Qed.

(** An operation whose collection is not in the mapping. *)
Lemma validate_operations_unknown_collection collections operations items :
  forall services_actions,
  (exists n op, (n, op) ∈ items /\
     collection_name op ∉ dict_keys collections) ->
  exists k,
    snd (validate_operations collections operations services_actions items)
    = Raise (KeyError k).
Proof.
  induction items as [|[n op] items IH]; intros sa (n' & op' & Hin & Hk);
    [by apply elem_of_nil in Hin |].
  simpl.
  pose proof (validate_operation_raises collections operations sa n op) as Hr.
  destruct (validate_operation collections operations sa n op)
    as [ws [sa'|e]] eqn:Hop; simpl in *.
  - apply elem_of_cons in Hin as [[= <- <-] | Hin].
    + exfalso. unfold validate_operation in Hop.
      destruct (validate_dependencies operations n' op' (depends_on op'))
        as [ws1 [[]|e1]]; [| done].
      unfold validate_playbook in Hop.
      apply dict_get_None in Hk. rewrite Hk in Hop. done.
    + destruct (IH sa') as [k Hk']; [by exists n', op' |].
      destruct (validate_operations collections operations sa' items).
      simpl in *. eauto.
  - destruct (Hr e eq_refl) as [k ->]. eauto.
Qed.

(** ** How far the loop of [validate] gets *)



(** The body of [validate] ends without exception exactly when its lookups
    succeed. *)
Lemma validate_operations_dict_Ok_iff collections operations :
  snd (validate_operations_dict collections operations) = Ok tt
  <-> resolved collections operations.
Proof.
  split.
  - intros Hok. split.
    + intros n op d Hin Hd.
      destruct (decide (d ∈ dict_keys operations)) as [? | Hno]; [done |].
      destruct (validate_operations_unknown collections operations operations [])
        as [k Hk]; [by exists n, op, d |].
      unfold validate_operations_dict in Hok.
      destruct (validate_operations collections operations [] operations)
        as [ws r]. simpl in Hk. subst r. done.
    + intros n op Hin.
      destruct (decide (collection_name op ∈ dict_keys collections))
        as [? | Hno]; [done |].
      destruct (validate_operations_unknown_collection collections operations
                  operations []) as [k Hk]; [by exists n, op |].
      unfold validate_operations_dict in Hok.
      destruct (validate_operations collections operations [] operations)
        as [ws r]. simpl in Hk. subst r. done.
  - intros Hres. by rewrite (validate_operations_dict_resolved _ _ Hres).
Qed.





(** ** The rules of [validate] *)

(** X13.  When the lookups of [validate] succeed, it warns that an install
    action depends on something else exactly for the pairs of an operation
    whose name ends in [_install] and one of its dependencies whose name does
    not. *)
Theorem validate_install_dependencies collections operations :
  resolved collections operations ->
  forall n d c,
    InstallDependsOnOther n d c
      ∈ fst (validate_operations_dict collections operations)
    <-> exists op, (n, op) ∈ operations /\ d ∈ depends_on op /\
          endswith n "_install" = true /\ endswith d "_install" = false /\
          c = collection_name op.
Proof.
  intros Hres n d c. rewrite (validate_log_spec _ _ _ Hres). split.
  - intros [(n' & op & coll & Hin & _ & Hw) | (sv & acts & _ & _ & Hw)];
      [| done].
    destruct Hw as [(d' & dop & Hd & _ & [(_ & _ & Hw) | (Hi & Hj & Hw)])
                   | [(_ & p & _ & _ & Hw) | [(_ & _ & Hw) | (_ & _ & Hw)]]];
      try done.
    injection Hw as -> -> ->. eauto 10.
  - intros (op & Hin & Hd & Hi & Hj & ->). left.
    destruct Hres as [Hdeps Hcoll].
    destruct (proj2 (dict_get_is_Some _ _) (Hcoll n op Hin)) as [coll Hc].
    destruct (proj2 (dict_get_is_Some _ _) (Hdeps n op d Hin Hd)) as [dop Hdop].
    exists n, op, coll. split; [done |]. split; [done |]. left.
    exists d, dop. split; [done |]. split; [done |]. by right.
Qed.

(** X14.  When the lookups of [validate] succeed, it warns about a start
    action required from outside its service exactly for the pairs of an
    operation and one of its dependencies whose name ends in [_start] and
    whose service is not the service of the operation. *)
Theorem validate_start_dependencies collections operations :
  resolved collections operations ->
  forall n sv d dsv c,
    StartOutsideService n sv d dsv c
      ∈ fst (validate_operations_dict collections operations)
    <-> exists op dop, (n, op) ∈ operations /\ d ∈ depends_on op /\
          dict_get d operations = Some dop /\
          endswith d "_start" = true /\ service dop <> service op /\
          sv = service op /\ dsv = service dop /\ c = collection_name op.
Proof.
  intros Hres n sv d dsv c. rewrite (validate_log_spec _ _ _ Hres). split.
  - intros [(n' & op & coll & Hin & _ & Hw) | (sv' & acts & _ & _ & Hw)];
      [| done].
    destruct Hw as [(d' & dop & Hd & Hdop & [(Hs & Hne & Hw) | (_ & _ & Hw)])
                   | [(_ & p & _ & _ & Hw) | [(_ & _ & Hw) | (_ & _ & Hw)]]];
      try done.
    injection Hw as -> -> -> -> ->. exists op, dop. eauto 10.
  - intros (op & dop & Hin & Hd & Hdop & Hs & Hne & -> & -> & ->). left.
    destruct Hres as [_ Hcoll].
    destruct (proj2 (dict_get_is_Some _ _) (Hcoll n op Hin)) as [coll Hc].
    exists n, op, coll. split; [done |]. split; [done |]. left.
    exists d, dop. split; [done |]. split; [done |]. by left.
Qed.

(** X15.  When the lookups of [validate] succeed, it warns about a noop
    operation with a playbook exactly for the operations tagged noop whose
    name is among the playbooks of their collection, and about a missing
    playbook exactly for the operations not tagged noop whose name is not
    among them. *)
Theorem validate_playbooks collections operations :
  resolved collections operations ->
  forall n c,
    (NoopWithPlaybook n c ∈ fst (validate_operations_dict collections operations)
     <-> exists op coll, (n, op) ∈ operations /\
           dict_get (collection_name op) collections = Some coll /\
           noop op = true /\ n ∈ Collection.operations coll /\
           c = collection_name op) /\
    (MissingPlaybook n c ∈ fst (validate_operations_dict collections operations)
     <-> exists op coll, (n, op) ∈ operations /\
           dict_get (collection_name op) collections = Some coll /\
           noop op = false /\ (n ∉ Collection.operations coll) /\
           c = collection_name op).
Proof.
  intros Hres n c. rewrite !(validate_log_spec _ _ _ Hres). split; split.
  - intros [(n' & op & coll & Hin & Hc & Hw) | (sv' & acts & _ & _ & Hw)];
      [| done].
    destruct Hw as [(d' & dop & _ & _ & [(_ & _ & Hw) | (_ & _ & Hw)])
                   | [(_ & p & _ & _ & Hw) | [(Hn & Hp & Hw) | (_ & _ & Hw)]]];
      try done.
    injection Hw as -> ->. exists op, coll. eauto 10.
  - intros (op & coll & Hin & Hc & Hn & Hp & ->). left.
    exists n, op, coll. split; [done |]. split; [done |]. right. right. by left.
  - intros [(n' & op & coll & Hin & Hc & Hw) | (sv' & acts & _ & _ & Hw)];
      [| done].
    destruct Hw as [(d' & dop & _ & _ & [(_ & _ & Hw) | (_ & _ & Hw)])
                   | [(_ & p & _ & _ & Hw) | [(_ & _ & Hw) | (Hn & Hp & Hw)]]];
      try done.
    injection Hw as -> ->. exists op, coll. eauto 10.
  - intros (op & coll & Hin & Hc & Hn & Hp & ->). left.
    exists n, op, coll. split; [done |]. split; [done |]. right. right.
    by right.
Qed.

(** X16.  When the lookups of [validate] succeed, it warns about the missing
    actions of a service exactly for the services of the operations whose
    service operations (those for which [is_service()] holds) do not have the
    four actions [install], [config], [start] and [init] among them; the
    warning carries the set of the actions of these service operations. *)
Theorem validate_missing_actions collections operations :
  resolved collections operations ->
  forall sv acts,
    MissingActions sv acts
      ∈ fst (validate_operations_dict collections operations)
    <-> (exists n op, (n, op) ∈ operations /\ service op = sv) /\
        (forall a, a ∈ acts <->
           exists n op, (n, op) ∈ operations /\ service op = sv /\
             is_service op = true /\ action op = a) /\
        ~ actions_for_service ⊆ acts.
Proof.
  intros Hres sv acts. rewrite (validate_log_spec _ _ _ Hres).
  destruct (services_actions_fold operations []) as (Hnd & Hkeys & Hget);
    [constructor |].
  set (sa := fold_left (fun sa no => services_actions_add sa no.2)
               operations []) in *.
  assert (forall k, k ∈ dict_keys sa
            <-> exists (n : string) op, (n, op) ∈ operations /\ service op = k)
    as Hkeys'.
  { intros k. rewrite Hkeys. split; [| auto].
    intros [Hc | ?]; [by apply elem_of_nil in Hc | done]. }
  assert (forall s a, a ∈ dict_get_default s ∅ sa
            <-> exists (n : string) op, (n, op) ∈ operations /\ service op = s /\
                  is_service op = true /\ action op = a) as Hget'.
  { intros s a. rewrite Hget. split; [| auto].
    intros [Hc | ?]; [| done]. by apply elem_of_empty in Hc. }
  split.
  - intros [(n' & op & coll & _ & _ & Hw) | (sv' & acts' & Hin & Hsub & Hw)].
    { destruct Hw as [(d' & dop & _ & _ & [(_ & _ & Hw) | (_ & _ & Hw)])
                     | [(_ & p & _ & _ & Hw) | [(_ & _ & Hw) | (_ & _ & Hw)]]];
        done. }
    injection Hw as <- <-.
    pose proof (dict_get_NoDup _ _ _ Hnd Hin) as Hsv.
    split; [| split; [| done]].
    + apply Hkeys', dict_get_is_Some. eauto.
    + intros a. rewrite <- Hget'. unfold dict_get_default. by rewrite Hsv.
  - intros (Hsv & Hacts & Hsub). right. exists sv, acts.
    split; [| done].
    apply Hkeys', dict_get_is_Some in Hsv as [acts' Hsv].
    assert (acts' = acts) as <-; [| by apply dict_get_Some_elem].
    apply leibniz_equiv. intros a. rewrite Hacts, <- Hget'.
    unfold dict_get_default. by rewrite Hsv.
Qed.

(** X17.  The method [validate] returns without an exception exactly when
    the dictionary that [self.operations] gives it (the cached one, or, when
    none is cached, the merge of the collections, which needs that no name
    is declared twice) has every dependency of every operation among its
    keys and the collection of every operation in the mapping.  Otherwise it
    raises a [KeyError], or, when no dictionary is cached, the [ValueError]
    of the merge. *)
Theorem validate_Ok_iff s :
  (value (validate s) = Ok tt <->
   exists ops,
     (_operations s = Some ops \/
      (_operations s = None /\
       merge_collections (_collections s) [] = Ok ops)) /\
     resolved (_collections s) ops) /\
  (forall e, value (validate s) = Raise e ->
     (exists k, e = KeyError k) \/
     (_operations s = None /\
      exists m, e = ValueError m /\
        merge_collections (_collections s) [] = Raise (ValueError m))).
Proof.
  destruct (_operations s) as [ops|] eqn:Hops.
  - assert (value (validate s)
            = snd (validate_operations_dict (_collections s) ops)) as ->.
    { unfold validate.
      rewrite (run_bind_pure _ _ _ _ _ (operations_cached s ops Hops)).
      run. by unfold lift_logged. }
    split.
    + rewrite validate_operations_dict_Ok_iff. split.
      * intros Hres. exists ops. split; [by left | done].
      * intros (ops' & [[= <-] | [? _]] & Hres); done.
    + intros e He. left. by apply (validate_operations_dict_raises _ _ _ He).
  - pose proof (operations_run s Hops) as Hrun.
    destruct (merge_collections (_collections s) []) as [ops|e0] eqn:Hmerge.
    + destruct (snd (validate_operations_dict (_collections s) ops))
        as [[]|e1] eqn:Hv.
      * assert (value (validate s) = Ok tt) as ->.
        { unfold validate. rewrite run_bind, Hrun. cbn [value state log]. run.
          unfold lift_logged. cbn. by rewrite Hv. }
        split; [| done]. split; [| done]. intros _. exists ops.
        split; [by right |]. by apply validate_operations_dict_Ok_iff.
      * assert (value (validate s) = Raise e1) as ->.
        { unfold validate. by rewrite run_bind, Hrun. }
        split.
        -- split; [done |].
           intros (ops' & [? | [_ [= <-]]] & Hres); [done |].
           apply validate_operations_dict_Ok_iff in Hres. congruence.
        -- intros e [= <-]. left.
           by apply (validate_operations_dict_raises _ _ _ Hv).
    + assert (value (validate s) = Raise e0) as ->.
      { unfold validate. by rewrite run_bind, Hrun. }
      split.
      * split; [done |]. by intros (ops' & [? | [_ ?]] & _).
      * intros e [= <-]. right. split; [done |].
        destruct (decide (NoDup (declared_names
                                   (all_declarations (_collections s)))))
          as [Hnd | Hnd].
        -- rewrite (merge_collections_NoDup _ Hnd) in Hmerge. done.
        -- destruct (merge_collections_dup _ Hnd) as [m Hm].
           exists m. split; congruence.
Qed.

(** X18.  Called on an object whose operations are not cached, the method
    [validate] runs its checks twice: once inside the getter of [operations]
    that its loop calls, and once in its own loop; every warning is logged
    twice.  A second call logs them once. *)
Theorem validate_logs_twice s ops :
  _operations s = None ->
  merge_collections (_collections s) [] = Ok ops ->
  snd (validate_operations_dict (_collections s) ops) = Ok tt ->
  value (validate s) = Ok tt /\
  log (validate s)
  = fst (validate_operations_dict (_collections s) ops)
    ++ fst (validate_operations_dict (_collections s) ops) /\
  log (validate (state (validate s)))
  = fst (validate_operations_dict (_collections s) ops).
Proof.
  intros Hops Hmerge Hok. pose proof (operations_run s Hops) as Hrun.
  rewrite Hmerge, Hok in Hrun.
  assert (forall t, _operations t = Some ops -> _collections t = _collections s ->
            validate t
            = {| value := Ok tt; state := t;
                 log := fst (validate_operations_dict (_collections s) ops) |})
    as Hcached.
  { intros t Ht Hc. unfold validate.
    rewrite (run_bind_pure _ _ _ _ _ (operations_cached t ops Ht)).
    run. unfold lift_logged. by rewrite Hc, Hok. }
  assert (validate s
          = {| value := Ok tt; state := set__operations (Some ops) s;
               log := fst (validate_operations_dict (_collections s) ops)
                      ++ fst (validate_operations_dict (_collections s) ops) |})
    as Hfirst.
  { unfold validate. rewrite run_bind, Hrun. cbn [value state log]. run.
    unfold lift_logged. cbn. by rewrite Hok. }
  rewrite Hfirst. cbn [value state log]. split; [done |]. split; [done |].
  by rewrite Hcached.
Qed.

(** The lookups of [validate] succeed on [warned_operations]. *)
Lemma warned_resolved : resolved warned_collections warned_operations.
Proof.
  split.
  - intros n op d Hin Hd. apply list_contains_true.
    apply elem_of_cons in Hin as [[= -> ->] | Hin].
    + apply list_elem_of_singleton in Hd as ->. reflexivity.
    + apply list_elem_of_singleton in Hin as [= -> ->].
      by apply elem_of_nil in Hd.
  - intros n op Hin. apply list_contains_true.
    apply elem_of_cons in Hin as [[= -> ->] | Hin]; [reflexivity |].
    apply list_elem_of_singleton in Hin as [= -> ->]. reflexivity.
Qed.

(** X13 on [warned_operations]: [a_install] depends on [b_start]. *)
Lemma validate_install_dependencies_witness :
  resolved warned_collections warned_operations /\
  InstallDependsOnOther "a_install" "b_start" "c"
    ∈ fst (validate_operations_dict warned_collections warned_operations).
Proof.
  split; [exact warned_resolved |].
  apply (validate_install_dependencies warned_collections warned_operations
           warned_resolved "a_install" "b_start" "c").
  exists (Operation_init "c" (entry "a_install" ["b_start"] "a" "install" true)).
  split; [left |]. split; [left |]. repeat split; reflexivity.
Defined.

(** X14 on [warned_operations]: [b_start] is a start action of the service
    [b], required by an operation of the service [a]. *)
Lemma validate_start_dependencies_witness :
  resolved warned_collections warned_operations /\
  StartOutsideService "a_install" "a" "b_start" "b" "c"
    ∈ fst (validate_operations_dict warned_collections warned_operations).
Proof.
  split; [exact warned_resolved |].
  apply (validate_start_dependencies warned_collections warned_operations
           warned_resolved "a_install" "a" "b_start" "b" "c").
  exists (Operation_init "c" (entry "a_install" ["b_start"] "a" "install" true)),
    (Operation_init "c"
       {| decl_name := "b_start"; decl_depends_on := []; decl_noop := true;
          decl_service := "b"; decl_action := "start";
          decl_is_service := true |}).
  split; [left |]. split; [left |]. split; [reflexivity |].
  split; [reflexivity |]. split; [discriminate |]. repeat split; reflexivity.
Defined.

(** X15 on [warned_operations]: the noop [b_start] has a playbook, and
    [a_install] has none. *)
Lemma validate_playbooks_witness :
  resolved warned_collections warned_operations /\
  NoopWithPlaybook "b_start" "c"
    ∈ fst (validate_operations_dict warned_collections warned_operations) /\
  MissingPlaybook "a_install" "c"
    ∈ fst (validate_operations_dict warned_collections warned_operations).
Proof.
  split; [exact warned_resolved |]. split.
  - apply (validate_playbooks warned_collections warned_operations
             warned_resolved "b_start" "c").
    eexists _, _. split; [right; left |]. split; [reflexivity |].
    split; [reflexivity |]. split; [left | reflexivity].
  - apply (validate_playbooks warned_collections warned_operations
             warned_resolved "a_install" "c").
    eexists _, _. split; [left |]. split; [reflexivity |].
    split; [reflexivity |]. split; [| reflexivity].
    apply list_contains_false. reflexivity.
Defined.

(** X16 on [warned_operations]: the service [a] has the action [install]
    only. *)
Lemma validate_missing_actions_witness :
  resolved warned_collections warned_operations /\
  MissingActions "a" {["install"]}
    ∈ fst (validate_operations_dict warned_collections warned_operations).
Proof.
  split; [exact warned_resolved |].
  apply (validate_missing_actions warned_collections warned_operations
           warned_resolved "a" {["install"]}).
  split; [| split].
  - eexists _, _. split; [left | reflexivity].
  - intros a. rewrite elem_of_singleton. split.
    + intros ->. eexists _, _. split; [left |]. repeat split; reflexivity.
    + intros (n & op & Hin & Hs & _ & <-).
      apply elem_of_cons in Hin as [[= -> ->] | Hin]; [reflexivity |].
      apply list_elem_of_singleton in Hin as [= -> ->]. discriminate.
  - intros Hsub. specialize (Hsub "config").
    rewrite elem_of_singleton in Hsub.
    assert ("config" = "install") as Hc; [| discriminate].
    apply Hsub. unfold actions_for_service. set_solver.
Defined.

(** X18 on a new object made from [warned_collections]. *)
Lemma validate_logs_twice_witness :
  _operations (Dag_init warned_collections) = None /\
  merge_collections warned_collections [] = Ok warned_operations /\
  snd (validate_operations_dict warned_collections warned_operations) = Ok tt /\
  value (validate (Dag_init warned_collections)) = Ok tt /\
  log (validate (Dag_init warned_collections))
  = fst (validate_operations_dict warned_collections warned_operations)
    ++ fst (validate_operations_dict warned_collections warned_operations) /\
  log (validate (state (validate (Dag_init warned_collections))))
  = fst (validate_operations_dict warned_collections warned_operations).
Proof.
  split; [reflexivity |]. split; [reflexivity |].
  split; [vm_compute; reflexivity |].
  apply (validate_logs_twice (Dag_init warned_collections) warned_operations);
    [reflexivity | reflexivity | vm_compute; reflexivity].
Defined.

(** ** Patterns without a special character *)

Lemma regex_match_Cat_Eps r s : regex_match (Cat Eps r) s = regex_match r s.
Proof.
  destruct s as [|c s]; simpl; [done |]. by destruct (derivative c r).
Qed.

Lemma regex_match_literal p s : regex_match (literal p) s = String.prefix p s.
Proof.
  revert s. induction p as [|c p IH]; intros s.
  - by destruct s.
  - destruct s as [|a s]; [done |].
    cbn [literal regex_match nullable derivative andb orb String.prefix].
    destruct (ascii_dec c a) as [-> | Hne].
    + rewrite Ascii.eqb_refl. cbn. by rewrite regex_match_Cat_Eps.
    + assert (Ascii.eqb a c = false) as -> by (apply Ascii.eqb_neq; congruence).
      done.
Qed.

(** ** The mapping of [from_collections] *)

Lemma from_collections_fold (l : list Collection) n :
  forall d,
  dict_get n (fold_left (fun d c => dict_set (Collection.name c) c d) l d)
  = match last (filter (fun c => Collection.name c = n) l) with
    | Some c => Some c
    | None => dict_get n d
    end.
Proof.
  induction l as [|c l IH]; intros d; simpl; [done |].
  rewrite IH, filter_cons, dict_get_set.
  destruct (decide (Collection.name c = n)) as [<- | Hne].
  - rewrite last_cons, String.eqb_refl.
    by destruct (last (filter _ l)).
  - apply not_eq_sym, String.eqb_neq in Hne. by rewrite Hne.
Qed.

Lemma from_collections_NoDup (l : list Collection) :
  forall d, NoDup (dict_keys d) ->
  NoDup (dict_keys
           (fold_left (fun d c => dict_set (Collection.name c) c d) l d)).
Proof.
  induction l as [|c l IH]; intros d Hnd; simpl; [done |].
  by apply IH, dict_set_NoDup.
Qed.

Lemma prefix_append p s : String.prefix p s = true <-> exists t, s = p +:+ t.
Proof.
  revert s. induction p as [|c p IH]; intros s.
  - split; [| by destruct s]. intros _. exists s. by rewrite append_empty_l.
  - destruct s as [|a s]; simpl.
    + split; [done |]. intros [t Ht]. by rewrite append_cons in Ht.
    + destruct (ascii_dec c a) as [-> | Hne].
      * rewrite IH. split; intros [t Ht]; exists t.
        -- by rewrite append_cons, Ht.
        -- rewrite append_cons in Ht. by injection Ht.
      * split; [done |]. intros [t Ht]. rewrite append_cons in Ht.
        injection Ht as ? ?. congruence.
Qed.

(** X19.  With a pattern made of ordinary characters only,
    [filter_operations_regex] keeps exactly the operations that start with
    these characters: the match is anchored at the start of the name and not
    at its end. *)
Theorem filter_operations_regex_literal operations p :
  filter_operations_regex operations (literal p)
  = List.filter (String.prefix p) operations /\
  forall s, s ∈ filter_operations_regex operations (literal p)
            <-> s ∈ operations /\ exists t, s = p +:+ t.
Proof.
  unfold filter_operations_regex. split.
  - apply List.filter_ext. intros s. apply regex_match_literal.
  - intros s. rewrite list_elem_of_In, List.filter_In, <- list_elem_of_In.
    by rewrite regex_match_literal, prefix_append.
Qed.

(** X21.  [from_collections] makes an object without any cache whose
    mapping has one entry for each name of a collection; the entry of a name
    is the last collection of the sequence with that name, so a later
    collection replaces an earlier one of the same name without an error. *)
Theorem from_collections_names l :
  NoDup (dict_keys (_collections (from_collections l))) /\
  (forall n, dict_get n (_collections (from_collections l))
             = last (filter (fun c => Collection.name c = n) l)) /\
  _operations (from_collections l) = None /\
  _graph (from_collections l) = None /\
  _services_operations (from_collections l) = None /\
  _services (from_collections l) = None.
Proof.
  split; [| split; [| done]].
  - apply from_collections_NoDup. constructor.
  - intros n. unfold from_collections. simpl. rewrite from_collections_fold.
    by destruct (last _).
Qed.

(** ** [sorted] does not depend on the order of its argument *)

Lemma string_leb_total a b : String.leb a b = false -> String.leb b a = true.
Proof.
  unfold String.leb. rewrite (String.compare_antisym a b).
  by destruct (String.compare b a).
Qed.

Lemma string_leb_antisym a b :
  String.leb a b = true -> String.leb b a = true -> a = b.
Proof.
  intros H1 H2. apply string_leb_iff in H1, H2.
  destruct H1 as [? | H1]; [done |]. destruct H2 as [? | H2]; [done |].
  destruct (StrictOrder_Irreflexive a). by etransitivity.
Qed.

Lemma insert_sorted_ascending x l :
  ascending l -> ascending (insert_sorted x l).
Proof.
  induction l as [|y l IH]; simpl.
  - intros _. split; [| done]. intros y Hy. by apply elem_of_nil in Hy.
  - intros [Hy Hl]. destruct (String.leb x y) eqn:Hxy; simpl.
    + split; [| done]. intros z Hz.
      apply elem_of_cons in Hz as [-> | Hz]; [done |].
      apply (string_leb_trans x y z); auto.
    + split; [| by apply IH]. intros z Hz.
      rewrite insert_sorted_perm in Hz.
      apply elem_of_cons in Hz as [-> | Hz]; [| auto].
      by apply string_leb_total.
Qed.

Lemma sorted_ascending l : ascending (sorted l).
Proof.
  induction l as [|x l IH]; simpl; [done |]. by apply insert_sorted_ascending.
Qed.

Lemma ascending_unique l1 :
  forall l2, ascending l1 -> ascending l2 -> l1 ≡ₚ l2 -> l1 = l2.
Proof.
  induction l1 as [|x l1 IH]; intros l2 H1 H2 Hperm.
  - by apply Permutation_nil_l in Hperm.
  - destruct l2 as [|y l2]; [by apply Permutation_nil_r in Hperm |].
    destruct H1 as [Hx H1], H2 as [Hy H2].
    assert (x = y) as ->.
    { assert (x ∈ y :: l2) as Hxin by (rewrite <- Hperm; left).
      assert (y ∈ x :: l1) as Hyin by (rewrite Hperm; left).
      apply elem_of_cons in Hxin as [? | Hxin]; [done |].
      apply elem_of_cons in Hyin as [? | Hyin]; [done |].
      apply string_leb_antisym; auto. }
    f_equal. apply IH; [done | done |]. by apply Permutation_cons_inv in Hperm.
Qed.

Lemma sorted_Permutation l1 l2 : l1 ≡ₚ l2 -> sorted l1 = sorted l2.
Proof.
  intros Hperm. apply ascending_unique; [apply sorted_ascending.. |].
  by rewrite !sorted_perm.
Qed.

(** ** Dictionaries with the same entries *)

Lemma dict_get_Permutation {V} k (d1 d2 : dict V) :
  NoDup (dict_keys d1) -> d1 ≡ₚ d2 -> dict_get k d1 = dict_get k d2.
Proof.
  intros Hnd Hperm.
  assert (NoDup (dict_keys d2)) as Hnd2.
  { unfold dict_keys in *. by rewrite <- Hperm. }
  destruct (dict_get k d1) as [v|] eqn:H1.
  - apply dict_get_Some_elem in H1. rewrite Hperm in H1.
    symmetry. by apply dict_get_NoDup.
  - destruct (dict_get k d2) as [v|] eqn:H2; [| done].
    apply dict_get_Some_elem in H2. rewrite <- Hperm in H2.
    apply (dict_get_NoDup _ _ _ Hnd) in H2. congruence.
Qed.

Lemma add_dependencies_ext ops1 ops2 n deps :
  (forall k, dict_get k ops1 = dict_get k ops2) ->
  forall DG, add_dependencies ops1 n deps DG = add_dependencies ops2 n deps DG.
Proof.
  intros Hext. induction deps as [|d deps IH]; intros DG; simpl; [done |].
  unfold dict_contains. rewrite Hext. by destruct (dict_get d ops2).
Qed.

Lemma add_operations_ext ops1 ops2 names :
  (forall k, dict_get k ops1 = dict_get k ops2) ->
  forall DG, add_operations ops1 names DG = add_operations ops2 names DG.
Proof.
  intros Hext. induction names as [|n names IH]; intros DG; simpl; [done |].
  rewrite Hext. destruct (dict_get n ops2) as [op|]; [| done].
  rewrite (add_dependencies_ext ops1 ops2 _ _ Hext).
  by destruct (add_dependencies ops2 n (sorted (depends_on op)) DG).
Qed.

(** The graph depends on the entries of the dictionary, not on their
    order. *)
Lemma build_graph_Permutation ops1 ops2 :
  NoDup (dict_keys ops1) -> ops1 ≡ₚ ops2 -> build_graph ops1 = build_graph ops2.
Proof.
  intros Hnd Hperm. unfold build_graph.
  assert (sorted (dict_keys ops1) = sorted (dict_keys ops2)) as ->.
  { apply sorted_Permutation. unfold dict_keys. by rewrite Hperm. }
  apply add_operations_ext. intros k. by apply dict_get_Permutation.
Qed.

Lemma custom_key_Permutation ops1 ops2 node :
  NoDup (dict_keys ops1) -> ops1 ≡ₚ ops2 ->
  custom_key ops1 node = custom_key ops2 node.
Proof.
  intros Hnd Hperm. unfold custom_key.
  by rewrite (dict_get_Permutation node ops1 ops2 Hnd Hperm).
Qed.

(** ** The sort depends on the values of the key only *)

Section kahn_ext.
Context {Q : Type}.
Variables push1 push2 : string -> Q -> result Q.
Variable pop : Q -> option (string * Q).
Variable G : DiGraph.
Hypothesis push_ext : forall v q, push1 v q = push2 v q.

Lemma push_all_ext l : forall q, push_all push1 l q = push_all push2 l q.
Proof.
  induction l as [|v l IH]; intros q; simpl; [done |].
  rewrite push_ext. by destruct (push2 v q).
Qed.

Lemma relax_ext cs :
  forall indeg q, relax push1 cs indeg q = relax push2 cs indeg q.
Proof.
  induction cs as [|c cs IH]; intros indeg q; simpl; [done |].
  destruct (indeg !! c) as [d|]; [| done].
  destruct (d - 1 =? 0); [| done].
  rewrite push_ext. by destruct (push2 c q).
Qed.

Lemma kahn_loop_ext fuel :
  forall indeg q,
  kahn_loop push1 pop G fuel indeg q = kahn_loop push2 pop G fuel indeg q.
Proof.
  induction fuel as [|fuel IH]; intros indeg q; simpl; [done |].
  destruct (pop q) as [[node q']|]; [| done].
  destruct (list_contains node (nodes G)); [| done].
  rewrite relax_ext.
  destruct (relax push2 (successors G node) indeg q') as [[indeg' q'']|];
    [| done].
  by rewrite IH.
Qed.

Lemma kahn_ext empty : kahn push1 pop G empty = kahn push2 pop G empty.
Proof.
  unfold kahn. rewrite push_all_ext.
  destruct (push_all push2 (initial_zero_indegree G) empty); [| done].
  apply kahn_loop_ext.
Qed.
End kahn_ext.

Lemma lexicographical_topological_sort_ext G key1 key2 :
  (forall v, key1 v = key2 v) ->
  lexicographical_topological_sort G key1
  = lexicographical_topological_sort G key2.
Proof.
  intros Hext. unfold lexicographical_topological_sort. apply kahn_ext.
  intros v q. unfold heappush. by rewrite Hext.
Qed.

(** ** The total order and the order of the declarations *)

(** What [graph] and [get_all_operations] return when the graph is not
    cached, from the dictionary that [operations] returns. *)
Lemma get_all_operations_value s ops :
  _graph s = None -> value (operations s) = Ok ops ->
  value (graph s)
  = match build_graph ops with
    | Raise e => Raise e
    | Ok DG =>
        match is_directed_acyclic_graph DG with
        | Ok true => Ok DG
        | Ok false => Raise (ValueError "Not a DAG")
        | Raise e => Raise e
        end
    end /\
  value (get_all_operations s)
  = match build_graph ops with
    | Raise e => Raise e
    | Ok DG =>
        match is_directed_acyclic_graph DG with
        | Ok true => lexicographical_topological_sort DG (custom_key ops)
        | Ok false => Raise (ValueError "Not a DAG")
        | Raise e => Raise e
        end
    end.
Proof.
  intros Hg Hops.
  destruct (operations_state s) as (_ & _ & Hst). specialize (Hst ops Hops).
  assert (forall e, value (graph s) = Raise e ->
            value (get_all_operations s) = Raise e) as Hraise.
  { intros e He. unfold get_all_operations. by rewrite run_bind, He. }
  destruct (graph_build s Hg)
    as [(e & Ho & _) | (ops' & Ho & [(e & Hb & Hv & _) | (DG & Hb & H)])];
    [congruence | |]; assert (ops' = ops) as -> by congruence.
  - rewrite Hb. split; [done |]. by apply Hraise.
  - rewrite Hb. destruct H as [(Hd & Hv & Hs) | (Hd & Hv & _)]; rewrite Hd.
    + split; [done |]. unfold get_all_operations. rewrite run_bind, Hv.
      cbn [value]. rewrite Hs.
      rewrite (topological_sort_cached _ DG ops); [| done | done].
      cbn [value]. f_equal. unfold sorted_graph.
      destruct (decide (list_to_set (nodes DG) = (∅ : gset string))); [done |].
      apply subgraph_all. by apply (build_graph_spec ops DG Hb).
    + split; [done |]. by apply Hraise.
Qed.

(** X22.  The graph and the total order depend on the set of the operations
    and not on the order in which they were declared: two objects whose
    dictionaries of operations hold the same entries in any order return the
    same graph and the same list (or raise the same exception). *)
Theorem total_order_declaration_order s1 s2 ops1 ops2 :
  _graph s1 = None -> _graph s2 = None ->
  value (operations s1) = Ok ops1 -> value (operations s2) = Ok ops2 ->
  NoDup (dict_keys ops1) -> ops1 ≡ₚ ops2 ->
  value (graph s1) = value (graph s2) /\
  value (get_all_operations s1) = value (get_all_operations s2).
Proof.
  intros Hg1 Hg2 Ho1 Ho2 Hnd Hperm.
  destruct (get_all_operations_value s1 ops1 Hg1 Ho1) as [-> ->].
  destruct (get_all_operations_value s2 ops2 Hg2 Ho2) as [-> ->].
  rewrite (build_graph_Permutation ops1 ops2 Hnd Hperm).
  split; [done |].
  destruct (build_graph ops2) as [DG|]; [| done].
  destruct (is_directed_acyclic_graph DG) as [[]|]; [| done..].
  apply lexicographical_topological_sort_ext. intros v.
  by apply custom_key_Permutation.
Qed.

(** X22 on scenario 1 and on the same declarations in the opposite order. *)
Lemma total_order_declaration_order_witness :
  _graph scenario_dag = None /\ _graph scenario_dag_reordered = None /\
  value (operations scenario_dag)
  = Ok (map (fun d => (decl_name d, Operation_init "c" d))
          [entry "a_install" [] "a" "install" true;
           entry "a_config" ["a_install"] "a" "config" true;
           entry "b_install" [] "b" "install" true]) /\
  value (operations scenario_dag_reordered)
  = Ok (rev (map (fun d => (decl_name d, Operation_init "c" d))
               [entry "a_install" [] "a" "install" true;
                entry "a_config" ["a_install"] "a" "config" true;
                entry "b_install" [] "b" "install" true])) /\
  value (graph scenario_dag) = value (graph scenario_dag_reordered) /\
  value (get_all_operations scenario_dag)
  = value (get_all_operations scenario_dag_reordered).
Proof.
  split; [reflexivity |]. split; [reflexivity |].
  split; [vm_compute; reflexivity |]. split; [vm_compute; reflexivity |].
  apply (total_order_declaration_order scenario_dag scenario_dag_reordered
           (map (fun d => (decl_name d, Operation_init "c" d))
              [entry "a_install" [] "a" "install" true;
               entry "a_config" ["a_install"] "a" "config" true;
               entry "b_install" [] "b" "install" true])
           (rev (map (fun d => (decl_name d, Operation_init "c" d))
                   [entry "a_install" [] "a" "install" true;
                    entry "a_config" ["a_install"] "a" "config" true;
                    entry "b_install" [] "b" "install" true]))).
  - reflexivity.
  - reflexivity.
  - vm_compute; reflexivity.
  - vm_compute; reflexivity.
  - apply (bool_decide_unpack _). vm_compute. exact I.
  - apply Permutation_rev.
Defined.

(** ** The order of the keys of [custom_key] *)

Lemma ascii_compare_refl c : Ascii.compare c c = Eq.
Proof. unfold Ascii.compare. apply N.compare_refl. Qed.

(** With equal priorities the keys compare as the names. *)
Lemma custom_key_compare operations u v ku kv :
  custom_key operations u = Ok ku -> custom_key operations v = Ok kv ->
  service_priority operations u = service_priority operations v ->
  String.compare ku kv = String.compare u v.
Proof.
  intros Hu Hv Heq.
  apply custom_key_service_priority in Hu, Hv. rewrite Heq in Hu.
  destruct (format_02d_priority _ (service_priority_In operations v))
    as (a & b & Ha).
  rewrite Ha in Hu, Hv. subst ku kv. simpl.
  by rewrite !ascii_compare_refl.
Qed.

Lemma string_ltb_asym a b : String.ltb a b = true -> String.ltb b a = false.
Proof.
  intros H. destruct (String.ltb b a) eqn:Hba; [| done].
  destruct (string_ltb_not_leb a b H). by apply string_ltb_leb.
Qed.

(** The order of the keys: the priority of the service first, then the
    name. *)
Lemma custom_key_ltb_iff operations u v ku kv :
  custom_key operations u = Ok ku -> custom_key operations v = Ok kv ->
  String.ltb ku kv = true <->
  service_priority operations u < service_priority operations v \/
  (service_priority operations u = service_priority operations v /\
   String.ltb u v = true).
Proof.
  intros Hu Hv.
  destruct (Z.lt_trichotomy (service_priority operations u)
              (service_priority operations v)) as [Hlt | [Heq | Hgt]].
  - split; [by left |]. intros _. by apply (custom_key_lt operations u v).
  - unfold String.ltb at 1.
    rewrite (custom_key_compare operations u v ku kv Hu Hv Heq).
    fold (String.ltb u v). split; [by right |]. intros [Hlt | [_ H]]; [lia | done].
  - rewrite (string_ltb_asym kv ku (custom_key_lt operations v u kv ku Hv Hu Hgt)).
    split; [done |]. intros [Hlt | [Heq _]]; lia.
Qed.

(** The keys of two distinct nodes are ordered one way or the other. *)
Lemma custom_key_total operations u v ku kv :
  custom_key operations u = Ok ku -> custom_key operations v = Ok kv ->
  u <> v -> String.ltb ku kv = true \/ String.ltb kv ku = true.
Proof.
  intros Hu Hv Hne. destruct (String.ltb ku kv) eqn:Hlt; [by left |]. right.
  apply string_ltb_false, string_leb_iff in Hlt as [-> | Hlt].
  - destruct Hne. by apply (custom_key_inj operations u v ku).
  - by apply string_ltb_iff.
Qed.

(** A node whose key is less than the key of [v], and whose ancestors have
    such keys, is taken before [v]. *)
Lemma key_before operations DG l u v :
  build_graph operations = Ok DG ->
  greedy DG (key_le (custom_key operations)) [] l -> l ≡ₚ nodes DG ->
  u ∈ nodes DG -> v ∈ nodes DG ->
  (forall a ka kv, a = u \/ path DG a u ->
     custom_key operations a = Ok ka -> custom_key operations v = Ok kv ->
     String.ltb ka kv = true) ->
  precedes l u v.
Proof.
  intros Hb Hg Hperm Hu Hv Hkeys.
  destruct (build_graph_spec operations DG Hb) as (Hwf & _).
  apply (greedy_before DG (key_le (custom_key operations))); try done.
  intros a Ha (kv & ka & Hkv & Hka & Hle).
  apply (string_ltb_not_leb ka kv); [| done]. by apply (Hkeys a).
Qed.

(** An operation without dependencies has no ancestor in the graph. *)
Lemma path_no_dependencies operations DG a u operation :
  build_graph operations = Ok DG ->
  dict_get u operations = Some operation -> depends_on operation = [] ->
  ~ path DG a u.
Proof.
  intros Hb Hop Hdeps Hpath.
  destruct (build_graph_spec operations DG Hb) as (_ & _ & He).
  assert (exists b, (b, u) ∈ edges DG) as [b Hbu].
  { clear Hop. induction Hpath as [a u Hau | a b u _ _ IH]; eauto. }
  apply He in Hbu as (operation' & Hop' & Hin).
  rewrite Hop in Hop'. injection Hop' as <-. rewrite Hdeps in Hin.
  by apply elem_of_nil in Hin.
Qed.

(** ** Which of two operations comes first *)

Lemma scenario_graph_path u v :
  path scenario_graph u v -> u = "a_install" /\ v = "a_config".
Proof.
  induction 1 as [u v Huv | u v w Huv _ IH].
  - apply list_elem_of_singleton in Huv. by injection Huv.
  - apply list_elem_of_singleton in Huv. injection Huv as -> ->.
    by destruct IH.
Qed.

(** X23.  Between services of the same priority the names decide: in the
    total order [u] comes before [v] when [u] and every ancestor of [u] has a
    service of smaller priority than [v], or a service of the same priority
    and a name that is less than the name of [v]. *)
Theorem priority_then_name_before s DG ops l u v :
  coherent s -> value (graph s) = Ok DG ->
  _operations (state (graph s)) = Some ops ->
  value (get_all_operations s) = Ok l ->
  u ∈ nodes DG -> v ∈ nodes DG ->
  (forall a, a = u \/ path DG a u ->
     service_priority ops a < service_priority ops v \/
     (service_priority ops a = service_priority ops v /\
      String.ltb a v = true)) ->
  precedes l u v.
Proof.
  intros Hco Hval Hops Hl Hu Hv Hprio.
  destruct (get_all_operations_run s DG Hco Hval)
    as (ops' & Hb & Hd & Hops' & Hrun).
  rewrite Hops in Hops'. injection Hops' as <-.
  destruct (total_order_spec ops DG Hb Hd) as (l' & Hl' & Hg & Hperm).
  rewrite Hrun, Hl' in Hl. injection Hl as <-.
  apply (key_before ops DG); try done.
  intros a ka kv Ha Hka Hkv.
  apply (custom_key_ltb_iff ops a v ka kv Hka Hkv). by apply Hprio.
Qed.

(** X23 on scenario 1: the services [a] and [b] have the default priority,
    and [a_install] comes before [b_install]. *)
Lemma priority_then_name_before_witness :
  coherent scenario_dag /\
  value (graph scenario_dag) = Ok scenario_graph /\
  value (get_all_operations scenario_dag)
  = Ok ["a_install"; "a_config"; "b_install"] /\
  precedes ["a_install"; "a_config"; "b_install"] "a_install" "b_install".
Proof.
  split; [exact I |]. split; [vm_compute; reflexivity |].
  split; [vm_compute; reflexivity |].
  apply (priority_then_name_before scenario_dag scenario_graph
           (map (fun d => (decl_name d, Operation_init "c" d))
              [entry "a_install" [] "a" "install" true;
               entry "a_config" ["a_install"] "a" "config" true;
               entry "b_install" [] "b" "install" true])
           ["a_install"; "a_config"; "b_install"] "a_install" "b_install").
  - exact I.
  - vm_compute; reflexivity.
  - vm_compute; reflexivity.
  - vm_compute; reflexivity.
  - right. left.
  - right. right. left.
  - intros a [-> | Hp].
    + right. split; vm_compute; reflexivity.
    + apply scenario_graph_path in Hp as [_ Hp]. discriminate Hp.
Defined.

(** X24.  Two distinct operations without dependencies come in the order of
    their keys: [u] is before [v] in the total order exactly when the
    service of [u] has the smaller priority, or the priorities are equal and
    the name of [u] is less than the name of [v]. *)
Theorem independent_operations_order s DG ops l u v operation_u operation_v :
  coherent s -> value (graph s) = Ok DG ->
  _operations (state (graph s)) = Some ops ->
  value (get_all_operations s) = Ok l ->
  dict_get u ops = Some operation_u -> depends_on operation_u = [] ->
  dict_get v ops = Some operation_v -> depends_on operation_v = [] ->
  u <> v ->
  precedes l u v <->
  service_priority ops u < service_priority ops v \/
  (service_priority ops u = service_priority ops v /\ String.ltb u v = true).
Proof.
  intros Hco Hval Hops Hl Hou Hdu Hov Hdv Hne.
  destruct (get_all_operations_run s DG Hco Hval)
    as (ops' & Hb & Hd & Hops' & Hrun).
  rewrite Hops in Hops'. injection Hops' as <-.
  destruct (total_order_spec ops DG Hb Hd) as (l' & Hl' & Hg & Hperm).
  rewrite Hrun, Hl' in Hl. injection Hl as <-.
  destruct (build_graph_spec ops DG Hb) as (_ & Hn & _).
  assert (u ∈ nodes DG) as Hu by (apply Hn, dict_get_is_Some; eauto).
  assert (v ∈ nodes DG) as Hv by (apply Hn, dict_get_is_Some; eauto).
  destruct (custom_key_Some ops u) as [ku Hku]; [by apply Hn |].
  destruct (custom_key_Some ops v) as [kv Hkv]; [by apply Hn |].
  rewrite <- (custom_key_ltb_iff ops u v ku kv Hku Hkv).
  assert (forall x y ox kx ky,
            dict_get x ops = Some ox -> depends_on ox = [] ->
            x ∈ nodes DG -> y ∈ nodes DG ->
            custom_key ops x = Ok kx -> custom_key ops y = Ok ky ->
            String.ltb kx ky = true -> precedes l' x y) as Hbefore.
  { intros x y ox kx ky Hox Hdx Hx Hy Hkx Hky Hlt.
    apply (key_before ops DG); try done.
    intros a ka ky' [-> | Hp] Hka Hky'.
    - congruence.
    - by destruct (path_no_dependencies ops DG a x ox Hb Hox Hdx). }
  split.
  - intros Hprec.
    destruct (custom_key_total ops u v ku kv Hku Hkv Hne) as [Hlt | Hlt];
      [done |].
    destruct (precedes_irrefl l' u). apply (precedes_trans l' u v u); [done |].
    by apply (Hbefore v u operation_v kv ku).
  - by apply (Hbefore u v operation_u ku kv).
Qed.

(** X24 on scenario 1, for [b_install] and [a_install]. *)
Lemma independent_operations_order_witness :
  coherent scenario_dag /\
  value (graph scenario_dag) = Ok scenario_graph /\
  value (get_all_operations scenario_dag)
  = Ok ["a_install"; "a_config"; "b_install"] /\
  (precedes ["a_install"; "a_config"; "b_install"] "b_install" "a_install" <->
   99 < 99 \/ (99 = 99 /\ String.ltb "b_install" "a_install" = true)).
Proof.
  split; [exact I |]. split; [vm_compute; reflexivity |].
  split; [vm_compute; reflexivity |].
  apply (independent_operations_order scenario_dag scenario_graph
           (map (fun d => (decl_name d, Operation_init "c" d))
              [entry "a_install" [] "a" "install" true;
               entry "a_config" ["a_install"] "a" "config" true;
               entry "b_install" [] "b" "install" true])
           ["a_install"; "a_config"; "b_install"] "b_install" "a_install"
           (Operation_init "c" (entry "b_install" [] "b" "install" true))
           (Operation_init "c" (entry "a_install" [] "a" "install" true))).
  - exact I.
  - vm_compute; reflexivity.
  - vm_compute; reflexivity.
  - vm_compute; reflexivity.
  - vm_compute; reflexivity.
  - reflexivity.
  - vm_compute; reflexivity.
  - reflexivity.
  - discriminate.
Defined.

(** ** A closure query on its own result *)

Lemma path_trans G a b c : path G a b -> path G b c -> path G a c.
Proof.
  induction 1 as [a b Hab | a x b Hax _ IH]; intros Hbc.
  - by apply (path_step G a b c).
  - apply (path_step G a x c); [done |]. by apply IH.
Qed.

(** What a successful read of [graph] leaves is coherent, and the graph is
    cached in it. *)
Lemma graph_state_coherent s DG :
  coherent s -> value (graph s) = Ok DG ->
  coherent (state (graph s)) /\
  graph (state (graph s))
  = {| value := Ok DG; state := state (graph s); log := [] |}.
Proof.
  intros Hco Hval.
  destruct (graph_Ok s DG Hco Hval) as (ops & Hg & Hops & Hb & Hd).
  split; [| by apply graph_cached].
  unfold coherent. rewrite Hg. by exists ops.
Qed.

(** A closure query leaves the object as the read of the graph left it. *)
Lemma closure_query_state closure ts s DG :
  coherent s -> value (graph s) = Ok DG -> ts <> [] ->
  (forall t, t ∈ ts -> exists found, closure DG t = Ok found) ->
  state ((update_closure closure ts (list_to_set ts) ≫= fun nodes_set =>
            topological_sort (Some nodes_set)) s)
  = state (graph s).
Proof.
  intros Hco Hval Hne Hall.
  destruct (graph_Ok s DG Hco Hval) as (ops & Hg & Hops & Hb & Hd).
  destruct (update_closure_cached closure ts (list_to_set ts) _ DG Hg Hall)
    as (S & Heq & HS).
  destruct (update_closure_after_graph closure ts (list_to_set ts) s DG Hval Hne)
    as [Hv Hs].
  rewrite Heq in Hv, Hs. cbn [value state] in Hv, Hs.
  rewrite run_bind, Hv. cbn [value state]. rewrite Hs.
  by rewrite (topological_sort_cached _ DG ops _ Hg Hops).
Qed.

(** The list that a closure query returns is closed for the relation [R] of
    the closure, and the query on this list returns it again. *)
Lemma closure_query_again closure (R : string -> string -> Prop) ts s DG :
  coherent s -> value (graph s) = Ok DG -> ts <> [] ->
  (forall t, t ∈ ts -> t ∈ nodes DG) ->
  (forall t, t ∈ nodes DG -> exists found, closure DG t = Ok found) ->
  (forall (us : list string) (S : gset string),
     (forall t, t ∈ us -> t ∈ nodes DG) ->
     (forall n, n ∈ S <->
        n ∈ us \/
        exists t found, t ∈ us /\ closure DG t = Ok found /\ n ∈ found) ->
     forall n, n ∈ S <-> exists t, t ∈ us /\ (n = t \/ R n t)) ->
  (forall a b c, R a b -> R b c -> R a c) ->
  (forall a b, R a b -> b ∈ nodes DG -> a ∈ nodes DG) ->
  exists l,
    value ((update_closure closure ts (list_to_set ts) ≫= fun nodes_set =>
              topological_sort (Some nodes_set)) s) = Ok l /\
    value ((update_closure closure l (list_to_set l) ≫= fun nodes_set =>
              topological_sort (Some nodes_set))
             (state ((update_closure closure ts (list_to_set ts) ≫=
                        fun nodes_set => topological_sort (Some nodes_set)) s)))
    = Ok l.
Proof.
  intros Hco Hval Hne Hts Htot Hchar Htrans Hnodes.
  destruct (closure_query_run closure ts s DG Hco Hval)
    as (ops & S & Hb & Hd & Hops & HS & Hrun).
  { intros t Ht. by apply Htot, Hts. }
  rewrite (closure_query_state closure ts s DG Hco Hval Hne)
    by (intros t Ht; by apply Htot, Hts).
  pose proof (Hchar ts S Hts HS) as HS'.
  destruct (build_graph_spec ops DG Hb) as (Hwf & Hn & _).
  assert (exists t0, t0 ∈ S) as [t0 Ht0].
  { destruct ts as [|t0 ts0]; [done |]. exists t0. apply HS. left. left. }
  rewrite (sorted_graph_nonempty DG S t0 Ht0) in Hrun.
  pose proof (subgraph_well_formed DG S Hwf) as Hwf'.
  destruct (lexicographical_topological_sort_spec (subgraph DG S)
              (custom_key ops) Hwf') as (l & Hl & _ & Hperm).
  { intros v Hv. apply custom_key_Some, Hn.
    by apply subgraph_nodes in Hv as [? _]. }
  { by apply subgraph_acyclic. }
  assert (forall n, n ∈ l <-> n ∈ S) as Hl'.
  { intros n. rewrite Hperm, subgraph_nodes. split; [tauto |].
    intros HnS. split; [| done]. apply HS' in HnS as (t & Ht & [-> | Hp]).
    - by apply Hts.
    - apply (Hnodes n t Hp). by apply Hts. }
  assert (forall t, t ∈ l -> t ∈ nodes DG) as Hls.
  { intros t Ht. rewrite Hperm in Ht. by apply subgraph_nodes in Ht as [? _]. }
  exists l. split; [by rewrite Hrun |].
  destruct (graph_state_coherent s DG Hco Hval) as [Hco' Hcached].
  assert (value (graph (state (graph s))) = Ok DG) as Hval'
    by by rewrite Hcached.
  destruct (closure_query_run closure l (state (graph s)) DG Hco' Hval')
    as (ops2 & S2 & _ & _ & Hops2 & HS2 & Hrun2).
  { intros t Ht. by apply Htot, Hls. }
  rewrite Hcached in Hops2. cbn [state] in Hops2.
  assert (ops2 = ops) as -> by congruence.
  assert (S2 = S) as ->.
  { apply set_eq. intros n. rewrite (Hchar l S2 Hls HS2 n), HS'. split.
    - intros (t & Ht & Hnt). apply Hl', HS' in Ht as (t1 & Ht1 & Ht).
      exists t1. split; [done |].
      destruct Hnt as [-> | Hnt]; [done |]. right.
      destruct Ht as [-> | Ht]; [done |]. by apply (Htrans n t t1).
    - intros HnS. exists n. split; [| by left]. by apply Hl', HS'. }
  by rewrite Hrun2, (sorted_graph_nonempty DG S t0 Ht0).
Qed.

(** ** The graph of a cached dictionary of operations *)

(** The getter of [graph] when the operations are cached and the graph is
    not: nothing is merged, validated or logged. *)
Lemma graph_operations_cached s ops :
  _graph s = None -> _operations s = Some ops ->
  graph s
  = match build_graph ops with
    | Raise e => {| value := Raise e; state := s; log := [] |}
    | Ok DG =>
        match is_directed_acyclic_graph DG with
        | Ok true =>
            {| value := Ok DG; state := set__graph (Some DG) s; log := [] |}
        | Ok false =>
            {| value := Raise (ValueError "Not a DAG"); state := s; log := [] |}
        | Raise e => {| value := Raise e; state := s; log := [] |}
        end
    end.
Proof.
  intros Hg Hops. with_strategy transparent [graph] unfold graph. run.
  rewrite Hg. rewrite (run_bind_pure _ _ _ _ _ (operations_cached s ops Hops)).
  destruct (build_graph ops) as [DG|e]; run; [| done].
  by destruct (is_directed_acyclic_graph DG) as [[]|e]; run.
Qed.

(** The first read of [services_operations] and of [services] when the
    operations are cached. *)
Lemma services_operations_of_cached s ops :
  _services_operations s = None -> _operations s = Some ops ->
  services_operations s
  = {| value := Ok (fold_left services_operations_add (dict_values ops) []);
       state := set__services_operations
                  (Some (fold_left services_operations_add (dict_values ops) []))
                  (set__services_operations (Some []) s);
       log := [] |}.
Proof.
  intros Hso Hops. unfold services_operations. run. rewrite Hso. run.
  rewrite (run_bind_pure _ _ _ _ _
             (operations_cached (set__services_operations (Some []) s) ops Hops)).
  by run.
Qed.

Lemma services_of_cached s ops :
  _services s = None -> _services_operations s = None ->
  _operations s = Some ops ->
  value (services s)
  = Ok (dict_keys (fold_left services_operations_add (dict_values ops) [])) /\
  log (services s) = [].
Proof.
  intros Hs Hso Hops. unfold services. run. rewrite Hs.
  rewrite (run_bind_pure _ _ _ _ _ (services_operations_of_cached s ops Hso Hops)).
  by run.
Qed.

(** ** The closure queries on their own result *)

(** X25.  The closure queries are idempotent: when the list that
    [get_operations_to_nodes] (or [get_operations_from_nodes]) returned for a
    non-empty list of nodes of the graph is passed to the same method of the
    same object, the method returns this list again. *)
Theorem closure_queries_idempotent s DG ts :
  coherent s -> value (graph s) = Ok DG -> ts <> [] ->
  (forall t, t ∈ ts -> t ∈ nodes DG) ->
  (exists l,
     value (get_operations_to_nodes ts s) = Ok l /\
     value (get_operations_to_nodes l (state (get_operations_to_nodes ts s)))
     = Ok l) /\
  (exists l,
     value (get_operations_from_nodes ts s) = Ok l /\
     value (get_operations_from_nodes l (state (get_operations_from_nodes ts s)))
     = Ok l).
Proof.
  intros Hco Hval Hne Hts.
  destruct (graph_Ok s DG Hco Hval) as (ops & _ & _ & Hb & _).
  destruct (build_graph_spec ops DG Hb) as (Hwf & _).
  split.
  - unfold get_operations_to_nodes.
    apply (closure_query_again ancestors (fun n t => path DG n t) ts s DG);
      try done.
    + intros t Ht. destruct (ancestors_spec DG t Hwf Ht) as (f & ? & _). eauto.
    + intros us S Hus HS. by apply (ancestors_closure DG us S Hwf Hus HS).
    + apply path_trans.
    + intros a b Hp _. by apply (path_nodes DG a b Hwf).
  - unfold get_operations_from_nodes.
    apply (closure_query_again descendants (fun n t => path DG t n) ts s DG);
      try done.
    + intros t Ht. destruct (descendants_spec DG t Hwf Ht) as (f & ? & _). eauto.
    + intros us S Hus HS. by apply (descendants_closure DG us S Hwf Hus HS).
    + intros a b c Hab Hbc. by apply (path_trans DG c b a).
    + intros a b Hp _. by apply (path_nodes DG b a Hwf).
Qed.

(** X25 on scenario 1, for [a_config]. *)
Lemma closure_queries_idempotent_witness :
  coherent scenario_dag /\
  value (graph scenario_dag) = Ok scenario_graph /\
  "a_config" ∈ nodes scenario_graph /\
  (exists l,
     value (get_operations_to_nodes ["a_config"] scenario_dag) = Ok l /\
     value (get_operations_to_nodes l
              (state (get_operations_to_nodes ["a_config"] scenario_dag)))
     = Ok l) /\
  (exists l,
     value (get_operations_from_nodes ["a_config"] scenario_dag) = Ok l /\
     value (get_operations_from_nodes l
              (state (get_operations_from_nodes ["a_config"] scenario_dag)))
     = Ok l).
Proof.
  split; [exact I |]. split; [vm_compute; reflexivity |]. split; [left |].
  apply (closure_queries_idempotent scenario_dag scenario_graph ["a_config"]).
  - exact I.
  - vm_compute; reflexivity.
  - discriminate.
  - intros t Ht. apply list_elem_of_singleton in Ht as ->. left.
Defined.

(** ** Assigning and deleting the cached properties *)

(** X26.  After a dictionary is assigned to [operations], the getter returns
    it as it is, without merging or validating anything and without logging;
    the graph and the list of the services are computed again from this
    dictionary, whatever was cached before the assignment. *)
Theorem operations_assigned ops s :
  operations (state (set_operations (Some ops) s))
  = {| value := Ok ops; state := state (set_operations (Some ops) s);
       log := [] |} /\
  value (graph (state (set_operations (Some ops) s)))
  = match build_graph ops with
    | Raise e => Raise e
    | Ok DG =>
        match is_directed_acyclic_graph DG with
        | Ok true => Ok DG
        | Ok false => Raise (ValueError "Not a DAG")
        | Raise e => Raise e
        end
    end /\
  log (graph (state (set_operations (Some ops) s))) = [] /\
  value (services (state (set_operations (Some ops) s)))
  = Ok (dict_keys (fold_left services_operations_add (dict_values ops) [])) /\
  log (services (state (set_operations (Some ops) s))) = [].
Proof.
  split; [by apply operations_cached |]. split; [| split].
  - rewrite (graph_operations_cached (state (set_operations (Some ops) s)) ops
              eq_refl eq_refl).
    destruct (build_graph ops) as [DG|e]; [| done].
    by destruct (is_directed_acyclic_graph DG) as [[]|e].
  - rewrite (graph_operations_cached (state (set_operations (Some ops) s)) ops
              eq_refl eq_refl).
    destruct (build_graph ops) as [DG|e]; [| done].
    by destruct (is_directed_acyclic_graph DG) as [[]|e].
  - by apply services_of_cached.
Qed.

(** X27.  Deleting the cached graph loses nothing: the next read of [graph]
    builds the same graph from the cached operations, without logging, and
    leaves the object as it was before the deletion. *)
Theorem graph_deleted_rebuilt s DG :
  coherent s -> _graph s = Some DG ->
  _graph (state (del_graph s)) = None /\
  graph (state (del_graph s)) = {| value := Ok DG; state := s; log := [] |}.
Proof.
  intros Hco Hg. split; [done |].
  unfold coherent in Hco. rewrite Hg in Hco.
  destruct Hco as (ops & Hops & Hb & Hd).
  rewrite (graph_operations_cached (state (del_graph s)) ops eq_refl Hops).
  rewrite Hb, Hd. f_equal. destruct s. simpl in Hg. by subst.
Qed.

(** X27 on scenario 1, after a first read of the graph. *)
Lemma graph_deleted_rebuilt_witness :
  coherent (state (graph scenario_dag)) /\
  _graph (state (graph scenario_dag)) = Some scenario_graph /\
  _graph (state (del_graph (state (graph scenario_dag)))) = None /\
  graph (state (del_graph (state (graph scenario_dag))))
  = {| value := Ok scenario_graph; state := state (graph scenario_dag);
       log := [] |}.
Proof.
  assert (coherent (state (graph scenario_dag))) as Hco.
  { vm_compute. eexists. split; [reflexivity |]. split; reflexivity. }
  split; [exact Hco |]. split; [vm_compute; reflexivity |].
  apply (graph_deleted_rebuilt (state (graph scenario_dag)) scenario_graph);
    [exact Hco | vm_compute; reflexivity].
Defined.

(** ** Collections without operations *)

(** X28.  When the files of the collections declare no operation, nothing
    raises and nothing is logged: the dictionary of the operations, the
    graph, the total order and the list of the services are empty. *)
Theorem no_declarations collections :
  all_declarations collections = [] ->
  operations (Dag_init collections)
  = {| value := Ok []; state := set__operations (Some []) (Dag_init collections);
       log := [] |} /\
  value (graph (Dag_init collections)) = Ok empty_graph /\
  value (get_all_operations (Dag_init collections)) = Ok [] /\
  value (services (Dag_init collections)) = Ok [].
Proof.
  intros Hnone.
  assert (merge_collections collections [] = Ok []) as Hmerge.
  { rewrite merge_collections_NoDup; rewrite Hnone; [done | constructor]. }
  assert (forall s, _operations s = None -> _collections s = collections ->
            operations s
            = {| value := Ok []; state := set__operations (Some []) s;
                 log := [] |}) as Hops.
  { intros s Hs Hc. pose proof (operations_run s Hs) as Hrun.
    rewrite Hc, Hmerge in Hrun. by rewrite Hrun. }
  split; [by apply Hops |].
  destruct (get_all_operations_value (Dag_init collections) [])
    as [Hgraph Hall]; [done | by rewrite Hops |].
  split; [by rewrite Hgraph |]. split; [by rewrite Hall |].
  assert (exists s',
            services_operations (Dag_init collections)
            = {| value := Ok []; state := s'; log := [] |}) as [s' Hso].
  { eexists. unfold services_operations. run.
    cbn [_services_operations Dag_init]. run.
    rewrite (run_bind_pure _ _ _ _ _
               (Hops (set__services_operations (Some []) (Dag_init collections))
                  eq_refl eq_refl)).
    run. reflexivity. }
  unfold services. run. cbn [_services Dag_init].
  rewrite (run_bind_pure _ _ _ _ _ Hso). by run.
Qed.

(** X28 on a collection whose only file is an empty document. *)
Lemma no_declarations_witness :
  all_declarations
    [("c", {| Collection.name := "c"; Collection.dag_yamls := [None];
              Collection.operations := [] |})] = [] /\
  value (get_all_operations
           (Dag_init
              [("c", {| Collection.name := "c"; Collection.dag_yamls := [None];
                        Collection.operations := [] |})])) = Ok [] /\
  value (services
           (Dag_init
              [("c", {| Collection.name := "c"; Collection.dag_yamls := [None];
                        Collection.operations := [] |})])) = Ok [].
Proof.
  split; [reflexivity |].
  destruct (no_declarations
              [("c", {| Collection.name := "c"; Collection.dag_yamls := [None];
                        Collection.operations := [] |})] eq_refl)
    as (_ & _ & Hall & Hserv).
  split; [exact Hall | exact Hserv].
Defined.
